(** * HackAtari: fishing-derby RAM patchers and the RAM-explorer GUI

    A shallow embedding of [hackatari/games/fishingderby.py] and of the
    [Renderer] class of [rem_gui.py], with the properties of the behaviour
    patchers and of the causative-cell scan proved over it.

    Conventions.
    - RAM cells are integers ([Z]); the emulator keeps them in [0, 255].
      Arithmetic on a value read from RAM is integer arithmetic, as the
      source writes it ([value + 1] may be 256 before [min] is taken).
    - Cell indices, pixel coordinates and layout sizes are [nat].
    - Python code that mutates an object and may raise runs in the monad
      [M S]: the state survives an exception, as the object does. *)

From Stdlib Require Import ZArith Lia List String Ascii Sorted.
From stdpp Require Import base tactics option list strings pretty gmap
  sorting.

Local Open Scope Z_scope.

(** ** Exceptions, state and loops *)

(** The Python exceptions the modelled code can raise.  The two
    [InvalidMemory*] cases are the failures of the emulator's [setRAM]. *)
Inductive exn : Set :=
| IndexError
| ValueError
| KeyError
| InvalidMemoryIndex
| InvalidMemoryValue.

Definition M (S A : Type) : Type := S -> (exn + A) * S.

Definition ret {S A} (a : A) : M S A := fun s => (inr a, s).

Definition raise {S A} (x : exn) : M S A := fun s => (inl x, s).

Definition bind {S A B} (m : M S A) (k : A -> M S B) : M S B :=
  fun s => match m s with
           | (inr a, s') => k a s'
           | (inl x, s') => (inl x, s')
           end.

Definition gets {S A} (f : S -> A) : M S A := fun s => (inr (f s), s).

Definition modify {S} (f : S -> S) : M S unit := fun s => (inr tt, f s).

Declare Scope py_scope.
Delimit Scope py_scope with py.
Notation "x <- m ;; k" := (bind m (fun x => k))
  (at level 100, m at next level, right associativity) : py_scope.
Notation "m ;; k" := (bind m (fun _ => k))
  (at level 100, right associativity) : py_scope.
Local Open Scope py_scope.

(** [if b: body] with no [else]. *)
Definition when {S} (b : bool) (body : M S unit) : M S unit :=
  if b then body else ret tt.

(** [for a in l: body a]. *)
Fixpoint for_ {S A} (l : list A) (body : A -> M S unit) : M S unit :=
  match l with
  | [] => ret tt
  | a :: l' => body a ;; for_ l' body
  end.

(** A loop body that may end in [break]. *)
Inductive flow : Set := Continue | Break.

Fixpoint for_break {S A} (l : list A) (body : A -> M S flow) : M S unit :=
  match l with
  | [] => ret tt
  | a :: l' =>
      f <- body a ;;
      match f with
      | Break => ret tt
      | Continue => for_break l' body
      end
  end.

(** [range(n)] and [enumerate(values)]. *)
Definition range (n : nat) : list nat := seq 0 n.

Definition enumerate {A} (values : list A) : list (nat * A) :=
  zip (seq 0 (length values)) values.

(** [l[i]] on a list or array, for a non-negative index. *)
Definition getitem {S A} (l : list A) (i : nat) : M S A :=
  match l !! i with
  | Some a => ret a
  | None => raise IndexError
  end.

(** Run a computation on a component of the state. *)
Definition zoom {S T A} (proj : S -> T) (inj : T -> S -> S) (m : M T A)
  : M S A :=
  fun s => let '(o, t) := m (proj s) in (o, inj t s).

(** ** The module globals of [fishingderby.py] *)

Record Globals : Set := mkGlobals { FISH_MODE : Z; SHARK_MODE : Z }.

Definition set_FISH_MODE (n : Z) (g : Globals) : Globals :=
  {| FISH_MODE := n; SHARK_MODE := SHARK_MODE g |}.

Definition set_SHARK_MODE (n : Z) (g : Globals) : Globals :=
  {| FISH_MODE := FISH_MODE g; SHARK_MODE := n |}.

(** The initial values [FISH_MODE = 0], [SHARK_MODE = 0]. *)
Definition globals0 : Globals := {| FISH_MODE := 0; SHARK_MODE := 0 |}.

(** A value that fits a RAM cell. *)
Definition is_byte (v : Z) : Prop := 0 <= v < 256.

#[global] Instance is_byte_dec v : Decision (is_byte v).
Proof. unfold is_byte. apply _. Defined.

(** An RGB pixel, one row of the array [getScreenRGB] returns. *)
Definition pixel : Set := (Z * Z * Z)%type.

(** [np.any(p != q)] on two pixels: some channel differs. *)
Definition np_any_ne (p q : pixel) : bool :=
  let '(r1, g1, b1) := p in
  let '(r2, g2, b2) := q in
  negb (r1 =? r2) || negb (g1 =? g2) || negb (b1 =? b2).

(** ** Strings *)

(** [int(s)] for a string of decimal digits; [None] is [ValueError].
    The strings reaching [int] in the modelled code are typed digits or a
    single character, so signs, blanks and underscores are not covered. *)
Definition digit_of_ascii (c : ascii) : option Z :=
  let n := Z.of_nat (nat_of_ascii c) in
  if (48 <=? n) && (n <=? 57) then Some (n - 48) else None.

Fixpoint int_digits (acc : Z) (s : string) : option Z :=
  match s with
  | EmptyString => Some acc
  | String c s' =>
      match digit_of_ascii c with
      | Some d => int_digits (10 * acc + d) s'
      | None => None
      end
  end.

Definition int_of_string (s : string) : option Z :=
  match s with
  | EmptyString => None
  | _ => int_digits 0 s
  end.

Definition int {S} (s : string) : M S Z :=
  match int_of_string s with
  | Some n => ret n
  | None => raise ValueError
  end.

(** [str(n)] for an integer. *)
Definition str (n : Z) : string := pretty n.

(** [s[-1]]: the last character, [IndexError] on the empty string. *)
Fixpoint last_char (s : string) : option ascii :=
  match s with
  | EmptyString => None
  | String c EmptyString => Some c
  | String _ s' => last_char s'
  end.

(** [s[:-1]]. *)
Fixpoint drop_last (s : string) : string :=
  match s with
  | EmptyString => EmptyString
  | String _ EmptyString => EmptyString
  | String c s' => String c (drop_last s')
  end.

(** [s.startswith(c)] for a one-character prefix. *)
Definition startswith (s : string) (c : ascii) : bool :=
  match s with
  | String c' _ => bool_decide (c' = c)
  | EmptyString => false
  end.

(** ** [modif_funcs] *)

(** The two function objects a [step_modifs] list can hold. *)
Inductive modif : Set := alter_fish_fn | alter_shark_fn.

(** The local lists of a call of [modif_funcs], next to the globals. *)
Record modif_frame : Set := mkFrame {
  glob : Globals;
  step_modifs : list modif;
  reset_modifs : list modif
}.

Definition modif_body (mod_ : string) : M modif_frame unit :=
  c <- (match last_char mod_ with
        | Some c => ret c
        | None => raise IndexError
        end) ;;
  mod_n <- int (String c EmptyString) ;;
  if startswith mod_ "f" then
    modify (fun fr => {| glob := set_FISH_MODE mod_n (glob fr);
                         step_modifs := step_modifs fr ++ [alter_fish_fn];
                         reset_modifs := reset_modifs fr |})
  else if startswith mod_ "s" then
    modify (fun fr => {| glob := set_SHARK_MODE mod_n (glob fr);
                         step_modifs := step_modifs fr ++ [alter_shark_fn];
                         reset_modifs := reset_modifs fr |})
  else ret tt.

Definition modif_funcs (modifs : list string)
  : M Globals (list modif * list modif) :=
  fun g =>
    let '(o, fr) :=
      for_ modifs modif_body
        {| glob := g; step_modifs := []; reset_modifs := [] |} in
    (match o with
     | inr _ => inr (step_modifs fr, reset_modifs fr)
     | inl x => inl x
     end, glob fr).

(** The integer [int(mod[-1])] when the string has a last character and
    it is a decimal digit. *)
Definition mod_n_of (mod_ : string) : option Z :=
  match last_char mod_ with
  | Some c => digit_of_ascii c
  | None => None
  end.

(** What one modification string adds to [step_modifs]. *)
Definition modif_entry (mod_ : string) : list modif :=
  if startswith mod_ "f" then [alter_fish_fn]
  else if startswith mod_ "s" then [alter_shark_fn]
  else [].

(** What one modification string does to the mode globals. *)
Definition modif_globals (g : Globals) (mod_ : string) : Globals :=
  match mod_n_of mod_ with
  | Some n =>
      if startswith mod_ "f" then set_FISH_MODE n g
      else if startswith mod_ "s" then set_SHARK_MODE n g
      else g
  | None => g
  end.

(** ** pygame *)

(** The key codes [pygame.K_*] the event handler compares with.  pygame
    is not part of the repository: the codes are a parameter of the
    handler, and [pygame2_keys] holds the values of pygame 2. *)
Record pygame_keys : Set := mkKeys {
  K_0 : Z; K_9 : Z; K_KP1 : Z; K_KP0 : Z;
  K_BACKSPACE : Z; K_RETURN : Z; K_KP_ENTER : Z; K_ESCAPE : Z;
  K_p : Z; K_r : Z; K_s : Z; K_F11 : Z
}.

Definition pygame2_keys : pygame_keys :=
  {| K_0 := 48; K_9 := 57; K_KP1 := 1073741913; K_KP0 := 1073741922;
     K_BACKSPACE := 8; K_RETURN := 13; K_KP_ENTER := 1073741912;
     K_ESCAPE := 27; K_p := 112; K_r := 114; K_s := 115;
     K_F11 := 1073741892 |}.

(** The events of [pygame.event.get()] the handler distinguishes. *)
Inductive event : Set :=
| QUIT
| MOUSEBUTTONDOWN (button : Z)
| KEYDOWN (key : Z)
| KEYUP (key : Z)
| OTHER.

(** The calls made on the emulator, oldest first.  The list is not in
    the source: it records what the code asks of the emulator, so that
    properties of the writes issued can be stated. *)
Inductive Call : Set :=
| CSetRAM (i : nat) (v : Z)
| CStep (a : Z)
| CReset.

Definition is_write (c : Call) : bool :=
  match c with CSetRAM _ _ => true | _ => false end.

(** The value of a write call stays within a byte. *)
Definition byte_call (c : Call) : Prop :=
  match c with CSetRAM _ v => 0 <= v <= 255 | _ => True end.

(** ** A reference emulator

    A small concrete emulator on which the development is exercised:
    RAM cells kept modulo 256, a 2 x 2 screen whose pixel [(x, y)] shows
    cell [2 * y + x] and cell 75, and a step that counts frames in cell 0
    and in a register outside the RAM. *)
Module Toy.

Record Env : Set := mkEnv { ram : list Z; frames : nat }.

(** The cells are read modulo 256. *)
Definition getRAM (e : Env) : list Z :=
  map (fun v => v mod 256) (ram e).

Definition setRAM (i : nat) (v : Z) (e : Env) : Env :=
  {| ram := <[i := v]> (ram e); frames := frames e |}.

Definition step (a : Z) (e : Env) : Env :=
  {| ram := alter (fun v => v + 1) 0%nat (ram e);
     frames := S (frames e) |}.

Definition reset (e : Env) : Env :=
  {| ram := replicate 128 0; frames := 0 |}.

Definition cell (e : Env) (i : nat) : Z := default 0 (getRAM e !! i).

Definition getScreenRGB (e : Env) : list (list pixel) :=
  [ [ (cell e 0, cell e 75, 0); (cell e 1, cell e 75, 0) ];
    [ (cell e 2, cell e 75, 0); (cell e 3, cell e 75, 0) ] ].

(** Cell [i] holds [i]. *)
Definition env0 : Env :=
  {| ram := map Z.of_nat (seq 0 128); frames := 0 |}.

(** Every cell zero. *)
Definition zeros : Env := {| ram := replicate 128 0; frames := 0 |}.

(** No key is bound to an action, the grid has 8 columns of cells 115
    wide and 45 high, and the frame is drawn four times its size. *)
Definition layout (fullscreen : bool) (cells : nat) : nat * nat * nat :=
  (8, 115, 45)%nat.

Definition UPSCALE_FACTOR : nat := 4.

End Toy.

(** ** The emulator *)

Section ALE.

(** The Arcade Learning Environment wrapped by the game environment is
    not part of the repository.  It is a parameter: its state, its RAM
    accessors, one environment step (which includes the per-step
    modifications of the wrapper), reset and the rendered screen. *)
Variable Env : Type.
Variable getRAM : Env -> list Z.
Variable setRAM : nat -> Z -> Env -> Env.
Variable step : Z -> Env -> Env.
Variable reset : Env -> Env.
Variable getScreenRGB : Env -> list (list pixel).

(** [ale.setRAM(i, v)]: an index outside the RAM or a value outside a
    byte is refused and nothing is written. *)
Definition ALE_setRAM (i : nat) (v : Z) : M Env unit :=
  fun e =>
    if decide (is_byte v) then
      if decide (i < length (getRAM e))%nat then (inr tt, setRAM i v e)
      else (inl InvalidMemoryIndex, e)
    else (inl InvalidMemoryValue, e).

(** [self.get_ram()] and [self.set_ram(i, v)] of the game environment
    delegate to the emulator. *)
Definition get_ram : M Env (list Z) := gets getRAM.
Definition set_ram (i : nat) (v : Z) : M Env unit := ALE_setRAM i v.

(** *** fishingderby.py *)

Definition alter_shark (g : Globals) : M Env unit :=
  when (0 <? SHARK_MODE g) (
    when (SHARK_MODE g =? 1) (set_ram 75 105) ;;
    when (SHARK_MODE g =? 2) (set_ram 75 25) ;;
    when (SHARK_MODE g =? 3) (
      ram <- get_ram ;;
      current_x_position <- getitem ram 75 ;;
      when (current_x_position =? 100) (set_ram 75 25) ;;
      when (current_x_position =? 30) (set_ram 75 105)) ;;
    when (SHARK_MODE g =? 4) (
      ram <- get_ram ;;
      current_x_position <- getitem ram 75 ;;
      when (current_x_position <? 120)
        (set_ram 75 (current_x_position + 5)) ;;
      when (current_x_position >? 120) (set_ram 75 1))).

Definition alter_fish (g : Globals) : M Env unit :=
  when (0 <? FISH_MODE g) (
    when (FISH_MODE g =? 1) (
      for_ (range 6) (fun i =>
        ram <- get_ram ;;
        v <- getitem ram (69 + i) ;;
        when (v >? 86) (set_ram (69 + i) 44))) ;;
    when (FISH_MODE g =? 2) (
      for_ (range 6) (fun i =>
        ram <- get_ram ;;
        v <- getitem ram (69 + i) ;;
        when (v <? 70) (set_ram (69 + i) 116))) ;;
    when (FISH_MODE g =? 3) (
      for_ (range 6) (fun i =>
        ram <- get_ram ;;
        v <- getitem ram (69 + i) ;;
        when (v <? 70) (set_ram (69 + i) 86) ;;
        ram <- get_ram ;;
        v <- getitem ram (69 + i) ;;
        when (v >? 86) (set_ram (69 + i) 70)))).

(** Calling an entry of [step_modifs] on the game environment. *)
Definition call_modif (g : Globals) (f : modif) : M Env unit :=
  match f with
  | alter_fish_fn => alter_fish g
  | alter_shark_fn => alter_shark g
  end.

(** *** rem_gui.py: the emulator object *)

(** The environment object the [Renderer] holds: the emulator state
    with the calls made on it. *)
#[projections(primitive)]
Record Logged : Type := mkLogged { emu : Env; calls : list Call }.

Definition log (c : Call) : M Logged unit :=
  modify (fun w => {| emu := emu w; calls := calls w ++ [c] |}).

Definition on_emu {A} (m : M Env A) : M Logged A :=
  zoom emu (fun e w => {| emu := e; calls := calls w |}) m.

Definition ale_getRAM : M Logged (list Z) := on_emu (gets getRAM).

Definition ale_setRAM (i : nat) (v : Z) : M Logged unit :=
  log (CSetRAM i v) ;; on_emu (ALE_setRAM i v).

Definition ale_getScreenRGB : M Logged (list (list pixel)) :=
  on_emu (gets getScreenRGB).

Definition env_step (a : Z) : M Logged unit :=
  log (CStep a) ;; on_emu (modify (step a)).

Definition env_reset : M Logged unit :=
  log CReset ;; on_emu (modify reset).

(** *** rem_gui.py: the Renderer *)

Variable keys : pygame_keys.

(** [UPSCALE_FACTOR] of the object-extraction library. *)
Variable UPSCALE_FACTOR : nat.

(** What [_init_pygame] derives from the display for the RAM grid:
    [RAM_N_COLS], [scaled_cell_width], [scaled_cell_height], from the
    full-screen flag and the number of cells. *)
Variable pygame_layout : bool -> nat -> nat * nat * nat.

#[projections(primitive)]
Record Renderer : Type := mkRenderer {
  env : Logged;
  running : bool;
  paused : bool;
  fullscreen : bool;
  current_keys_down : gset Z;
  current_mouse_pos : nat * nat;
  keys2actions : list (list Z * Z);
  ram_grid_anchor_left : nat;
  ram_grid_anchor_top : nat;
  RAM_N_COLS : nat;
  scaled_cell_width : nat;
  scaled_cell_height : nat;
  amount_ram_cells : nat;
  active_cell_idx : option nat;
  candidate_cell_ids : list nat;
  current_active_cell_input : string;
  no_render : list (option nat)
}.

Definition set_env (w : Logged) (r : Renderer) : Renderer :=
  mkRenderer w (running r) (paused r) (fullscreen r)
    (current_keys_down r) (current_mouse_pos r) (keys2actions r)
    (ram_grid_anchor_left r) (ram_grid_anchor_top r) (RAM_N_COLS r)
    (scaled_cell_width r) (scaled_cell_height r) (amount_ram_cells r)
    (active_cell_idx r) (candidate_cell_ids r)
    (current_active_cell_input r) (no_render r).

Definition set_running (b : bool) (r : Renderer) : Renderer :=
  mkRenderer (env r) b (paused r) (fullscreen r)
    (current_keys_down r) (current_mouse_pos r) (keys2actions r)
    (ram_grid_anchor_left r) (ram_grid_anchor_top r) (RAM_N_COLS r)
    (scaled_cell_width r) (scaled_cell_height r) (amount_ram_cells r)
    (active_cell_idx r) (candidate_cell_ids r)
    (current_active_cell_input r) (no_render r).

Definition set_paused (b : bool) (r : Renderer) : Renderer :=
  mkRenderer (env r) (running r) b (fullscreen r)
    (current_keys_down r) (current_mouse_pos r) (keys2actions r)
    (ram_grid_anchor_left r) (ram_grid_anchor_top r) (RAM_N_COLS r)
    (scaled_cell_width r) (scaled_cell_height r) (amount_ram_cells r)
    (active_cell_idx r) (candidate_cell_ids r)
    (current_active_cell_input r) (no_render r).

Definition set_fullscreen (b : bool) (r : Renderer) : Renderer :=
  mkRenderer (env r) (running r) (paused r) b
    (current_keys_down r) (current_mouse_pos r) (keys2actions r)
    (ram_grid_anchor_left r) (ram_grid_anchor_top r) (RAM_N_COLS r)
    (scaled_cell_width r) (scaled_cell_height r) (amount_ram_cells r)
    (active_cell_idx r) (candidate_cell_ids r)
    (current_active_cell_input r) (no_render r).

Definition set_current_keys_down (ks : gset Z) (r : Renderer) : Renderer :=
  mkRenderer (env r) (running r) (paused r) (fullscreen r)
    ks (current_mouse_pos r) (keys2actions r)
    (ram_grid_anchor_left r) (ram_grid_anchor_top r) (RAM_N_COLS r)
    (scaled_cell_width r) (scaled_cell_height r) (amount_ram_cells r)
    (active_cell_idx r) (candidate_cell_ids r)
    (current_active_cell_input r) (no_render r).

Definition set_current_mouse_pos (p : nat * nat) (r : Renderer)
  : Renderer :=
  mkRenderer (env r) (running r) (paused r) (fullscreen r)
    (current_keys_down r) p (keys2actions r)
    (ram_grid_anchor_left r) (ram_grid_anchor_top r) (RAM_N_COLS r)
    (scaled_cell_width r) (scaled_cell_height r) (amount_ram_cells r)
    (active_cell_idx r) (candidate_cell_ids r)
    (current_active_cell_input r) (no_render r).

Definition set_layout (l : nat * nat * nat) (r : Renderer) : Renderer :=
  mkRenderer (env r) (running r) (paused r) (fullscreen r)
    (current_keys_down r) (current_mouse_pos r) (keys2actions r)
    (ram_grid_anchor_left r) (ram_grid_anchor_top r) (l.1.1)
    (l.1.2) (l.2) (amount_ram_cells r)
    (active_cell_idx r) (candidate_cell_ids r)
    (current_active_cell_input r) (no_render r).

Definition set_active_cell_idx (a : option nat) (r : Renderer)
  : Renderer :=
  mkRenderer (env r) (running r) (paused r) (fullscreen r)
    (current_keys_down r) (current_mouse_pos r) (keys2actions r)
    (ram_grid_anchor_left r) (ram_grid_anchor_top r) (RAM_N_COLS r)
    (scaled_cell_width r) (scaled_cell_height r) (amount_ram_cells r)
    a (candidate_cell_ids r)
    (current_active_cell_input r) (no_render r).

Definition set_candidate_cell_ids (c : list nat) (r : Renderer)
  : Renderer :=
  mkRenderer (env r) (running r) (paused r) (fullscreen r)
    (current_keys_down r) (current_mouse_pos r) (keys2actions r)
    (ram_grid_anchor_left r) (ram_grid_anchor_top r) (RAM_N_COLS r)
    (scaled_cell_width r) (scaled_cell_height r) (amount_ram_cells r)
    (active_cell_idx r) c
    (current_active_cell_input r) (no_render r).

Definition set_current_active_cell_input (s : string) (r : Renderer)
  : Renderer :=
  mkRenderer (env r) (running r) (paused r) (fullscreen r)
    (current_keys_down r) (current_mouse_pos r) (keys2actions r)
    (ram_grid_anchor_left r) (ram_grid_anchor_top r) (RAM_N_COLS r)
    (scaled_cell_width r) (scaled_cell_height r) (amount_ram_cells r)
    (active_cell_idx r) (candidate_cell_ids r)
    s (no_render r).

Definition set_no_render (l : list (option nat)) (r : Renderer)
  : Renderer :=
  mkRenderer (env r) (running r) (paused r) (fullscreen r)
    (current_keys_down r) (current_mouse_pos r) (keys2actions r)
    (ram_grid_anchor_left r) (ram_grid_anchor_top r) (RAM_N_COLS r)
    (scaled_cell_width r) (scaled_cell_height r) (amount_ram_cells r)
    (active_cell_idx r) (candidate_cell_ids r)
    (current_active_cell_input r) l.

(** A call on [self.env] or on [self.env.unwrapped.ale]. *)
Definition ale {A} (m : M Logged A) : M Renderer A := zoom env set_env m.

(** [_init_pygame]: opens the window and recomputes the grid layout. *)
Definition _init_pygame : M Renderer unit :=
  modify (fun r =>
    set_layout (pygame_layout (fullscreen r) (amount_ram_cells r)) r).

Definition toggle_fullscreen : M Renderer unit :=
  modify (fun r => set_fullscreen (negb (fullscreen r)) r) ;;
  _init_pygame.

(** [_render] draws the frame and the RAM grid on the window: it reads
    the Renderer and the RAM, and changes neither. *)
Definition _render : M Renderer unit := ret tt.

Definition _get_ram_value_at (idx : nat) : M Renderer Z :=
  ram <- ale ale_getRAM ;;
  getitem ram idx.

Definition _set_ram_value_at (idx : nat) (value : Z) : M Renderer unit :=
  ale (ale_setRAM idx value).

Definition _set_ram (values : list Z) : M Renderer unit :=
  for_ (enumerate values) (fun '(k, value) => ale (ale_setRAM k value)).

Definition _increment_ram_value_at (idx : nat) : M Renderer unit :=
  value <- _get_ram_value_at idx ;;
  _set_ram_value_at idx (Z.min (value + 1) 255).

Definition _decrement_ram_value_at (idx : nat) : M Renderer unit :=
  value <- _get_ram_value_at idx ;;
  _set_ram_value_at idx (Z.max (value - 1) 0).

Definition _get_cell_under_mouse : M Renderer (option nat) :=
  gets (fun r =>
    let '(x, y) := current_mouse_pos r in
    if (ram_grid_anchor_left r <? x)%nat && (ram_grid_anchor_top r <? y)%nat
    then
      let col := ((x - ram_grid_anchor_left r)
                  / (scaled_cell_width r + 10))%nat in
      let row := ((y - ram_grid_anchor_top r)
                  / (scaled_cell_height r + 10))%nat in
      if (col <? RAM_N_COLS r)%nat && (row <? amount_ram_cells r)%nat
      then Some (row * RAM_N_COLS r + col)%nat
      else None
    else None).

Definition _unselect_active_cell : M Renderer unit :=
  modify (set_active_cell_idx None) ;;
  modify (set_current_active_cell_input EmptyString).

(** [frame[y, x]]. *)
Definition getpixel {S} (frame : list (list pixel)) (y x : nat)
  : M S pixel :=
  row <- getitem frame y ;;
  getitem row x.

(** The body of the loop over the cells in [find_causative_ram]. *)
Definition probe_cell (ram : list Z) (x y : nat) (original_pixel : pixel)
  (i : nat) : M Renderer unit :=
  modify (set_active_cell_idx (Some i)) ;;
  for_break [0] (fun altered_value =>
    modify (set_current_active_cell_input (str altered_value)) ;;
    ale (ale_setRAM i altered_value) ;;
    ale (env_step 0) ;;
    new_frame <- ale ale_getScreenRGB ;;
    _render ;;
    new_pixel <- getpixel new_frame y x ;;
    _set_ram ram ;;
    if np_any_ne new_pixel original_pixel then
      modify (fun r =>
        set_candidate_cell_ids (candidate_cell_ids r ++ [i]) r) ;;
      ret Break
    else ret Continue).

Definition find_causative_ram (x y : nat) : M Renderer unit :=
  ram <- ale ale_getRAM ;;
  ale (env_step 0) ;;
  frame <- ale ale_getScreenRGB ;;
  original_pixel <- getpixel frame y x ;;
  _set_ram ram ;;
  modify (set_candidate_cell_ids []) ;;
  for_ (range (length ram)) (probe_cell ram x y original_pixel) ;;
  _unselect_active_cell ;;
  _render.

(** [[x for x in self.keys2actions.keys() if key in x]] is not empty. *)
Definition is_action_key (r : Renderer) (key : Z) : bool :=
  existsb (fun '(ks, _) => bool_decide (key ∈ ks)) (keys2actions r).

(** [l.remove(a)]: drops the first occurrence. *)
Fixpoint list_remove_first {A} `{EqDecision A} (a : A) (l : list A)
  : list A :=
  match l with
  | [] => []
  | b :: l' => if decide (b = a) then l' else b :: list_remove_first a l'
  end.

(** The [if]/[elif] chain of a KEYDOWN event that starts at the 'R'
    key; [r] is the Renderer as the chain finds it. *)
Definition key_chain (key : Z) : M Renderer unit :=
  r <- gets id ;;
  if key =? K_r keys then ale env_reset
  else if (key =? K_ESCAPE keys) && bool_decide (is_Some (active_cell_idx r))
  then _unselect_active_cell
  else if is_action_key r key then
    modify (fun r =>
      set_current_keys_down ({[ key ]} ∪ current_keys_down r) r)
  else if (K_0 keys <=? key) && (key <=? K_9 keys) then
    let char := str (key - K_0 keys) in
    when (bool_decide (is_Some (active_cell_idx r)))
      (modify (fun r => set_current_active_cell_input
                          (current_active_cell_input r +:+ char) r))
  else if (K_KP1 keys <=? key) && (key <=? K_KP0 keys) then
    let char := str ((key - K_KP1 keys + 1) mod 10) in
    when (bool_decide (is_Some (active_cell_idx r)))
      (modify (fun r => set_current_active_cell_input
                          (current_active_cell_input r +:+ char) r))
  else if key =? K_BACKSPACE keys then
    when (bool_decide (is_Some (active_cell_idx r)))
      (modify (fun r => set_current_active_cell_input
                          (drop_last (current_active_cell_input r)) r))
  else if (key =? K_RETURN keys) || (key =? K_KP_ENTER keys) then
    match active_cell_idx r with
    | Some idx =>
        when (0 <? String.length (current_active_cell_input r))%nat (
          new_cell_value <- int (current_active_cell_input r) ;;
          when (new_cell_value <? 256)
            (_set_ram_value_at idx new_cell_value)) ;;
        _unselect_active_cell
    | None => ret tt
    end
  else ret tt.

(** The body of the event loop of [_handle_user_input]. *)
Definition handle_event (ev : event) : M Renderer unit :=
  match ev with
  | QUIT => modify (set_running false)
  | MOUSEBUTTONDOWN button =>
      if button =? 1 then
        pos <- gets current_mouse_pos ;;
        let x := (pos.1 / UPSCALE_FACTOR)%nat in
        let y := (pos.2 / UPSCALE_FACTOR)%nat in
        if (x <? 160)%nat then find_causative_ram x y
        else
          c <- _get_cell_under_mouse ;;
          modify (set_active_cell_idx c) ;;
          modify (set_current_active_cell_input EmptyString)
      else if button =? 3 then
        to_hide <- _get_cell_under_mouse ;;
        modify (fun r =>
          if bool_decide (to_hide ∈ no_render r)
          then set_no_render (list_remove_first to_hide (no_render r)) r
          else set_no_render (no_render r ++ [to_hide]) r)
      else if button =? 4 then
        cell_idx <- _get_cell_under_mouse ;;
        match cell_idx with
        | Some idx => _increment_ram_value_at idx
        | None => ret tt
        end
      else if button =? 5 then
        cell_idx <- _get_cell_under_mouse ;;
        match cell_idx with
        | Some idx => _decrement_ram_value_at idx
        | None => ret tt
        end
      else ret tt
  | KEYDOWN key =>
      when (key =? K_F11 keys) toggle_fullscreen ;;
      when (key =? K_p keys)
        (modify (fun r => set_paused (negb (paused r)) r)) ;;
      (* 'S' pickles the emulator state to a file when paused *)
      when (key =? K_s keys) (ret tt) ;;
      key_chain key
  | KEYUP key =>
      r <- gets id ;;
      when (is_action_key r key) (
        if bool_decide (key ∈ current_keys_down r) then
          modify (set_current_keys_down (current_keys_down r ∖ {[ key ]}))
        else raise KeyError)
  | OTHER => ret tt
  end.

(** [_handle_user_input], given what pygame reports: the mouse
    position and the pending events. *)
Definition _handle_user_input (mouse : nat * nat) (events : list event)
  : M Renderer unit :=
  modify (set_current_mouse_pos mouse) ;;
  for_ events handle_event.

(** *** What the scan does, step by step *)

(** The emulator after [_set_ram ram]. *)
Definition restore (ram : list Z) (e : Env) : Env :=
  foldl (fun e '(k, value) => setRAM k value e) e (enumerate ram).

(** The calls [_set_ram ram] makes. *)
Definition restore_calls (ram : list Z) : list Call :=
  map (fun '(k, value) => CSetRAM k value) (enumerate ram).

(** The emulator when the scan of [find_causative_ram], started on
    [e0] with snapshot [ram], reaches index [i]: the reference step and
    the probes of the earlier indices are behind it, each followed by
    a restore of the snapshot. *)
Fixpoint round_start (ram : list Z) (e0 : Env) (i : nat) : Env :=
  match i with
  | O => restore ram (step 0 e0)
  | S j => restore ram (step 0 (setRAM j 0 (round_start ram e0 j)))
  end.

(** [frame[y, x]], when inside the frame. *)
Definition pixel_at (frame : list (list pixel)) (y x : nat)
  : option pixel :=
  match frame !! y with
  | Some row => row !! x
  | None => None
  end.

(** The pixel coordinate lies inside every frame the emulator
    renders. *)
Definition inside_frame (x y : nat) : Prop :=
  forall e, is_Some (pixel_at (getScreenRGB e) y x).

(** The pixel the scan compares at index [i], and whether it differs
    from the reference pixel. *)
Definition probe_pixel (ram : list Z) (e0 : Env) (x y i : nat)
  : option pixel :=
  pixel_at (getScreenRGB (step 0 (setRAM i 0 (round_start ram e0 i)))) y x.

Definition reference_pixel (e0 : Env) (x y : nat) : option pixel :=
  pixel_at (getScreenRGB (step 0 e0)) y x.

Definition causative (ram : list Z) (e0 : Env) (x y i : nat) : bool :=
  match probe_pixel ram e0 x y i, reference_pixel e0 x y with
  | Some p, Some p0 => np_any_ne p p0
  | _, _ => false
  end.

(** The calls of a whole scan over [n] cells. *)
Definition scan_calls (ram : list Z) (n : nat) : list Call :=
  CStep 0 :: restore_calls ram ++
  flat_map (fun i => CSetRAM i 0 :: CStep 0 :: restore_calls ram)
           (seq 0 n).

(** *** What the patchers do to one cell *)

(** The value cell 75 holds after [alter_shark], from the mode and the
    value before. *)
Definition shark_next (mode v : Z) : Z :=
  if mode =? 1 then 105
  else if mode =? 2 then 25
  else if mode =? 3 then
    if v =? 100 then 25 else if v =? 30 then 105 else v
  else if mode =? 4 then
    if v <? 120 then v + 5 else if v >? 120 then 1 else v
  else v.

(** The value a fish cell holds after [alter_fish]. *)
Definition fish_next (mode v : Z) : Z :=
  if mode =? 1 then (if v >? 86 then 44 else v)
  else if mode =? 2 then (if v <? 70 then 116 else v)
  else if mode =? 3 then
    if v <? 70 then 86 else if v >? 86 then 70 else v
  else v.

(** The RAM after [alter_fish]: the six fish cells, in turn. *)
Definition fish_ram (mode : Z) (l : list Z) : list Z :=
  foldl (fun l i => alter (fish_next mode) (69 + i)%nat l) l (range 6).

(** *** rem_gui.py: the grid, the action and the main loop *)

(** [_get_ram_cell_rect]: the rectangle [(x, y, w, h)] of a cell of the
    grid.  [RAM_N_COLS] is at least 1 ([_init_pygame] takes a [max]
    with 1), so the divisions are those of [nat]. *)
Definition _get_ram_cell_rect (idx : nat) : M Renderer (nat * nat * nat * nat) :=
  gets (fun r =>
    let row := (idx / RAM_N_COLS r)%nat in
    let col := (idx mod RAM_N_COLS r)%nat in
    let x := (ram_grid_anchor_left r + col * (scaled_cell_width r + 10))%nat in
    let y := (ram_grid_anchor_top r + row * (scaled_cell_height r + 10))%nat in
    let w := scaled_cell_width r in
    let h := scaled_cell_height r in
    (x, y, w, h)).

(** [d[k]] on the dictionary [keys2actions], [None] when [k] is not a
    key. *)
Fixpoint dict_get (d : list (list Z * Z)) (k : list Z) : option Z :=
  match d with
  | [] => None
  | (k', a) :: d' => if decide (k' = k) then Some a else dict_get d' k
  end.

(** [_get_action]: the action bound to the sorted tuple of the keys
    that are down, NOOP when the tuple is not bound. *)
Definition _get_action : M Renderer Z :=
  gets (fun r =>
    let pressed_keys := merge_sort Z.le (elements (current_keys_down r)) in
    match dict_get (keys2actions r) pressed_keys with
    | Some action => action
    | None => 0
    end).

(** One round of the [while] loop of [run], given what pygame reports
    in that round.  The frame kept for drawing is not modelled. *)
Definition run_frame (input : (nat * nat) * list event) : M Renderer unit :=
  _handle_user_input input.1 input.2 ;;
  paused_ <- gets paused ;;
  when (negb paused_) (
    action <- _get_action ;;
    ale (env_step action)) ;;
  _render.

(** The [while self.running] loop over the rounds pygame provides. *)
Fixpoint run_loop (inputs : list ((nat * nat) * list event))
  : M Renderer unit :=
  match inputs with
  | [] => ret tt
  | input :: inputs' =>
      running_ <- gets running ;;
      if running_ then run_frame input ;; run_loop inputs' else ret tt
  end.

Definition run (inputs : list ((nat * nat) * list event)) : M Renderer unit :=
  modify (set_running true) ;;
  run_loop inputs.

(** *** Predicates of the added statements *)

(** A string of decimal digits. *)
Definition digits_only (s : string) : Prop :=
  Forall (fun c => is_Some (digit_of_ascii c)) (list_ascii_of_string s).

(** Run from a Renderer with [Pre], [m] ends in one with [I], raising
    or not; an exception it raises satisfies [E], and a value it returns
    satisfies [P] with the Renderer it leaves. *)
Definition hoare {A} (Pre : Renderer -> Prop) (m : M Renderer A)
  (I : Renderer -> Prop) (E : exn -> Prop) (P : A -> Renderer -> Prop)
  : Prop :=
  forall r, Pre r ->
    I (m r).2 /\
    (forall x, (m r).1 = inl x -> E x) /\
    (forall a, (m r).1 = inr a -> P a (m r).2).

(** The exceptions the event handler can raise: an index outside the
    RAM, the grid or the frame, and a key released that was not down. *)
Definition handler_exn (x : exn) : Prop :=
  x = IndexError \/ x = KeyError \/ x = InvalidMemoryIndex.

(** A key the chain of KEYDOWN leaves to the branches after the
    action keys: not 'R', not ESCAPE, not bound to an action. *)
Definition plain_key (r : Renderer) (key : Z) : Prop :=
  key <> K_r keys /\ key <> K_ESCAPE keys /\ is_action_key r key = false.



(** The number of steps among the calls. *)
Definition count_steps (cs : list Call) : nat :=
  length (List.filter (fun c => match c with CStep _ => true | _ => false end) cs).

(** *** Predicates of the statements *)

(** A write [_set_ram] may issue on a RAM of [n] cells. *)
Definition valid_write (n : nat) (kv : nat * Z) : Prop :=
  (kv.1 < n)%nat /\ is_byte kv.2.

(** [post m s Q]: the outcome and the final state of [m] run on [s]
    satisfy [Q], whether [m] returns or raises. *)
Definition post {S A} (m : M S A) (s : S) (Q : exn + A -> S -> Prop)
  : Prop :=
  Q (m s).1 (m s).2.

(** The candidates so far are increasing and below [k]. *)
Definition scanned (k : nat) (r : Renderer) : Prop :=
  StronglySorted lt (candidate_cell_ids r) /\
  Forall (fun i => (i < k)%nat) (candidate_cell_ids r).

(** From [r] to [r'] calls were only added, each write with a value
    within a byte. *)
Definition calls_extend (r r' : Renderer) : Prop :=
  exists d, calls (env r') = calls (env r) ++ d /\ Forall byte_call d.

(** [m] only adds such calls, raising or not, and a value it returns
    satisfies [P]. *)
Definition safeP {A} (P : A -> Prop) (m : M Renderer A) : Prop :=
  forall r, calls_extend r (m r).2 /\ forall a, (m r).1 = inr a -> P a.

Abbreviation safe := (safeP (fun _ => True)).

(** The key is RETURN or keypad ENTER and no earlier branch of
    [key_chain] takes it. *)
Definition commits_input (r : Renderer) (key : Z) : Prop :=
  (key = K_RETURN keys \/ key = K_KP_ENTER keys) /\
  key <> K_r keys /\ key <> K_ESCAPE keys /\
  is_action_key r key = false /\
  ~ (K_0 keys <= key <= K_9 keys) /\
  ~ (K_KP1 keys <= key <= K_KP0 keys) /\
  key <> K_BACKSPACE keys.

(** The Renderer after the three [if]s on F11, 'P' and 'S' that open
    the KEYDOWN branch. *)
Definition keydown_prelude (key : Z) (r : Renderer) : Renderer :=
  let r1 :=
    if key =? K_F11 keys then
      set_layout (pygame_layout (negb (fullscreen r)) (amount_ram_cells r))
                 (set_fullscreen (negb (fullscreen r)) r)
    else r in
  if key =? K_p keys then set_paused (negb (paused r1)) r1 else r1.

(** *** The contract of the emulator *)

(** RAM cells hold bytes, a valid write changes exactly the addressed
    cell, and a step keeps the RAM size. *)
Hypothesis getRAM_byte : forall e, Forall is_byte (getRAM e).
Hypothesis getRAM_setRAM : forall e i v,
  (i < length (getRAM e))%nat -> is_byte v ->
  getRAM (setRAM i v e) = <[i := v]> (getRAM e).
Hypothesis step_length : forall a e,
  length (getRAM (step a e)) = length (getRAM e).

(** *** Running the monad *)

Ltac side_tac := first [assumption | unfold is_byte in *; lia].

(** Unfold the monad operations and run the steps that are known. *)
Ltac mstep :=
  cbv beta iota zeta delta
    [bind ret gets raise when modify get_ram getitem].

(** Evaluate comparisons of integer literals, and nothing else. *)
Ltac zred :=
  cbn [Z.eqb Z.ltb Z.gtb Z.leb Z.compare Pos.eqb Pos.compare
       Pos.compare_cont].

Lemma bind_ok {S A B} (m : M S A) (k : A -> M S B) s a s' :
  m s = (inr a, s') -> bind m k s = k a s'.
Proof. intros H. unfold bind. now rewrite H. Qed.

Lemma bind_raise {S A B} (m : M S A) (k : A -> M S B) s x s' :
  m s = (inl x, s') -> bind m k s = (inl x, s').
Proof. intros H. unfold bind. now rewrite H. Qed.

Lemma getitem_ok {S A} (l : list A) i a (s : S) :
  l !! i = Some a -> getitem l i s = (inr a, s).
Proof. intros H. unfold getitem. now rewrite H. Qed.

Lemma cell_byte e i v : getRAM e !! i = Some v -> is_byte v.
Proof.
  intros H. pose proof (getRAM_byte e) as Hb.
  rewrite Forall_lookup in Hb. eauto.
Qed.

Lemma set_ram_ok i v e :
  (i < length (getRAM e))%nat -> is_byte v ->
  set_ram i v e = (inr tt, setRAM i v e).
Proof.
  intros Hi Hv. unfold set_ram, ALE_setRAM.
  destruct (decide (is_byte v)); [|done].
  destruct (decide (i < length (getRAM e))%nat); [done|lia].
Qed.

(** *** The shark patcher *)

Lemma shark_next_byte mode v : is_byte v -> is_byte (shark_next mode v).
Proof.
  unfold is_byte, shark_next. intros Hv.
  repeat case_match; lia.
Qed.

(** [alter_shark] returns, and rewrites cell 75 by [shark_next]. *)
Lemma alter_shark_run g e v :
  getRAM e !! 75%nat = Some v ->
  exists e', alter_shark g e = (inr tt, e') /\
             getRAM e' = <[75%nat := shark_next (SHARK_MODE g) v]> (getRAM e).
Proof.
  intros Hv.
  assert (Hlen : (75 < length (getRAM e))%nat) by (eapply lookup_lt_Some; eauto).
  pose proof (cell_byte _ _ _ Hv) as Hb. unfold is_byte in Hb.
  assert (Hid : getRAM e = <[75%nat := v]> (getRAM e))
    by (symmetry; now apply list_insert_id).
  unfold alter_shark, shark_next, when, get_ram, gets.
  destruct (0 <? SHARK_MODE g) eqn:Hpos.
  2:{ exists e. split; [done|].
      repeat case_match; try lia; done. }
  destruct (SHARK_MODE g =? 1) eqn:H1.
  { assert (SHARK_MODE g = 1) as Hm by lia. rewrite Hm. simpl.
    erewrite bind_ok by (apply set_ram_ok; [done | unfold is_byte; lia]).
    eexists. split; [reflexivity|].
    apply getRAM_setRAM; [done | unfold is_byte; lia]. }
  destruct (SHARK_MODE g =? 2) eqn:H2.
  { assert (SHARK_MODE g = 2) as Hm by lia. rewrite Hm. simpl.
    unfold bind at 1. unfold ret at 1.
    erewrite bind_ok by (apply set_ram_ok; [done | unfold is_byte; lia]).
    eexists. split; [reflexivity|].
    apply getRAM_setRAM; [done | unfold is_byte; lia]. }
  destruct (SHARK_MODE g =? 3) eqn:H3.
  { assert (SHARK_MODE g = 3) as Hm by lia. rewrite Hm. simpl.
    unfold bind, ret, getitem. rewrite Hv. simpl.
    destruct (v =? 100) eqn:E100.
    - rewrite set_ram_ok by side_tac.
      assert ((v =? 30) = false) as -> by lia.
      eexists. split; [reflexivity|].
      apply getRAM_setRAM; [done | unfold is_byte; lia].
    - destruct (v =? 30) eqn:E30.
      + rewrite set_ram_ok by side_tac.
        eexists. split; [reflexivity|].
        apply getRAM_setRAM; [done | unfold is_byte; lia].
      + exists e. done. }
  destruct (SHARK_MODE g =? 4) eqn:H4.
  { simpl.
    unfold bind, ret, getitem. rewrite Hv. simpl.
    destruct (v <? 120) eqn:Elt.
    - rewrite set_ram_ok by side_tac.
      assert ((v >? 120) = false) as -> by lia.
      eexists. split; [reflexivity|].
      apply getRAM_setRAM; [done | unfold is_byte; lia].
    - destruct (v >? 120) eqn:Egt.
      + rewrite set_ram_ok by side_tac.
        eexists. split; [reflexivity|].
        apply getRAM_setRAM; [done | unfold is_byte; lia].
      + exists e. done. }
  exists e. done.
Qed.

Lemma shark_next_idem mode v :
  mode <> 4 -> shark_next mode (shark_next mode v) = shark_next mode v.
Proof. unfold shark_next. intros Hm. repeat case_match; lia. Qed.

(** *** The fish patcher *)

Lemma fish_next_byte mode v : is_byte v -> is_byte (fish_next mode v).
Proof. unfold is_byte, fish_next. intros Hv. repeat case_match; lia. Qed.

Lemma fish_next_idem mode v :
  fish_next mode (fish_next mode v) = fish_next mode v.
Proof. unfold fish_next. repeat case_match; lia. Qed.

Lemma fish_next_inactive mode v :
  mode <> 1 -> mode <> 2 -> mode <> 3 -> fish_next mode v = v.
Proof. unfold fish_next. intros. repeat case_match; lia. Qed.

Lemma insert_as_alter (f : Z -> Z) (l : list Z) i v :
  l !! i = Some v -> <[i := f v]> l = alter f i l.
Proof.
  intros Hv. apply list_eq. intros j.
  destruct (decide (i = j)) as [->|Hne].
  - rewrite list_lookup_alter_eq, Hv.
    apply list_lookup_insert_eq. eapply lookup_lt_Some; eauto.
  - now rewrite list_lookup_insert_ne, list_lookup_alter_ne.
Qed.

(** A loop whose body rewrites cell [69 + i] by [f] rewrites the cells
    of the loop in turn. *)
Lemma for_alter (f : Z -> Z) (body : nat -> M Env unit) :
  (forall i e, (69 + i < length (getRAM e))%nat ->
     exists e', body i e = (inr tt, e') /\
                getRAM e' = alter f (69 + i)%nat (getRAM e)) ->
  forall l e,
    Forall (fun i => (69 + i < length (getRAM e))%nat) l ->
    exists e', for_ l body e = (inr tt, e') /\
      getRAM e' = foldl (fun r i => alter f (69 + i)%nat r) (getRAM e) l.
Proof.
  intros Hbody l. induction l as [|i l IH]; intros e Hl.
  - exists e. done.
  - apply Forall_cons in Hl as [Hi Hl].
    destruct (Hbody i e Hi) as (e1 & Hrun & Hram).
    destruct (IH e1) as (e2 & Hrun2 & Hram2).
    { rewrite Hram, length_alter. exact Hl. }
    exists e2. split.
    + simpl. erewrite bind_ok by exact Hrun. exact Hrun2.
    + rewrite Hram2, Hram. reflexivity.
Qed.

Lemma fish_body1 i e :
  (69 + i < length (getRAM e))%nat ->
  exists e',
    (ram <- get_ram ;;
     v <- getitem ram (69 + i) ;;
     when (v >? 86) (set_ram (69 + i) 44)) e = (inr tt, e') /\
    getRAM e' = alter (fish_next 1) (69 + i)%nat (getRAM e).
Proof.
  intros Hi. destruct (lookup_lt_is_Some_2 _ _ Hi) as [v Hv].
  pose proof (cell_byte _ _ _ Hv) as Hb.
  unfold get_ram, gets, bind, getitem, when, ret. rewrite Hv.
  rewrite <- (insert_as_alter _ _ _ _ Hv). unfold fish_next.
  zred.
  destruct (v >? 86).
  - rewrite set_ram_ok by side_tac. eexists. split; [reflexivity|].
    apply getRAM_setRAM; side_tac.
  - exists e. split; [done|]. symmetry. now apply list_insert_id.
Qed.

Lemma fish_body2 i e :
  (69 + i < length (getRAM e))%nat ->
  exists e',
    (ram <- get_ram ;;
     v <- getitem ram (69 + i) ;;
     when (v <? 70) (set_ram (69 + i) 116)) e = (inr tt, e') /\
    getRAM e' = alter (fish_next 2) (69 + i)%nat (getRAM e).
Proof.
  intros Hi. destruct (lookup_lt_is_Some_2 _ _ Hi) as [v Hv].
  pose proof (cell_byte _ _ _ Hv) as Hb.
  unfold get_ram, gets, bind, getitem, when, ret. rewrite Hv.
  rewrite <- (insert_as_alter _ _ _ _ Hv). unfold fish_next.
  zred.
  destruct (v <? 70).
  - rewrite set_ram_ok by side_tac. eexists. split; [reflexivity|].
    apply getRAM_setRAM; side_tac.
  - exists e. split; [done|]. symmetry. now apply list_insert_id.
Qed.

Lemma fish_body3 i e :
  (69 + i < length (getRAM e))%nat ->
  exists e',
    (ram <- get_ram ;;
     v <- getitem ram (69 + i) ;;
     when (v <? 70) (set_ram (69 + i) 86) ;;
     ram <- get_ram ;;
     v <- getitem ram (69 + i) ;;
     when (v >? 86) (set_ram (69 + i) 70)) e = (inr tt, e') /\
    getRAM e' = alter (fish_next 3) (69 + i)%nat (getRAM e).
Proof.
  intros Hi. destruct (lookup_lt_is_Some_2 _ _ Hi) as [v Hv].
  pose proof (cell_byte _ _ _ Hv) as Hb.
  unfold get_ram, gets, bind, getitem, when, ret. rewrite Hv.
  rewrite <- (insert_as_alter _ _ _ _ Hv). unfold fish_next.
  zred.
  destruct (v <? 70) eqn:Hlt.
  - rewrite set_ram_ok by side_tac.
    rewrite getRAM_setRAM by side_tac.
    rewrite list_lookup_insert_eq by exact Hi. zred.
    eexists. split; [reflexivity|]. apply getRAM_setRAM; side_tac.
  - rewrite Hv. destruct (v >? 86).
    + rewrite set_ram_ok by side_tac. eexists. split; [reflexivity|].
      apply getRAM_setRAM; side_tac.
    + exists e. split; [done|]. symmetry. now apply list_insert_id.
Qed.

Lemma fish_ram_inactive mode l :
  mode <> 1 -> mode <> 2 -> mode <> 3 -> fish_ram mode l = l.
Proof.
  intros H1 H2 H3. unfold fish_ram, range. simpl.
  rewrite !list_alter_id; auto using fish_next_inactive.
Qed.

(** [alter_fish] returns, and rewrites the RAM by [fish_ram]. *)
Lemma alter_fish_run g e :
  (74 < length (getRAM e))%nat ->
  exists e', alter_fish g e = (inr tt, e') /\
             getRAM e' = fish_ram (FISH_MODE g) (getRAM e).
Proof.
  intros Hlen.
  assert (Hall : Forall (fun i => (69 + i < length (getRAM e))%nat) (range 6)).
  { unfold range. simpl. repeat constructor; lia. }
  unfold alter_fish, when.
  destruct (0 <? FISH_MODE g) eqn:Hpos.
  2:{ exists e. split; [done|].
      symmetry. apply fish_ram_inactive; lia. }
  destruct (FISH_MODE g =? 1) eqn:H1.
  { assert (FISH_MODE g = 1) as Hm by lia. rewrite Hm. simpl.
    destruct (for_alter _ _ fish_body1 _ _ Hall) as (e' & Hrun & Hram).
    exists e'. split; [|exact Hram].
    erewrite bind_ok by exact Hrun. reflexivity. }
  destruct (FISH_MODE g =? 2) eqn:H2.
  { assert (FISH_MODE g = 2) as Hm by lia. rewrite Hm. simpl.
    destruct (for_alter _ _ fish_body2 _ _ Hall) as (e' & Hrun & Hram).
    exists e'. split; [|exact Hram].
    unfold bind at 1, ret at 1.
    erewrite bind_ok by exact Hrun. reflexivity. }
  destruct (FISH_MODE g =? 3) eqn:H3.
  { assert (FISH_MODE g = 3) as Hm by lia. rewrite Hm. simpl.
    destruct (for_alter _ _ fish_body3 _ _ Hall) as (e' & Hrun & Hram).
    exists e'. split; [|exact Hram].
    unfold bind at 1, ret at 1. unfold bind at 1, ret at 1. exact Hrun. }
  exists e. split; [done|]. symmetry. apply fish_ram_inactive; lia.
Qed.

(** The cells of [fish_ram]: the six fish cells by [fish_next], the
    others as they were. *)
Lemma fish_ram_lookup mode l j :
  fish_ram mode l !! j =
  if bool_decide (69 <= j <= 74)%nat then fish_next mode <$> l !! j
  else l !! j.
Proof.
  unfold fish_ram, range. simpl.
  rewrite !list_lookup_alter.
  repeat case_decide; case_bool_decide; simplify_eq; try lia; try done.
Qed.

Lemma fish_ram_length mode l : length (fish_ram mode l) = length l.
Proof. unfold fish_ram, range. simpl. now rewrite !length_alter. Qed.

Lemma fish_ram_idem mode l :
  fish_ram mode (fish_ram mode l) = fish_ram mode l.
Proof.
  apply list_eq. intros j. rewrite !fish_ram_lookup.
  case_bool_decide; [|done].
  destruct (l !! j); simpl; [|done]. now rewrite fish_next_idem.
Qed.

(** *** Properties of the patchers *)

(** C4. In the shark ramp mode ([SHARK_MODE = 4]) [alter_shark]
    returns, and for the value [v] of cell 75: below 120 the cell
    becomes [v + 5], which is at most 255; above 120 it becomes 1; so
    115 gives 120 and 121 gives 1. *)
Theorem shark_ramp_mode g e v :
  SHARK_MODE g = 4 ->
  getRAM e !! 75%nat = Some v ->
  exists e', alter_shark g e = (inr tt, e') /\
    (v < 120 -> getRAM e' !! 75%nat = Some (v + 5) /\ v + 5 <= 255) /\
    (v > 120 -> getRAM e' !! 75%nat = Some 1) /\
    (v = 115 -> getRAM e' !! 75%nat = Some 120) /\
    (v = 121 -> getRAM e' !! 75%nat = Some 1).
Proof.
  intros Hm Hv.
  destruct (alter_shark_run g e v Hv) as (e' & Hrun & Hram).
  assert (Hlen : (75 < length (getRAM e))%nat)
    by (eapply lookup_lt_Some; eauto).
  exists e'. split; [exact Hrun|].
  rewrite Hram, Hm, list_lookup_insert_eq by exact Hlen.
  unfold shark_next. zred.
  repeat split; intros; repeat case_match; try lia; f_equal; lia.
Qed.

(** C5. In the shark boundary-bounce mode ([SHARK_MODE = 3])
    [alter_shark] returns, and for the value [v] of cell 75: 100 is
    rewritten to 25, 30 to 105, and with any other value nothing is
    written at all. *)
Theorem shark_bounce_mode g e v :
  SHARK_MODE g = 3 ->
  getRAM e !! 75%nat = Some v ->
  exists e', alter_shark g e = (inr tt, e') /\
    (v = 100 -> getRAM e' !! 75%nat = Some 25) /\
    (v = 30 -> getRAM e' !! 75%nat = Some 105) /\
    (v <> 100 -> v <> 30 -> e' = e).
Proof.
  intros Hm Hv.
  assert (Hlen : (75 < length (getRAM e))%nat)
    by (eapply lookup_lt_Some; eauto).
  unfold alter_shark. rewrite Hm. unfold when. zred.
  mstep. rewrite Hv. mstep.
  destruct (v =? 100) eqn:E100.
  - assert (v = 100) as -> by lia. zred.
    rewrite set_ram_ok by side_tac.
    eexists. split; [reflexivity|].
    rewrite getRAM_setRAM, list_lookup_insert_eq by side_tac.
    repeat split; intros; done.
  - destruct (v =? 30) eqn:E30.
    + assert (v = 30) as -> by lia.
      rewrite set_ram_ok by side_tac.
      eexists. split; [reflexivity|].
      rewrite getRAM_setRAM, list_lookup_insert_eq by side_tac.
      repeat split; intros; done.
    + exists e. split; [reflexivity|].
      repeat split; intros; try lia; done.
Qed.

(** C6. In the fish mode "always in the middle" ([FISH_MODE = 3])
    [alter_fish] returns, and each of the six fish cells 69..74: above
    86 becomes 70, below 70 becomes 86, and within [70, 86] keeps its
    value. *)
Theorem fish_middle_mode g e :
  FISH_MODE g = 3 ->
  (74 < length (getRAM e))%nat ->
  exists e', alter_fish g e = (inr tt, e') /\
    forall j v, (69 <= j <= 74)%nat -> getRAM e !! j = Some v ->
      (86 < v -> getRAM e' !! j = Some 70) /\
      (v < 70 -> getRAM e' !! j = Some 86) /\
      (70 <= v <= 86 -> getRAM e' !! j = Some v).
Proof.
  intros Hm Hlen.
  destruct (alter_fish_run g e Hlen) as (e' & Hrun & Hram).
  exists e'. split; [exact Hrun|].
  intros j v Hj Hv. rewrite Hram, Hm, fish_ram_lookup, Hv.
  rewrite bool_decide_eq_true_2 by exact Hj.
  unfold fish_next. zred. simpl.
  repeat split; intros; repeat case_match; try lia; done.
Qed.

(** C7. The two patchers commute on the RAM and each writes only the
    cells of its entity class: both orders return with the same RAM,
    [alter_shark] leaves every cell but 75 as it was and [alter_fish]
    every cell outside 69..74. *)
Theorem patchers_commute g e :
  (75 < length (getRAM e))%nat ->
  exists e_sf e_fs e_s e_f,
    (alter_shark g ;; alter_fish g) e = (inr tt, e_sf) /\
    (alter_fish g ;; alter_shark g) e = (inr tt, e_fs) /\
    getRAM e_sf = getRAM e_fs /\
    alter_shark g e = (inr tt, e_s) /\
    (forall j, j <> 75%nat -> getRAM e_s !! j = getRAM e !! j) /\
    alter_fish g e = (inr tt, e_f) /\
    (forall j, ~ (69 <= j <= 74)%nat -> getRAM e_f !! j = getRAM e !! j).
Proof.
  intros Hlen.
  destruct (lookup_lt_is_Some_2 _ _ Hlen) as [v Hv].
  destruct (alter_shark_run g e v Hv) as (e_s & Hs & Hrs).
  destruct (alter_fish_run g e) as (e_f & Hf & Hrf); [lia|].
  destruct (alter_fish_run g e_s) as (e_sf & Hsf & Hrsf).
  { rewrite Hrs, length_insert. lia. }
  assert (Hv' : getRAM e_f !! 75%nat = Some v).
  { rewrite Hrf, fish_ram_lookup.
    rewrite bool_decide_eq_false_2 by lia. exact Hv. }
  destruct (alter_shark_run g e_f v Hv') as (e_fs & Hfs & Hrfs).
  exists e_sf, e_fs, e_s, e_f.
  split; [erewrite bind_ok by exact Hs; exact Hsf|].
  split; [erewrite bind_ok by exact Hf; exact Hfs|].
  split.
  { rewrite Hrsf, Hrfs, Hrs, Hrf. apply list_eq. intros j.
    rewrite fish_ram_lookup.
    destruct (decide (j = 75%nat)) as [->|Hne].
    - rewrite bool_decide_eq_false_2 by lia.
      rewrite !list_lookup_insert_eq; [done| |done].
      rewrite fish_ram_length. exact Hlen.
    - rewrite !list_lookup_insert_ne by done.
      now rewrite fish_ram_lookup. }
  split; [exact Hs|]. split.
  { intros j Hj. rewrite Hrs. now apply list_lookup_insert_ne. }
  split; [exact Hf|].
  intros j Hj. rewrite Hrf, fish_ram_lookup.
  now rewrite bool_decide_eq_false_2.
Qed.

(** C3, amended. Applying a patcher twice in a row gives the RAM one
    application gives, for [alter_fish] in every mode and for
    [alter_shark] in every mode but the ramp mode; in the ramp mode
    ([SHARK_MODE = 4]) the second application moves cell 75 again
    unless its value was 115 or 120. *)
Theorem patchers_idempotent_but_ramp g e v :
  getRAM e !! 75%nat = Some v ->
  exists f1 f2 s1 s2,
    alter_fish g e = (inr tt, f1) /\ alter_fish g f1 = (inr tt, f2) /\
    getRAM f2 = getRAM f1 /\
    alter_shark g e = (inr tt, s1) /\ alter_shark g s1 = (inr tt, s2) /\
    (SHARK_MODE g <> 4 -> getRAM s2 = getRAM s1) /\
    (SHARK_MODE g = 4 -> (getRAM s2 = getRAM s1 <-> v = 115 \/ v = 120)).
Proof.
  intros Hv.
  assert (Hlen : (75 < length (getRAM e))%nat)
    by (eapply lookup_lt_Some; eauto).
  destruct (alter_fish_run g e) as (f1 & Hf1 & Hr1); [lia|].
  destruct (alter_fish_run g f1) as (f2 & Hf2 & Hr2).
  { rewrite Hr1, fish_ram_length. lia. }
  destruct (alter_shark_run g e v Hv) as (s1 & Hs1 & Hq1).
  assert (Hv1 : getRAM s1 !! 75%nat = Some (shark_next (SHARK_MODE g) v)).
  { rewrite Hq1. now apply list_lookup_insert_eq. }
  destruct (alter_shark_run g s1 _ Hv1) as (s2 & Hs2 & Hq2).
  exists f1, f2, s1, s2.
  split; [exact Hf1|]. split; [exact Hf2|].
  split; [rewrite Hr2, Hr1; apply fish_ram_idem|].
  split; [exact Hs1|]. split; [exact Hs2|].
  rewrite Hq2, Hq1, list_insert_insert_eq. split.
  - intros Hm. now rewrite shark_next_idem.
  - intros Hm. rewrite Hm. split.
    + intros Heq.
      assert (Hc : <[75%nat := shark_next 4 (shark_next 4 v)]> (getRAM e)
                     !! 75%nat
                   = <[75%nat := shark_next 4 v]> (getRAM e) !! 75%nat)
        by now rewrite Heq.
      rewrite !list_lookup_insert_eq in Hc by exact Hlen.
      pose proof (cell_byte _ _ _ Hv) as Hb.
      injection Hc as Hc. revert Hc. unfold shark_next, is_byte in *.
      zred. repeat case_match; intros; lia.
    + intros Hr. f_equal. unfold shark_next. zred.
      repeat case_match; lia.
Qed.

(** *** The emulator calls of the Renderer *)

Lemma ale_getRAM_run r :
  ale ale_getRAM r = (inr (getRAM (emu (env r))), r).
Proof. reflexivity. Qed.

Lemma ale_getScreenRGB_run r :
  ale ale_getScreenRGB r = (inr (getScreenRGB (emu (env r))), r).
Proof. reflexivity. Qed.

Lemma env_step_run a r :
  ale (env_step a) r =
  (inr tt, set_env {| emu := step a (emu (env r));
                      calls := calls (env r) ++ [CStep a] |} r).
Proof. reflexivity. Qed.

Lemma ale_setRAM_run i v r :
  (i < length (getRAM (emu (env r))))%nat -> is_byte v ->
  ale (ale_setRAM i v) r =
  (inr tt, set_env {| emu := setRAM i v (emu (env r));
                      calls := calls (env r) ++ [CSetRAM i v] |} r).
Proof.
  intros Hi Hv.
  unfold ale, zoom, ale_setRAM, on_emu, zoom, log, bind, modify, ALE_setRAM.
  cbn.
  destruct (decide (is_byte v)); [|done].
  destruct (decide (i < length (getRAM (emu (env r))))%nat); [done|lia].
Qed.

Lemma getpixel_run {S} frame y x (s : S) :
  getpixel frame y x s =
  match pixel_at frame y x with
  | Some p => (inr p, s)
  | None => (inl IndexError, s)
  end.
Proof.
  unfold getpixel, pixel_at, bind, getitem.
  destruct (frame !! y) as [row|]; [|done].
  cbn. destruct (row !! x); done.
Qed.

(** *** Restoring the snapshot *)

Lemma setRAM_length e i v :
  (i < length (getRAM e))%nat -> is_byte v ->
  length (getRAM (setRAM i v e)) = length (getRAM e).
Proof. intros Hi Hv. now rewrite getRAM_setRAM, length_insert. Qed.

Lemma write_loop_run vals : forall r,
  Forall (valid_write (length (getRAM (emu (env r))))) vals ->
  for_ vals (fun '(k, value) => ale (ale_setRAM k value)) r =
  (inr tt,
   set_env {| emu := foldl (fun e '(k, value) => setRAM k value e)
                           (emu (env r)) vals;
              calls := calls (env r)
                       ++ map (fun '(k, value) => CSetRAM k value) vals |}
           r).
Proof.
  induction vals as [|[k v] vals IH]; intros r Hall.
  - cbn. now rewrite app_nil_r.
  - apply Forall_cons in Hall as [[Hk Hv] Hall]. cbn in Hk, Hv.
    cbn [for_]. erewrite bind_ok by (now apply ale_setRAM_run).
    rewrite IH.
    + cbn. now rewrite <- app_assoc.
    + cbn. now rewrite setRAM_length.
Qed.

Lemma enumerate_valid (ram : list Z) n :
  n = length ram -> Forall is_byte ram ->
  Forall (valid_write n) (enumerate ram).
Proof.
  intros -> Hb. unfold enumerate. apply Forall_forall.
  intros [k v] Hin. apply elem_of_zip_with in Hin
    as (k' & v' & Heq & Hk & Hv). simplify_eq.
  split; cbn.
  - apply elem_of_seq in Hk. lia.
  - rewrite Forall_forall in Hb. auto.
Qed.

Lemma _set_ram_run ram r :
  length (getRAM (emu (env r))) = length ram -> Forall is_byte ram ->
  _set_ram ram r =
  (inr tt, set_env {| emu := restore ram (emu (env r));
                      calls := calls (env r) ++ restore_calls ram |} r).
Proof.
  intros Hlen Hb. unfold _set_ram, restore, restore_calls.
  apply write_loop_run. apply enumerate_valid; done.
Qed.

Lemma restore_from (t : list Z) : forall pre cur e,
  getRAM e = pre ++ cur -> length cur = length t -> Forall is_byte t ->
  getRAM (foldl (fun e '(k, value) => setRAM k value e) e
                (zip (seq (length pre) (length t)) t)) = pre ++ t.
Proof.
  induction t as [|v t IH]; intros pre cur e He Hlen Hb.
  - destruct cur; [|done]. exact He.
  - destruct cur as [|c cur]; [done|].
    apply Forall_cons in Hb as [Hv Hb]. cbn.
    assert (Hset : getRAM (setRAM (length pre) v e) = (pre ++ [v]) ++ cur).
    { rewrite getRAM_setRAM; [| rewrite He, length_app; cbn; lia | done].
      rewrite He. replace (length pre) with (length pre + 0)%nat at 1 by lia.
      rewrite insert_app_r. cbn. now rewrite <- app_assoc. }
    specialize (IH (pre ++ [v]) cur _ Hset).
    rewrite length_app in IH. cbn in IH.
    replace (length pre + 1)%nat with (S (length pre)) in IH by lia.
    rewrite IH; [now rewrite <- app_assoc | cbn in Hlen; lia | done].
Qed.

(** After [_set_ram ram] the RAM is [ram]. *)
Lemma restore_getRAM ram e :
  length (getRAM e) = length ram -> Forall is_byte ram ->
  getRAM (restore ram e) = ram.
Proof.
  intros Hlen Hb. unfold restore, enumerate.
  apply (restore_from ram [] (getRAM e) e); done.
Qed.

(** Every round of the scan starts from the snapshot. *)
Lemma round_start_getRAM e0 i :
  (i <= length (getRAM e0))%nat ->
  getRAM (round_start (getRAM e0) e0 i) = getRAM e0.
Proof.
  induction i as [|i IH]; intros Hi; cbn [round_start];
    apply restore_getRAM; try apply getRAM_byte.
  - apply step_length.
  - rewrite step_length, setRAM_length.
    + now rewrite IH by lia.
    + rewrite IH by lia. lia.
    + unfold is_byte. lia.
Qed.

(** *** The scan *)

Lemma np_any_ne_true p q : np_any_ne p q = true <-> p <> q.
Proof.
  destruct p as [[r1 g1] b1], q as [[r2 g2] b2]. unfold np_any_ne.
  rewrite !orb_true_iff, !negb_true_iff, !Z.eqb_neq. split.
  - intros H Heq. injection Heq as -> -> ->. tauto.
  - intros H.
    destruct (decide (r1 = r2)) as [->|]; [|tauto].
    destruct (decide (g1 = g2)) as [->|]; [|tauto].
    destruct (decide (b1 = b2)) as [->|]; [|tauto]. done.
Qed.

(** One round of the scan: probe cell [i] with 0, step, look at the
    pixel, restore the snapshot, and record the cell if the pixel
    changed. *)
Lemma probe_cell_run ram x y p0 i r p :
  getRAM (emu (env r)) = ram -> (i < length ram)%nat ->
  pixel_at (getScreenRGB (step 0 (setRAM i 0 (emu (env r))))) y x
    = Some p ->
  probe_cell ram x y p0 i r =
  (inr tt,
   set_candidate_cell_ids
     (if np_any_ne p p0 then candidate_cell_ids r ++ [i]
      else candidate_cell_ids r)
     (set_current_active_cell_input "0"
        (set_active_cell_idx (Some i)
           (set_env
              {| emu := restore ram (step 0 (setRAM i 0 (emu (env r))));
                 calls := calls (env r)
                          ++ CSetRAM i 0 :: CStep 0 :: restore_calls ram |}
              r)))).
Proof.
  intros Hram Hi Hp. unfold probe_cell. cbn [for_break].
  unfold bind at 1. cbn [modify].
  match goal with
  | |- bind ?m _ ?s = (_, ?final) =>
      assert (Hin : m s =
                    (inr (if np_any_ne p p0 then Break else Continue),
                     final))
  end.
  { unfold bind at 1. cbn [modify].
    erewrite bind_ok.
    2:{ apply ale_setRAM_run; cbn; [rewrite Hram; exact Hi|].
        unfold is_byte. lia. }
    erewrite bind_ok by apply env_step_run.
    erewrite bind_ok by apply ale_getScreenRGB_run.
    unfold _render at 1. unfold bind at 1, ret at 1.
    erewrite bind_ok by (rewrite getpixel_run; cbn; rewrite Hp; reflexivity).
    erewrite bind_ok.
    2:{ apply _set_ram_run; cbn.
        - rewrite step_length, setRAM_length
            by (rewrite ?Hram; first [exact Hi | unfold is_byte; lia]).
          now rewrite Hram.
        - rewrite <- Hram. apply getRAM_byte. }
    destruct (np_any_ne p p0); cbn; rewrite <- !app_assoc; reflexivity. }
  erewrite bind_ok by exact Hin.
  destruct (np_any_ne p p0); reflexivity.
Qed.

(** The loop over the cells [k .. k + n - 1], entered at the start of
    round [k]. *)
Lemma scan_loop_run e0 x y p0 n : forall k r,
  inside_frame x y ->
  reference_pixel e0 x y = Some p0 ->
  emu (env r) = round_start (getRAM e0) e0 k ->
  (k + n <= length (getRAM e0))%nat ->
  exists a s,
    for_ (seq k n) (probe_cell (getRAM e0) x y p0) r =
    (inr tt,
     set_candidate_cell_ids
       (candidate_cell_ids r
        ++ List.filter (causative (getRAM e0) e0 x y) (seq k n))
       (set_current_active_cell_input s
          (set_active_cell_idx a
             (set_env
                {| emu := round_start (getRAM e0) e0 (k + n);
                   calls := calls (env r)
                     ++ flat_map (fun i => CSetRAM i 0 :: CStep 0
                                           :: restore_calls (getRAM e0))
                                 (seq k n) |}
                r)))).
Proof.
  induction n as [|n IH]; intros k r Hin Hp0 Hemu Hk.
  - exists (active_cell_idx r), (current_active_cell_input r).
    cbn. rewrite !app_nil_r, Nat.add_0_r, <- Hemu. reflexivity.
  - destruct (Hin (step 0 (setRAM k 0 (emu (env r))))) as [p Hp].
    cbn [seq for_].
    erewrite bind_ok.
    2:{ apply (probe_cell_run _ _ _ _ _ _ p).
        - rewrite Hemu. apply round_start_getRAM. lia.
        - lia.
        - exact Hp. }
    edestruct (IH (S k)) as (a & s & Hrun); [exact Hin|exact Hp0| |lia|].
    2:{ rewrite Hrun. exists a, s. f_equal.
        cbn [List.filter flat_map].
        assert (Hc : causative (getRAM e0) e0 x y k = np_any_ne p p0).
        { unfold causative, probe_pixel. rewrite <- Hemu, Hp, Hp0.
          reflexivity. }
        rewrite Hc, Nat.add_succ_r.
        destruct (np_any_ne p p0); cbn; rewrite <- ?app_assoc;
          reflexivity. }
    cbn. rewrite Hemu. reflexivity.
Qed.

(** The whole scan: it returns, and the final Renderer is known. *)
Lemma find_causative_ram_run x y r p0 :
  inside_frame x y ->
  reference_pixel (emu (env r)) x y = Some p0 ->
  find_causative_ram x y r =
  (inr tt,
   set_candidate_cell_ids
     (List.filter (causative (getRAM (emu (env r))) (emu (env r)) x y)
                  (seq 0 (length (getRAM (emu (env r))))))
     (set_current_active_cell_input EmptyString
        (set_active_cell_idx None
           (set_env
              {| emu := round_start (getRAM (emu (env r))) (emu (env r))
                          (length (getRAM (emu (env r))));
                 calls := calls (env r)
                   ++ scan_calls (getRAM (emu (env r)))
                                 (length (getRAM (emu (env r)))) |}
              r)))).
Proof.
  intros Hin Hp0. unfold find_causative_ram.
  erewrite bind_ok by apply ale_getRAM_run.
  erewrite bind_ok by apply env_step_run.
  erewrite bind_ok by apply ale_getScreenRGB_run.
  erewrite bind_ok.
  2:{ rewrite getpixel_run. cbn. unfold reference_pixel in Hp0.
      rewrite Hp0. reflexivity. }
  erewrite bind_ok.
  2:{ apply _set_ram_run; cbn; [apply step_length | apply getRAM_byte]. }
  unfold bind at 1. cbn [modify].
  edestruct (scan_loop_run (emu (env r)) x y p0
               (length (getRAM (emu (env r)))) 0%nat)
    as (a & s & Hrun); [exact Hin|exact Hp0| | |].
  3:{ unfold range. erewrite bind_ok by exact Hrun.
      cbn. unfold scan_calls. rewrite <- !app_assoc. reflexivity. }
  - cbn. reflexivity.
  - lia.
Qed.

(** C1. For a pixel inside the frame [find_causative_ram] returns,
    and the candidate list holds cell [i] exactly when zeroing cell [i]
    of an emulator whose RAM is the snapshot and taking one no-op step
    shows a pixel at [(x, y)] that differs from the reference pixel,
    the one after a no-op step from the state the scan was started in.
    The emulator calls of the scan are the reference step and, cell by
    cell, the write of 0, a no-op step and the restore: 0 is the only
    probe value ever written. *)
Theorem find_causative_ram_candidates x y r :
  inside_frame x y ->
  exists r',
    find_causative_ram x y r = (inr tt, r') /\
    (forall i,
       In i (candidate_cell_ids r') <->
       (i < length (getRAM (emu (env r))))%nat /\
       exists e_i p p0,
         e_i = round_start (getRAM (emu (env r))) (emu (env r)) i /\
         getRAM e_i = getRAM (emu (env r)) /\
         pixel_at (getScreenRGB (step 0 (setRAM i 0 e_i))) y x = Some p /\
         pixel_at (getScreenRGB (step 0 (emu (env r)))) y x = Some p0 /\
         p <> p0) /\
    calls (env r') =
      calls (env r)
      ++ CStep 0 :: restore_calls (getRAM (emu (env r)))
      ++ flat_map (fun i => CSetRAM i 0 :: CStep 0
                            :: restore_calls (getRAM (emu (env r))))
                  (seq 0 (length (getRAM (emu (env r))))).
Proof.
  intros Hin.
  destruct (Hin (step 0 (emu (env r)))) as [p0 Hp0].
  eexists. split; [apply (find_causative_ram_run x y r p0 Hin Hp0)|].
  split; [|reflexivity].
  intros i. cbn [candidate_cell_ids set_candidate_cell_ids].
  rewrite List.filter_In, List.in_seq. unfold causative, probe_pixel.
  unfold reference_pixel in *. rewrite Hp0. split.
  - intros [Hi Hc].
    split; [lia|].
    destruct (pixel_at (getScreenRGB (step 0 (setRAM i 0 _))) y x)
      as [p|] eqn:Hp; [|done].
    eexists; exists p, p0. split; [reflexivity|].
    split; [apply round_start_getRAM; lia|].
    split; [exact Hp|]. split; [reflexivity|].
    now apply np_any_ne_true.
  - intros [Hi (e_i & p & q & -> & _ & Hp & Hq & Hne)].
    split; [lia|]. rewrite Hp. injection Hq as <-.
    now apply np_any_ne_true.
Qed.

(** C2. For a pixel inside the frame [find_causative_ram] returns,
    and the RAM of the emulator is then cell for cell what it was
    before the call. *)
Theorem find_causative_ram_restores x y r :
  inside_frame x y ->
  exists r',
    find_causative_ram x y r = (inr tt, r') /\
    getRAM (emu (env r')) = getRAM (emu (env r)).
Proof.
  intros Hin.
  destruct (Hin (step 0 (emu (env r)))) as [p0 Hp0].
  eexists. split; [apply (find_causative_ram_run x y r p0 Hin Hp0)|].
  cbn. apply round_start_getRAM. lia.
Qed.

(** *** Postconditions that also cover a raise *)

Lemma post_bind {S A B} (m : M S A) (k : A -> M S B) s Q :
  post m s (fun o s' => match o with
                        | inl x => Q (inl x) s'
                        | inr a => post (k a) s' Q
                        end) ->
  post (bind m k) s Q.
Proof.
  unfold post, bind. destruct (m s) as [[x|a] s']; cbn; auto.
Qed.

Lemma post_weaken {S A} (m : M S A) s (Q Q' : exn + A -> S -> Prop) :
  post m s Q -> (forall o s', Q o s' -> Q' o s') -> post m s Q'.
Proof. unfold post. auto. Qed.

(** A loop over [k .. k + n - 1] with an invariant [I j] that holds
    before round [j] and is kept when the round number grows. *)
Lemma post_for_seq {St} (body : nat -> M St unit) (I : nat -> St -> Prop)
  n :
  forall k s,
    I k s ->
    (forall j s, I j s -> post (body j) s (fun _ s' => I (S j) s')) ->
    (forall j s, I j s -> I (S j) s) ->
    post (for_ (seq k n) body) s (fun _ s' => I (k + n)%nat s').
Proof.
  induction n as [|n IH]; intros k s Hs Hbody Hmono.
  - unfold post. cbn. now rewrite Nat.add_0_r.
  - cbn [seq for_]. apply post_bind.
    eapply post_weaken; [apply (Hbody k s Hs)|].
    intros [x|[]] s' Hs'.
    + clear -Hs' Hmono. rewrite Nat.add_succ_r.
      induction n as [|n IHn]; [now rewrite Nat.add_0_r|].
      rewrite Nat.add_succ_r. now apply Hmono.
    + rewrite Nat.add_succ_r. now apply (IH (S k)).
Qed.

Lemma post_for {S A} (body : A -> M S unit) (I : S -> Prop) l :
  forall s,
    I s ->
    (forall a s, I s -> post (body a) s (fun _ s' => I s')) ->
    post (for_ l body) s (fun _ s' => I s').
Proof.
  induction l as [|a l IH]; intros s Hs Hbody; [exact Hs|].
  cbn [for_]. apply post_bind.
  eapply post_weaken; [apply (Hbody a s Hs)|].
  intros [x|[]] s' Hs'; [exact Hs'|]. now apply IH.
Qed.

(** *** The candidate list *)

(** The calls on the emulator leave the other fields alone. *)
Lemma ale_candidates {A} (m : M Logged A) r :
  candidate_cell_ids (ale m r).2 = candidate_cell_ids r.
Proof. unfold ale, zoom. now destruct (m _). Qed.

Lemma _set_ram_candidates ram r :
  candidate_cell_ids (_set_ram ram r).2 = candidate_cell_ids r.
Proof.
  unfold _set_ram.
  apply (post_for _ (fun s => candidate_cell_ids s = candidate_cell_ids r));
    [reflexivity|].
  intros [k v] s Hs. unfold post. now rewrite ale_candidates.
Qed.

Lemma scanned_mono k r : scanned k r -> scanned (S k) r.
Proof.
  intros [Hs Hb]. split; [exact Hs|].
  eapply Forall_impl; [exact Hb|]. cbn. lia.
Qed.

Lemma scanned_snoc k (l : list nat) :
  StronglySorted lt l -> Forall (fun i => (i < k)%nat) l ->
  StronglySorted lt (l ++ [k]) /\ Forall (fun i => (i < S k)%nat) (l ++ [k]).
Proof.
  intros Hs Hb. split.
  - apply StronglySorted_app_2; [|exact Hs|repeat constructor].
    intros a b Ha Hb'. apply list_elem_of_singleton in Hb' as ->.
    rewrite Forall_forall in Hb. auto.
  - apply Forall_app. split.
    + eapply Forall_impl; [exact Hb|]. cbn. lia.
    + repeat constructor.
Qed.

Lemma probe_cell_scanned ram x y p0 k r :
  scanned k r ->
  post (probe_cell ram x y p0 k) r (fun _ r' => scanned (S k) r').
Proof.
  intros Hk. pose proof (scanned_mono _ _ Hk) as Hk'.
  unfold probe_cell. cbn [for_break].
  apply post_bind. unfold post at 1. cbn [modify fst snd].
  apply post_bind. apply post_bind. unfold post at 1. cbn [modify fst snd].
  apply post_bind. unfold post at 1.
  match goal with
  | |- context [ale (ale_setRAM k 0) ?s] =>
      pose proof (ale_candidates (ale_setRAM k 0) s) as Hr1;
      destruct (ale (ale_setRAM k 0) s) as [[e|[]] r1]
  end.
  all: cbn in Hr1; cbn [fst snd].
  { unfold scanned. now rewrite Hr1. }
  apply post_bind. unfold post at 1. rewrite env_step_run. cbn [fst snd].
  apply post_bind. unfold post at 1. rewrite ale_getScreenRGB_run.
  cbn [fst snd].
  apply post_bind. unfold post at 1. unfold _render at 1, ret at 1.
  cbn [fst snd].
  apply post_bind. unfold post at 1. rewrite getpixel_run.
  destruct (pixel_at _ y x) as [p|]; cbn [fst snd].
  2:{ unfold scanned. cbn. now rewrite Hr1. }
  apply post_bind. unfold post at 1.
  match goal with
  | |- context [_set_ram ram ?s] =>
      pose proof (_set_ram_candidates ram s) as Hr2;
      destruct (_set_ram ram s) as [[e|[]] r2]
  end.
  all: cbn in Hr2; rewrite Hr1 in Hr2; cbn [fst snd].
  { unfold scanned. now rewrite Hr2. }
  destruct (np_any_ne p p0); unfold post; cbn.
  - unfold scanned. cbn. rewrite Hr2. destruct Hk. now apply scanned_snoc.
  - unfold scanned. now rewrite Hr2.
Qed.

(** C10. After [find_causative_ram] the candidate list is strictly
    increasing, free of duplicates and made of cell indices, whatever
    it held before; the one exception is a call that raises before the
    list is rebuilt, which leaves it as it was. *)
Theorem find_causative_ram_sorted x y r :
  let o := (find_causative_ram x y r).1 in
  let r' := (find_causative_ram x y r).2 in
  ((exists e, o = inl e) /\ candidate_cell_ids r' = candidate_cell_ids r)
  \/ (StronglySorted lt (candidate_cell_ids r') /\
      NoDup (candidate_cell_ids r') /\
      Forall (fun i => (i < length (getRAM (emu (env r))))%nat)
             (candidate_cell_ids r')).
Proof.
  set (N := length (getRAM (emu (env r)))).
  enough (Hpost : post (find_causative_ram x y) r (fun o r' =>
            ((exists e, o = inl e)
             /\ candidate_cell_ids r' = candidate_cell_ids r)
            \/ scanned N r')).
  { cbv zeta. destruct Hpost as [H|[Hs Hb]]; [left; exact H|right].
    split; [exact Hs|]. split; [|exact Hb].
    clear -Hs. induction Hs as [|a l Hs IH Ha]; constructor; [|exact IH].
    intros Hin. rewrite Forall_forall in Ha. specialize (Ha _ Hin). lia. }
  unfold find_causative_ram.
  apply post_bind. unfold post at 1. rewrite ale_getRAM_run. cbn [fst snd].
  apply post_bind. unfold post at 1. rewrite env_step_run. cbn [fst snd].
  apply post_bind. unfold post at 1. rewrite ale_getScreenRGB_run.
  cbn [fst snd].
  apply post_bind. unfold post at 1. rewrite getpixel_run.
  destruct (pixel_at _ y x) as [p0|]; cbn [fst snd].
  2:{ left. split; [eauto|reflexivity]. }
  apply post_bind. unfold post at 1.
  match goal with
  | |- context [_set_ram ?ram ?s] =>
      pose proof (_set_ram_candidates ram s) as Hr1;
      destruct (_set_ram ram s) as [[e|[]] r1]
  end.
  all: cbn in Hr1; cbn [fst snd].
  { left. split; [eauto|exact Hr1]. }
  apply post_bind. unfold post at 1. cbn [modify fst snd].
  apply post_bind. unfold range.
  eapply post_weaken.
  { apply (post_for_seq _ scanned N 0%nat).
    - split; cbn; constructor.
    - intros j s Hs. now apply probe_cell_scanned.
    - apply scanned_mono. }
  intros [e|[]] r2 Hr2; [right; exact Hr2|].
  unfold post. cbn. right. exact Hr2.
Qed.

(** *** The writes issued by the Renderer *)

Lemma calls_extend_refl r : calls_extend r r.
Proof. exists []. now rewrite app_nil_r. Qed.

Lemma calls_extend_trans r1 r2 r3 :
  calls_extend r1 r2 -> calls_extend r2 r3 -> calls_extend r1 r3.
Proof.
  intros (d1 & H1 & Hd1) (d2 & H2 & Hd2). exists (d1 ++ d2).
  split; [now rewrite H2, H1, app_assoc | now apply Forall_app].
Qed.

Lemma calls_extend_same r r' : env r' = env r -> calls_extend r r'.
Proof. intros H. exists []. now rewrite H, app_nil_r. Qed.

Lemma safeP_bind {A B} (P : A -> Prop) (Q : B -> Prop) m k :
  safeP P m -> (forall a, P a -> safeP Q (k a)) -> safeP Q (bind m k).
Proof.
  intros Hm Hk r. destruct (Hm r) as [He Hv]. unfold bind.
  destruct (m r) as [[x|a] r1]; cbn in *.
  - split; [exact He|]. intros b Hb. discriminate.
  - destruct (Hk a (Hv a eq_refl) r1) as [He' Hv'].
    split; [|exact Hv']. eapply calls_extend_trans; eauto.
Qed.

Lemma safeP_weaken {A} (P Q : A -> Prop) m :
  safeP P m -> (forall a, P a -> Q a) -> safeP Q m.
Proof. intros Hm HPQ r. destruct (Hm r). split; auto. Qed.

Lemma safeP_ret {A} (P : A -> Prop) a : P a -> safeP P (ret a).
Proof.
  intros Ha r. split; [apply calls_extend_refl|].
  intros b Hb. cbn in Hb. now injection Hb as <-.
Qed.

Lemma safeP_raise {A} (P : A -> Prop) x : safeP P (raise x).
Proof. intros r. split; [apply calls_extend_refl|]. discriminate. Qed.

Lemma safeP_gets {A} (P : A -> Prop) (f : Renderer -> A) :
  (forall r, P (f r)) -> safeP P (gets f).
Proof.
  intros Hf r. split; [apply calls_extend_refl|].
  intros b Hb. cbn in Hb. injection Hb as <-. apply Hf.
Qed.

Lemma safe_modify (f : Renderer -> Renderer) :
  (forall r, env (f r) = env r) -> safe (modify f).
Proof.
  intros Hf r. split; [|done]. apply calls_extend_same. cbn. apply Hf.
Qed.

Ltac safe_mod := apply safe_modify; intros; reflexivity.

Lemma safe_when b m : safe m -> safe (when b m).
Proof. unfold when. destruct b; [auto|]. intros _. now apply safeP_ret. Qed.

Lemma safe_for {A} (l : list A) body :
  (forall a, a ∈ l -> safe (body a)) -> safe (for_ l body).
Proof.
  induction l as [|a l IH]; intros Hb; [now apply safeP_ret|].
  cbn [for_]. eapply safeP_bind; [apply Hb; left|].
  intros _ _. apply IH. intros b Hin. apply Hb. now right.
Qed.

Lemma safe_for_break {A} (l : list A) body :
  (forall a, a ∈ l -> safe (body a)) -> safe (for_break l body).
Proof.
  induction l as [|a l IH]; intros Hb; [now apply safeP_ret|].
  cbn [for_break]. eapply safeP_bind; [apply Hb; left|].
  intros [|] _; [|now apply safeP_ret].
  apply IH. intros b Hin. apply Hb. now right.
Qed.

Lemma safe_getitem {A} (l : list A) i (P : A -> Prop) :
  Forall P l -> safeP P (getitem l i).
Proof.
  intros Hl. unfold getitem. destruct (l !! i) as [a|] eqn:Ha.
  - apply safeP_ret. rewrite Forall_lookup in Hl. eauto.
  - apply safeP_raise.
Qed.

Lemma safe_getpixel frame y x : safe (getpixel frame y x).
Proof.
  unfold getpixel. eapply safeP_bind.
  - apply (safe_getitem _ _ (fun _ => True)). now apply Forall_true.
  - intros row _. apply (safe_getitem _ _ (fun _ => True)).
    now apply Forall_true.
Qed.

Lemma safe_ale_setRAM i v : is_byte v -> safe (ale (ale_setRAM i v)).
Proof.
  intros Hv r. split; [|done]. exists [CSetRAM i v].
  split; [|repeat constructor; unfold is_byte in Hv; cbn; lia].
  unfold ale, zoom, ale_setRAM, bind, log, modify, on_emu, zoom, ALE_setRAM.
  cbn. repeat case_match; simplify_eq; reflexivity.
Qed.

Lemma safe_env_step a : safe (ale (env_step a)).
Proof.
  intros r. split; [|done]. exists [CStep a].
  split; [reflexivity|repeat constructor].
Qed.

Lemma safe_env_reset : safe (ale env_reset).
Proof.
  intros r. split; [|done]. exists [CReset].
  split; [reflexivity|repeat constructor].
Qed.

Lemma safe_ale_getRAM : safeP (Forall is_byte) (ale ale_getRAM).
Proof.
  intros r. split; [apply calls_extend_refl|].
  intros ram Hr. cbn in Hr. injection Hr as <-. apply getRAM_byte.
Qed.

Lemma safe_ale_getScreenRGB : safe (ale ale_getScreenRGB).
Proof. intros r. split; [apply calls_extend_refl|done]. Qed.

Lemma safe__set_ram ram : Forall is_byte ram -> safe (_set_ram ram).
Proof.
  intros Hb. unfold _set_ram. apply safe_for. intros [k v] Hin.
  apply safe_ale_setRAM. unfold enumerate in Hin.
  apply elem_of_zip_with in Hin as (k' & v' & Heq & _ & Hv).
  simplify_eq. rewrite Forall_forall in Hb. auto.
Qed.

Lemma safe__render : safe _render.
Proof. now apply safeP_ret. Qed.

Lemma safe__unselect_active_cell : safe _unselect_active_cell.
Proof.
  unfold _unselect_active_cell.
  eapply safeP_bind; [safe_mod|].
  intros _ _. safe_mod.
Qed.

Lemma safe_probe_cell ram x y p0 i :
  Forall is_byte ram -> safe (probe_cell ram x y p0 i).
Proof.
  intros Hb. unfold probe_cell.
  eapply safeP_bind; [safe_mod|]. intros _ _.
  apply safe_for_break. intros v Hv.
  apply list_elem_of_singleton in Hv as ->.
  eapply safeP_bind; [safe_mod|]. intros _ _.
  eapply safeP_bind; [now apply safe_ale_setRAM|]. intros _ _.
  eapply safeP_bind; [apply safe_env_step|]. intros _ _.
  eapply safeP_bind; [apply safe_ale_getScreenRGB|]. intros frame _.
  eapply safeP_bind; [apply safe__render|]. intros _ _.
  eapply safeP_bind; [apply safe_getpixel|]. intros p _.
  eapply safeP_bind; [now apply safe__set_ram|]. intros _ _.
  destruct (np_any_ne p p0); [|now apply safeP_ret].
  eapply safeP_bind; [safe_mod|]. intros _ _.
  now apply safeP_ret.
Qed.

Lemma safe_find_causative_ram x y : safe (find_causative_ram x y).
Proof.
  unfold find_causative_ram.
  eapply safeP_bind; [apply safe_ale_getRAM|]. intros ram Hram.
  eapply safeP_bind; [apply safe_env_step|]. intros _ _.
  eapply safeP_bind; [apply safe_ale_getScreenRGB|]. intros frame _.
  eapply safeP_bind; [apply safe_getpixel|]. intros p0 _.
  eapply safeP_bind; [now apply safe__set_ram|]. intros _ _.
  eapply safeP_bind; [safe_mod|]. intros _ _.
  eapply safeP_bind.
  { apply safe_for. intros i _. now apply safe_probe_cell. }
  intros _ _.
  eapply safeP_bind; [apply safe__unselect_active_cell|]. intros _ _.
  apply safe__render.
Qed.

Lemma safe__get_ram_value_at idx : safeP is_byte (_get_ram_value_at idx).
Proof.
  unfold _get_ram_value_at.
  eapply safeP_bind; [apply safe_ale_getRAM|]. intros ram Hram.
  now apply safe_getitem.
Qed.

Lemma safe__increment_ram_value_at idx :
  safe (_increment_ram_value_at idx).
Proof.
  unfold _increment_ram_value_at, _set_ram_value_at.
  eapply safeP_bind; [apply safe__get_ram_value_at|]. intros v Hv.
  apply safe_ale_setRAM. unfold is_byte in *. lia.
Qed.

Lemma safe__decrement_ram_value_at idx :
  safe (_decrement_ram_value_at idx).
Proof.
  unfold _decrement_ram_value_at, _set_ram_value_at.
  eapply safeP_bind; [apply safe__get_ram_value_at|]. intros v Hv.
  apply safe_ale_setRAM. unfold is_byte in *. lia.
Qed.

Lemma digit_of_ascii_range c d : digit_of_ascii c = Some d -> 0 <= d <= 9.
Proof.
  unfold digit_of_ascii. case_match; [|done].
  intros [= <-]. lia.
Qed.

Lemma int_digits_nonneg s : forall acc n,
  0 <= acc -> int_digits acc s = Some n -> 0 <= n.
Proof.
  induction s as [|c s IH]; intros acc n Hacc; cbn.
  - intros [= <-]. exact Hacc.
  - destruct (digit_of_ascii c) as [d|] eqn:Hd; [|done].
    apply digit_of_ascii_range in Hd. apply IH. lia.
Qed.

Lemma int_of_string_nonneg s n : int_of_string s = Some n -> 0 <= n.
Proof.
  unfold int_of_string. destruct s; [done|].
  now apply int_digits_nonneg.
Qed.

Lemma safe_int s : safeP (fun n => 0 <= n) (int s).
Proof.
  unfold int. destruct (int_of_string s) as [n|] eqn:Hn.
  - apply safeP_ret. eapply int_of_string_nonneg; eauto.
  - apply safeP_raise.
Qed.

Lemma safe__get_cell_under_mouse :
  safeP (fun _ => True) _get_cell_under_mouse.
Proof. now apply safeP_gets. Qed.

Lemma safe_handle_event ev : safe (handle_event ev).
Proof.
  destruct ev as [|button|key|key|]; cbn [handle_event].
  - safe_mod.
  - repeat case_match.
    + eapply safeP_bind; [now apply (safeP_gets (fun _ => True))|].
      intros pos _. case_match; [apply safe_find_causative_ram|].
      eapply safeP_bind; [apply safe__get_cell_under_mouse|]. intros c _.
      eapply safeP_bind; [safe_mod|]. intros _ _. safe_mod.
    + eapply safeP_bind; [apply safe__get_cell_under_mouse|]. intros c _.
      apply safe_modify. intros r. now case_bool_decide.
    + eapply safeP_bind; [apply safe__get_cell_under_mouse|].
      intros [idx|] _; [apply safe__increment_ram_value_at|].
      now apply safeP_ret.
    + eapply safeP_bind; [apply safe__get_cell_under_mouse|].
      intros [idx|] _; [apply safe__decrement_ram_value_at|].
      now apply safeP_ret.
    + now apply safeP_ret.
  - eapply safeP_bind.
    { apply safe_when. unfold toggle_fullscreen, _init_pygame.
      eapply safeP_bind; [safe_mod|]. intros _ _. safe_mod. }
    intros _ _. eapply safeP_bind; [apply safe_when; safe_mod|].
    intros _ _. eapply safeP_bind; [apply safe_when; now apply safeP_ret|].
    intros _ _. unfold key_chain.
    eapply safeP_bind; [now apply (safeP_gets (fun _ => True))|].
    intros r _.
    repeat case_match;
      first
        [ apply safe_env_reset
        | apply safe__unselect_active_cell
        | safe_mod
        | apply safe_when; safe_mod
        | now apply safeP_ret
        | idtac ].
    eapply safeP_bind; [|intros _ _; apply safe__unselect_active_cell].
    apply safe_when. eapply safeP_bind; [apply safe_int|].
    intros n' Hn. cbn beta in Hn. unfold when.
    case_match; [|now apply safeP_ret].
    apply safe_ale_setRAM. unfold is_byte. lia.
  - eapply safeP_bind; [now apply (safeP_gets (fun _ => True))|].
    intros r _. apply safe_when. case_bool_decide; [safe_mod|].
    apply safeP_raise.
  - now apply safeP_ret.
Qed.

Lemma safe__handle_user_input mouse events :
  safe (_handle_user_input mouse events).
Proof.
  unfold _handle_user_input.
  eapply safeP_bind; [safe_mod|]. intros _ _.
  apply safe_for. intros ev _. apply safe_handle_event.
Qed.

(** *** The interactive edits *)

Lemma _increment_ram_value_at_run idx r v :
  getRAM (emu (env r)) !! idx = Some v ->
  _increment_ram_value_at idx r =
  (inr tt,
   set_env {| emu := setRAM idx (Z.min (v + 1) 255) (emu (env r));
              calls := calls (env r) ++ [CSetRAM idx (Z.min (v + 1) 255)] |}
           r).
Proof.
  intros Hv. pose proof (cell_byte _ _ _ Hv) as Hb.
  unfold _increment_ram_value_at, _get_ram_value_at, _set_ram_value_at.
  erewrite bind_ok.
  2:{ erewrite bind_ok by apply ale_getRAM_run.
      apply getitem_ok. exact Hv. }
  apply ale_setRAM_run; [eapply lookup_lt_Some; eauto|].
  unfold is_byte in *. lia.
Qed.

Lemma _decrement_ram_value_at_run idx r v :
  getRAM (emu (env r)) !! idx = Some v ->
  _decrement_ram_value_at idx r =
  (inr tt,
   set_env {| emu := setRAM idx (Z.max (v - 1) 0) (emu (env r));
              calls := calls (env r) ++ [CSetRAM idx (Z.max (v - 1) 0)] |}
           r).
Proof.
  intros Hv. pose proof (cell_byte _ _ _ Hv) as Hb.
  unfold _decrement_ram_value_at, _get_ram_value_at, _set_ram_value_at.
  erewrite bind_ok.
  2:{ erewrite bind_ok by apply ale_getRAM_run.
      apply getitem_ok. exact Hv. }
  apply ale_setRAM_run; [eapply lookup_lt_Some; eauto|].
  unfold is_byte in *. lia.
Qed.

Lemma handle_keydown key r :
  handle_event (KEYDOWN key) r = key_chain key (keydown_prelude key r).
Proof.
  cbn [handle_event]. unfold keydown_prelude, when.
  destruct (key =? K_F11 keys), (key =? K_p keys), (key =? K_s keys);
    reflexivity.
Qed.

Lemma key_chain_commit key r idx n :
  commits_input r key ->
  active_cell_idx r = Some idx ->
  int_of_string (current_active_cell_input r) = Some n ->
  (256 <= n ->
   key_chain key r =
   (inr tt,
    set_current_active_cell_input EmptyString (set_active_cell_idx None r))) /\
  (n < 256 -> (idx < length (getRAM (emu (env r))))%nat ->
   key_chain key r =
   (inr tt,
    set_current_active_cell_input EmptyString
      (set_active_cell_idx None
         (set_env {| emu := setRAM idx n (emu (env r));
                     calls := calls (env r) ++ [CSetRAM idx n] |} r)))).
Proof.
  intros (Hret & Hr & Hesc & Hact & Hdig & Hkp & Hbs) Hidx Hn.
  pose proof (int_of_string_nonneg _ _ Hn) as Hn0.
  assert (Hlen : (0 <? String.length (current_active_cell_input r))%nat
                 = true).
  { destruct (current_active_cell_input r); [done|reflexivity]. }
  unfold key_chain.
  erewrite bind_ok by (unfold gets, id; reflexivity).
  assert ((key =? K_r keys) = false) as -> by lia.
  assert ((key =? K_ESCAPE keys) = false) as -> by lia.
  rewrite Hact.
  assert (((K_0 keys <=? key) && (key <=? K_9 keys)) = false) as -> by lia.
  assert (((K_KP1 keys <=? key) && (key <=? K_KP0 keys)) = false) as ->
    by lia.
  assert ((key =? K_BACKSPACE keys) = false) as -> by lia.
  assert (((key =? K_RETURN keys) || (key =? K_KP_ENTER keys)) = true)
    as -> by lia.
  cbn [andb]. rewrite Hidx, Hlen. unfold when at 1.
  unfold int. rewrite Hn. split.
  - intros Hge. assert ((n <? 256) = false) as Hlt by lia.
    unfold bind, ret, when. rewrite Hlt. reflexivity.
  - intros Hlt Hi. assert ((n <? 256) = true) as Hlt' by lia.
    unfold bind, ret, when. rewrite Hlt'. unfold _set_ram_value_at.
    rewrite ale_setRAM_run; [reflexivity|exact Hi|unfold is_byte; lia].
Qed.

(** C8. Every write the editing interface issues on the emulator
    carries a value within [0, 255], whatever the mouse position and
    the events; the wheel increment writes [min (v + 1) 255], so 255
    stays 255; the wheel decrement writes [max (v - 1) 0], so 0 stays
    0; and when RETURN commits a typed number of 256 or more, the
    emulator receives no call at all and the cell is unselected, while
    a number below 256 is written to the selected cell. *)
Theorem editing_writes_stay_in_byte :
  (forall mouse events r,
     exists d,
       calls (env (_handle_user_input mouse events r).2)
       = calls (env r) ++ d /\
       forall i v, CSetRAM i v ∈ d -> 0 <= v <= 255) /\
  (forall idx r v,
     getRAM (emu (env r)) !! idx = Some v ->
     _increment_ram_value_at idx r =
     (inr tt,
      set_env {| emu := setRAM idx (Z.min (v + 1) 255) (emu (env r));
                 calls := calls (env r)
                          ++ [CSetRAM idx (Z.min (v + 1) 255)] |} r) /\
     0 <= Z.min (v + 1) 255 <= 255 /\
     (v = 255 -> Z.min (v + 1) 255 = 255)) /\
  (forall idx r v,
     getRAM (emu (env r)) !! idx = Some v ->
     _decrement_ram_value_at idx r =
     (inr tt,
      set_env {| emu := setRAM idx (Z.max (v - 1) 0) (emu (env r));
                 calls := calls (env r)
                          ++ [CSetRAM idx (Z.max (v - 1) 0)] |} r) /\
     0 <= Z.max (v - 1) 0 <= 255 /\
     (v = 0 -> Z.max (v - 1) 0 = 0)) /\
  (forall key r idx n,
     commits_input r key ->
     active_cell_idx r = Some idx ->
     int_of_string (current_active_cell_input r) = Some n ->
     let o := (handle_event (KEYDOWN key) r).1 in
     let r' := (handle_event (KEYDOWN key) r).2 in
     (256 <= n ->
      o = inr tt /\ env r' = env r /\
      active_cell_idx r' = None /\
      current_active_cell_input r' = EmptyString) /\
     (n < 256 -> (idx < length (getRAM (emu (env r))))%nat ->
      o = inr tt /\
      env r' = {| emu := setRAM idx n (emu (env r));
                  calls := calls (env r) ++ [CSetRAM idx n] |})).
Proof.
  split; [|split; [|split]].
  - intros mouse events r.
    destruct (safe__handle_user_input mouse events r) as [(d & Hd & Hb) _].
    exists d. split; [exact Hd|].
    intros i v Hin. rewrite Forall_forall in Hb. apply (Hb _ Hin).
  - intros idx r v Hv. pose proof (cell_byte _ _ _ Hv) as Hb.
    split; [now apply _increment_ram_value_at_run|].
    unfold is_byte in Hb. lia.
  - intros idx r v Hv. pose proof (cell_byte _ _ _ Hv) as Hb.
    split; [now apply _decrement_ram_value_at_run|].
    unfold is_byte in Hb. lia.
  - intros key r idx n Hc Hidx Hn. cbv zeta. rewrite handle_keydown.
    assert (Hc' : commits_input (keydown_prelude key r) key).
    { unfold commits_input, keydown_prelude in *.
      destruct (key =? K_F11 keys), (key =? K_p keys); exact Hc. }
    assert (Hidx' : active_cell_idx (keydown_prelude key r) = Some idx).
    { unfold keydown_prelude.
      destruct (key =? K_F11 keys), (key =? K_p keys); exact Hidx. }
    assert (Hn' : int_of_string
                    (current_active_cell_input (keydown_prelude key r))
                  = Some n).
    { unfold keydown_prelude.
      destruct (key =? K_F11 keys), (key =? K_p keys); exact Hn. }
    assert (He : env (keydown_prelude key r) = env r).
    { unfold keydown_prelude.
      destruct (key =? K_F11 keys), (key =? K_p keys); reflexivity. }
    destruct (key_chain_commit key _ idx n Hc' Hidx' Hn') as [Hge Hlt].
    split.
    + intros H. rewrite (Hge H). cbn. rewrite He. done.
    + intros H Hi. rewrite He in Hlt. rewrite (Hlt H Hi). cbn. done.
Qed.

(** *** When the screen is a function of the RAM *)

(** If the frame a step renders depends on the RAM alone, the pixel the
    scan compares at index [i] is the one the state the scan started in
    would show after zeroing cell [i] and one step: what an earlier probe
    left outside the RAM plays no part. *)
Lemma probe_pixel_ram_determined e0 x y i :
  (forall e1 e2, getRAM e1 = getRAM e2 ->
                 getScreenRGB (step 0 e1) = getScreenRGB (step 0 e2)) ->
  (i < length (getRAM e0))%nat ->
  probe_pixel (getRAM e0) e0 x y i
  = pixel_at (getScreenRGB (step 0 (setRAM i 0 e0))) y x.
Proof.
  intros Hdet Hi. unfold probe_pixel. f_equal. apply Hdet.
  rewrite !getRAM_setRAM; rewrite ?round_start_getRAM by lia;
    first [reflexivity | exact Hi | unfold is_byte; lia].
Qed.

(** *** More on the scan *)

(** X1. On an emulator whose frame after a step depends on the RAM
    alone, the scan of an in-frame pixel returns and cell [i] is a
    candidate exactly when zeroing cell [i] in the state the scan
    started in changes the pixel one no-op step shows. *)
Theorem find_causative_ram_counterfactual x y r :
  (forall e1 e2, getRAM e1 = getRAM e2 ->
                 getScreenRGB (step 0 e1) = getScreenRGB (step 0 e2)) ->
  inside_frame x y ->
  exists r',
    find_causative_ram x y r = (inr tt, r') /\
    forall i,
      In i (candidate_cell_ids r') <->
      (i < length (getRAM (emu (env r))))%nat /\
      pixel_at (getScreenRGB (step 0 (setRAM i 0 (emu (env r))))) y x
      <> pixel_at (getScreenRGB (step 0 (emu (env r)))) y x.
Proof.
  intros Hdet Hin.
  destruct (Hin (step 0 (emu (env r)))) as [p0 Hp0].
  eexists. split; [apply (find_causative_ram_run x y r p0 Hin Hp0)|].
  intros i. cbn [candidate_cell_ids set_candidate_cell_ids].
  rewrite List.filter_In, List.in_seq. unfold causative.
  unfold reference_pixel in *. rewrite Hp0. split.
  - intros [Hi Hc]. split; [lia|].
    rewrite probe_pixel_ram_determined in Hc by (exact Hdet || lia).
    destruct (pixel_at (getScreenRGB (step 0 (setRAM i 0 _))) y x)
      as [p|]; [|done].
    apply np_any_ne_true in Hc. congruence.
  - intros [Hi Hne]. split; [lia|].
    rewrite probe_pixel_ram_determined by (exact Hdet || lia).
    destruct (Hin (step 0 (setRAM i 0 (emu (env r))))) as [p Hp].
    rewrite Hp in *. apply np_any_ne_true. congruence.
Qed.

(** X2. On such an emulator a cell that already holds 0 is never a
    candidate: the probe writes what is there. *)
Theorem find_causative_ram_misses_zero_cells x y r i :
  (forall e1 e2, getRAM e1 = getRAM e2 ->
                 getScreenRGB (step 0 e1) = getScreenRGB (step 0 e2)) ->
  inside_frame x y ->
  getRAM (emu (env r)) !! i = Some 0 ->
  (find_causative_ram x y r).1 = inr tt /\
  ~ In i (candidate_cell_ids (find_causative_ram x y r).2).
Proof.
  intros Hdet Hin Hz.
  destruct (Hin (step 0 (emu (env r)))) as [p0 Hp0].
  rewrite (find_causative_ram_run x y r p0 Hin Hp0).
  split; [reflexivity|].
  cbn [snd candidate_cell_ids set_candidate_cell_ids].
  rewrite List.filter_In, List.in_seq. intros [Hi Hc].
  assert (Hlt : (i < length (getRAM (emu (env r))))%nat)
    by (eapply lookup_lt_Some; eauto).
  unfold causative in Hc.
  rewrite probe_pixel_ram_determined in Hc by (exact Hdet || exact Hlt).
  assert (Hsame : getScreenRGB (step 0 (setRAM i 0 (emu (env r))))
                  = getScreenRGB (step 0 (emu (env r)))).
  { apply Hdet. rewrite getRAM_setRAM by (exact Hlt || (unfold is_byte; lia)).
    now apply list_insert_id. }
  rewrite Hsame in Hc. unfold reference_pixel in *. rewrite Hp0 in Hc.
  apply np_any_ne_true in Hc. congruence.
Qed.

(** X3. For a pixel outside the frame [find_causative_ram] raises
    [IndexError] when it reads the reference pixel: the emulator has
    been stepped once and is not restored, and nothing else of the
    Renderer has changed. *)
Theorem find_causative_ram_outside_frame x y r :
  pixel_at (getScreenRGB (step 0 (emu (env r)))) y x = None ->
  find_causative_ram x y r =
  (inl IndexError,
   set_env {| emu := step 0 (emu (env r));
              calls := calls (env r) ++ [CStep 0] |} r).
Proof.
  intros Hp. unfold find_causative_ram.
  erewrite bind_ok by apply ale_getRAM_run.
  erewrite bind_ok by apply env_step_run.
  erewrite bind_ok by apply ale_getScreenRGB_run.
  erewrite bind_raise; [reflexivity|].
  rewrite getpixel_run. cbn. now rewrite Hp.
Qed.

Lemma count_steps_app cs1 cs2 :
  count_steps (cs1 ++ cs2) = (count_steps cs1 + count_steps cs2)%nat.
Proof. unfold count_steps. now rewrite List.filter_app, length_app. Qed.

Lemma count_steps_restore ram : count_steps (restore_calls ram) = 0%nat.
Proof.
  unfold restore_calls. induction (enumerate ram) as [|[k v] l IH];
    [reflexivity|exact IH].
Qed.

Lemma count_steps_rounds ram k n :
  count_steps (flat_map (fun i => CSetRAM i 0 :: CStep 0
                                  :: restore_calls ram) (seq k n)) = n.
Proof.
  revert k. induction n as [|n IH]; intros k; [reflexivity|].
  cbn [seq flat_map].
  change (CSetRAM k 0 :: CStep 0 :: restore_calls ram)
    with ([CSetRAM k 0; CStep 0] ++ restore_calls ram).
  rewrite !count_steps_app, count_steps_restore, IH. reflexivity.
Qed.

(** X4. A scan of an in-frame pixel steps the emulator once more than
    the RAM has cells: the game is that many frames further, although
    the RAM is back to the snapshot. *)
Theorem find_causative_ram_steps x y r :
  inside_frame x y ->
  exists r',
    find_causative_ram x y r = (inr tt, r') /\
    count_steps (calls (env r'))
    = (count_steps (calls (env r)) + length (getRAM (emu (env r))) + 1)%nat.
Proof.
  intros Hin.
  destruct (Hin (step 0 (emu (env r)))) as [p0 Hp0].
  eexists. split; [apply (find_causative_ram_run x y r p0 Hin Hp0)|].
  cbn [env set_env set_candidate_cell_ids set_current_active_cell_input
       set_active_cell_idx calls].
  unfold scan_calls.
  change (CStep 0 :: ?l) with ([CStep 0] ++ l).
  rewrite !count_steps_app, count_steps_restore, count_steps_rounds.
  cbn. lia.
Qed.

(** X5. A scan of an in-frame pixel unselects the active cell and
    clears the typed input, and apart from the emulator and the
    candidate list leaves every other field of the Renderer alone. *)
Theorem find_causative_ram_unselects x y r :
  inside_frame x y ->
  exists w c,
    find_causative_ram x y r =
    (inr tt,
     set_candidate_cell_ids c
       (set_current_active_cell_input EmptyString
          (set_active_cell_idx None (set_env w r)))).
Proof.
  intros Hin.
  destruct (Hin (step 0 (emu (env r)))) as [p0 Hp0].
  eexists. eexists. apply (find_causative_ram_run x y r p0 Hin Hp0).
Qed.

(** *** More on the interactive edits *)

(** X6. Wheel up then wheel down on a cell gives back the RAM when
    the cell held less than 255, and leaves 254 when it held 255; wheel
    down then wheel up gives back the RAM when the cell held more than
    0, and leaves 1 when it held 0. *)
Theorem wheel_round_trip idx r v :
  getRAM (emu (env r)) !! idx = Some v ->
  exists r1 r2,
    (_increment_ram_value_at idx ;; _decrement_ram_value_at idx) r
      = (inr tt, r1) /\
    (_decrement_ram_value_at idx ;; _increment_ram_value_at idx) r
      = (inr tt, r2) /\
    (v < 255 -> getRAM (emu (env r1)) = getRAM (emu (env r))) /\
    (v = 255 -> getRAM (emu (env r1)) = <[idx := 254]> (getRAM (emu (env r)))) /\
    (0 < v -> getRAM (emu (env r2)) = getRAM (emu (env r))) /\
    (v = 0 -> getRAM (emu (env r2)) = <[idx := 1]> (getRAM (emu (env r)))).
Proof.
  intros Hv. pose proof (cell_byte _ _ _ Hv) as Hb. unfold is_byte in Hb.
  assert (Hlen : (idx < length (getRAM (emu (env r))))%nat)
    by (eapply lookup_lt_Some; eauto).
  assert (Hup : getRAM (setRAM idx (Z.min (v + 1) 255) (emu (env r)))
                = <[idx := Z.min (v + 1) 255]> (getRAM (emu (env r))))
    by (apply getRAM_setRAM; [exact Hlen | unfold is_byte; lia]).
  assert (Hdn : getRAM (setRAM idx (Z.max (v - 1) 0) (emu (env r)))
                = <[idx := Z.max (v - 1) 0]> (getRAM (emu (env r))))
    by (apply getRAM_setRAM; [exact Hlen | unfold is_byte; lia]).
  eexists. eexists. split; [|split].
  - erewrite bind_ok by (apply _increment_ram_value_at_run; exact Hv).
    apply _decrement_ram_value_at_run. cbn. rewrite Hup.
    now apply list_lookup_insert_eq.
  - erewrite bind_ok by (apply _decrement_ram_value_at_run; exact Hv).
    apply _increment_ram_value_at_run. cbn. rewrite Hdn.
    now apply list_lookup_insert_eq.
  - cbn. rewrite !getRAM_setRAM; rewrite ?Hup, ?Hdn, ?length_insert;
      try first [exact Hlen | unfold is_byte; lia].
    rewrite !list_insert_insert_eq.
    repeat split; intros H.
    + replace (Z.max (Z.min (v + 1) 255 - 1) 0) with v by lia.
      now apply list_insert_id.
    + f_equal. lia.
    + replace (Z.min (Z.max (v - 1) 0 + 1) 255) with v by lia.
      now apply list_insert_id.
    + f_equal. lia.
Qed.

Lemma wheel_raises idx r :
  (length (getRAM (emu (env r))) <= idx)%nat ->
  _increment_ram_value_at idx r = (inl IndexError, r) /\
  _decrement_ram_value_at idx r = (inl IndexError, r).
Proof.
  intros Hlen.
  assert (Hn : getRAM (emu (env r)) !! idx = None)
    by now apply lookup_ge_None.
  unfold _increment_ram_value_at, _decrement_ram_value_at, _get_ram_value_at.
  split.
  - erewrite bind_raise; [reflexivity|].
    erewrite bind_ok by apply ale_getRAM_run.
    unfold getitem. now rewrite Hn.
  - erewrite bind_raise; [reflexivity|].
    erewrite bind_ok by apply ale_getRAM_run.
    unfold getitem. now rewrite Hn.
Qed.

(** X7. The wheel on an index past the end of the RAM raises
    [IndexError] on reading the cell: no call reaches the emulator and
    the Renderer is as it was. *)
Theorem wheel_outside_ram idx r :
  (length (getRAM (emu (env r))) <= idx)%nat ->
  _increment_ram_value_at idx r = (inl IndexError, r) /\
  _decrement_ram_value_at idx r = (inl IndexError, r).
Proof. apply wheel_raises. Qed.

Lemma div_between (t d c : nat) :
  (c * d < t)%nat -> (t < c * d + d)%nat -> (t / d = c)%nat.
Proof.
  intros H1 H2. symmetry.
  apply (Nat.div_unique t d c (t - c * d)); lia.
Qed.

(** The mouse in the slot of cell [idx]: the hit test finds [idx]. *)
Lemma hit_slot r idx px py x y w h :
  (0 < RAM_N_COLS r)%nat ->
  (idx / RAM_N_COLS r < amount_ram_cells r)%nat ->
  _get_ram_cell_rect idx r = (inr (x, y, w, h), r) ->
  (x < px < x + w + 10)%nat ->
  (y < py < y + h + 10)%nat ->
  _get_cell_under_mouse (set_current_mouse_pos (px, py) r)
  = (inr (Some idx), set_current_mouse_pos (px, py) r).
Proof.
  intros Hcols Hrow Hrect Hx Hy.
  unfold _get_ram_cell_rect, gets in Hrect. injection Hrect as <- <- <- <-.
  unfold _get_cell_under_mouse, gets. f_equal.
  cbn [current_mouse_pos set_current_mouse_pos ram_grid_anchor_left
       ram_grid_anchor_top scaled_cell_width scaled_cell_height RAM_N_COLS
       amount_ram_cells].
  set (cols := RAM_N_COLS r) in *.
  set (dw := (scaled_cell_width r + 10)%nat) in *.
  set (dh := (scaled_cell_height r + 10)%nat) in *.
  assert (Hc : ((px - ram_grid_anchor_left r) / dw = idx mod cols)%nat)
    by (apply div_between; lia).
  assert (Hr : ((py - ram_grid_anchor_top r) / dh = idx / cols)%nat)
    by (apply div_between; lia).
  rewrite Hc, Hr.
  assert (Hm : (idx mod cols < cols)%nat) by (apply Nat.mod_upper_bound; lia).
  assert ((ram_grid_anchor_left r <? px)%nat = true) as ->
    by (apply Nat.ltb_lt; lia).
  assert ((ram_grid_anchor_top r <? py)%nat = true) as ->
    by (apply Nat.ltb_lt; lia).
  assert ((idx mod cols <? cols)%nat = true) as -> by now apply Nat.ltb_lt.
  assert ((idx / cols <? amount_ram_cells r)%nat = true) as ->
    by now apply Nat.ltb_lt.
  cbn [andb].
  replace (idx / cols * cols + idx mod cols)%nat with idx; [reflexivity|].
  pose proof (Nat.div_mod_eq idx cols). lia.
Qed.

(** X8. The hit test inverts the layout: with the mouse strictly
    inside the slot of cell [idx] (its rectangle and the 10 pixel gap
    after it), [_get_cell_under_mouse] returns [idx], for every [idx]
    whose row number is below [amount_ram_cells]. *)
Theorem get_cell_under_mouse_of_rect r idx px py x y w h :
  (0 < RAM_N_COLS r)%nat ->
  (idx / RAM_N_COLS r < amount_ram_cells r)%nat ->
  _get_ram_cell_rect idx r = (inr (x, y, w, h), r) ->
  (x < px < x + w + 10)%nat ->
  (y < py < y + h + 10)%nat ->
  _get_cell_under_mouse (set_current_mouse_pos (px, py) r)
  = (inr (Some idx), set_current_mouse_pos (px, py) r).
Proof. apply hit_slot. Qed.

(** X9. The hit test bounds the row, not the index: a wheel event
    with the mouse in the slot of an index past the end of the RAM
    (whose row number is still below [amount_ram_cells]) raises
    [IndexError], and no call reaches the emulator. *)
Theorem wheel_on_slot_outside_ram r idx px py x y w h button :
  button = 4 \/ button = 5 ->
  (0 < RAM_N_COLS r)%nat ->
  (idx / RAM_N_COLS r < amount_ram_cells r)%nat ->
  (length (getRAM (emu (env r))) <= idx)%nat ->
  _get_ram_cell_rect idx r = (inr (x, y, w, h), r) ->
  (x < px < x + w + 10)%nat ->
  (y < py < y + h + 10)%nat ->
  _handle_user_input (px, py) [MOUSEBUTTONDOWN button] r
  = (inl IndexError, set_current_mouse_pos (px, py) r).
Proof.
  intros Hb Hcols Hrow Hlen Hrect Hx Hy.
  pose proof (hit_slot r idx px py x y w h Hcols Hrow Hrect Hx Hy) as Hhit.
  destruct (wheel_raises idx (set_current_mouse_pos (px, py) r))
    as [Hinc Hdec]; [exact Hlen|].
  unfold _handle_user_input. unfold bind at 1. cbn [modify for_].
  erewrite bind_raise; [reflexivity|].
  destruct Hb as [-> | ->]; cbn [handle_event Z.eqb Pos.eqb].
  - erewrite bind_ok by exact Hhit. exact Hinc.
  - erewrite bind_ok by exact Hhit. exact Hdec.
Qed.

(** *** Invariants of the Renderer *)

Lemma hoare_bind {A B} Pre I E (P : A -> Renderer -> Prop)
  (Q : B -> Renderer -> Prop) m k :
  hoare Pre m I E P ->
  (forall a, hoare (fun r => I r /\ P a r) (k a) I E Q) ->
  hoare Pre (bind m k) I E Q.
Proof.
  intros Hm Hk r Hr. destruct (Hm r Hr) as (HI & HE & HP). unfold bind.
  destruct (m r) as [[x|a] r1]; cbn in *.
  - split; [exact HI|]. split; [|discriminate].
    intros y [= <-]. now apply HE.
  - apply (Hk a r1). split; auto.
Qed.

Lemma hoare_conseq {A} (Pre Pre' I : Renderer -> Prop) E
  (P Q : A -> Renderer -> Prop) m :
  hoare Pre m I E P ->
  (forall r, Pre' r -> Pre r) ->
  (forall a r, I r -> P a r -> Q a r) ->
  hoare Pre' m I E Q.
Proof.
  intros Hm H1 HPQ r Hr. destruct (Hm r (H1 r Hr)) as (HI & HE & HP).
  split; [auto|]. split; [exact HE|]. intros a Ha. apply HPQ; auto.
Qed.

Lemma hoare_ret {A} (Pre I : Renderer -> Prop) E
  (P : A -> Renderer -> Prop) a :
  (forall r, Pre r -> I r /\ P a r) -> hoare Pre (ret a) I E P.
Proof.
  intros HP r Hr. destruct (HP r Hr). split; [assumption|].
  split; [discriminate|]. now intros b [= <-].
Qed.

Lemma hoare_raise {A} (Pre I : Renderer -> Prop) (E : exn -> Prop)
  (P : A -> Renderer -> Prop) x :
  (forall r, Pre r -> I r) -> E x -> hoare Pre (raise x) I E P.
Proof.
  intros HI Hx r Hr. split; [now apply HI|]. split; [|discriminate].
  now intros y [= <-].
Qed.

Lemma hoare_gets {A} (Pre I : Renderer -> Prop) E
  (P : A -> Renderer -> Prop) (f : Renderer -> A) :
  (forall r, Pre r -> I r /\ P (f r) r) -> hoare Pre (gets f) I E P.
Proof.
  intros HP r Hr. destruct (HP r Hr). split; [assumption|].
  split; [discriminate|]. now intros b [= <-].
Qed.

Lemma hoare_modify (Pre I : Renderer -> Prop) E
  (P : unit -> Renderer -> Prop) f :
  (forall r, Pre r -> I (f r) /\ P tt (f r)) -> hoare Pre (modify f) I E P.
Proof.
  intros Hf r Hr. destruct (Hf r Hr) as [HI HP].
  split; [exact HI|]. split; [discriminate|]. now intros [] _.
Qed.

Lemma hoare_when (Pre I : Renderer -> Prop) E (b : bool)
  (m : M Renderer unit) :
  (forall r, Pre r -> I r) ->
  hoare Pre m I E (fun _ _ => True) ->
  hoare Pre (when b m) I E (fun _ _ => True).
Proof.
  intros HI Hm. unfold when. destruct b; [exact Hm|]. apply hoare_ret. auto.
Qed.

Lemma hoare_for {A} (I : Renderer -> Prop) E (l : list A) body :
  (forall a, a ∈ l -> hoare I (body a) I E (fun _ _ => True)) ->
  hoare I (for_ l body) I E (fun _ _ => True).
Proof.
  induction l as [|a l IH]; intros Hb; [apply hoare_ret; auto|].
  cbn [for_]. eapply hoare_bind; [apply Hb; left|].
  intros u. eapply hoare_conseq; [apply IH| |]; try tauto.
  intros b Hin. apply Hb. now right.
Qed.

Lemma hoare_for_break {A} (I : Renderer -> Prop) E (l : list A) body :
  (forall a, a ∈ l -> hoare I (body a) I E (fun _ _ => True)) ->
  hoare I (for_break l body) I E (fun _ _ => True).
Proof.
  induction l as [|a l IH]; intros Hb; [apply hoare_ret; auto|].
  cbn [for_break]. eapply hoare_bind; [apply Hb; left|].
  intros [|]; [|apply hoare_ret; tauto].
  eapply hoare_conseq; [apply IH| |]; try tauto.
  intros b Hin. apply Hb. now right.
Qed.

(** A call on the emulator keeps what does not read the emulator. *)
Lemma hoare_ale {A} (I : Renderer -> Prop) (E : exn -> Prop)
  (P : A -> Prop) (m : M Logged A) :
  (forall r w, I r -> I (set_env w r)) ->
  (forall w, (forall x, (m w).1 = inl x -> E x) /\
             (forall a, (m w).1 = inr a -> P a)) ->
  hoare I (ale m) I E (fun a _ => P a).
Proof.
  intros HI Hm r Hr. unfold ale, zoom.
  destruct (Hm (env r)) as [HE HP].
  destruct (m _) as [o w]. cbn in *. split; [now apply HI|]. split; auto.
Qed.

Lemma hoare_ale_run {A} (I : Renderer -> Prop) (E : exn -> Prop)
  (P : A -> Prop) (m : M Logged A) :
  (forall r, I r -> I (set_env (m (env r)).2 r)) ->
  (forall w, (forall x, (m w).1 = inl x -> E x) /\
             (forall a, (m w).1 = inr a -> P a)) ->
  hoare I (ale m) I E (fun a _ => P a).
Proof.
  intros HI Hm r Hr. unfold ale, zoom.
  destruct (Hm (env r)) as [HE HP]. specialize (HI r Hr).
  destruct (m _) as [o w]. cbn in *. split; [exact HI|]. split; auto.
Qed.

Lemma hoare_bind_val {A B} (I : Renderer -> Prop) E (P : A -> Prop)
  (Q : B -> Renderer -> Prop) m k :
  hoare I m I E (fun a _ => P a) ->
  (forall a, P a -> hoare I (k a) I E Q) ->
  hoare I (bind m k) I E Q.
Proof.
  intros Hm Hk. eapply hoare_bind; [exact Hm|].
  intros a r [Hr Ha]. now apply Hk.
Qed.

Lemma hoare_any {A} (I : Renderer -> Prop) E (P : A -> Prop) m :
  hoare I m I E (fun a _ => P a) -> hoare I m I E (fun _ _ => True).
Proof. intros Hm. eapply hoare_conseq; [exact Hm|auto|auto]. Qed.

(** *** The typed input *)

Lemma list_ascii_of_string_app s t :
  list_ascii_of_string (s +:+ t)
  = list_ascii_of_string s ++ list_ascii_of_string t.
Proof.
  induction s as [|c s IH]; [reflexivity|].
  change (String c s +:+ t) with (String c (s +:+ t)).
  cbn [list_ascii_of_string]. now rewrite IH.
Qed.

Lemma digits_only_app s t :
  digits_only s -> digits_only t -> digits_only (s +:+ t).
Proof.
  unfold digits_only. rewrite list_ascii_of_string_app. apply Forall_app_2.
Qed.

Lemma digits_only_drop_last s : digits_only s -> digits_only (drop_last s).
Proof.
  unfold digits_only. induction s as [|c s IH]; [done|].
  intros Hs. apply Forall_cons in Hs as [Hc Hs].
  destruct s as [|c' s]; [constructor|].
  change (drop_last (String c (String c' s)))
    with (String c (drop_last (String c' s))).
  cbn [list_ascii_of_string]. constructor; [exact Hc|]. now apply IH.
Qed.

(** [str] of a decimal digit is its one character. *)
Lemma str_digit d :
  0 <= d <= 9 ->
  exists c, str d = String c EmptyString /\ digit_of_ascii c = Some d.
Proof.
  intros Hd.
  assert (H : d = 0 \/ d = 1 \/ d = 2 \/ d = 3 \/ d = 4 \/ d = 5 \/ d = 6
              \/ d = 7 \/ d = 8 \/ d = 9) by lia.
  repeat (destruct H as [-> | H]); try subst d;
    eexists; split; vm_compute; reflexivity.
Qed.

Lemma digits_only_str d : 0 <= d <= 9 -> digits_only (str d).
Proof.
  intros Hd. destruct (str_digit d Hd) as (c & -> & Hc).
  repeat constructor. now rewrite Hc.
Qed.

Lemma int_digits_total s : forall acc,
  digits_only s -> is_Some (int_digits acc s).
Proof.
  unfold digits_only. induction s as [|c s IH]; intros acc Hs; cbn; [eauto|].
  apply Forall_cons in Hs as [[d Hd] Hs]. rewrite Hd. now apply IH.
Qed.

Lemma int_of_string_total s :
  digits_only s -> s <> EmptyString -> is_Some (int_of_string s).
Proof.
  intros Hs Hne. unfold int_of_string. destruct s; [done|].
  now apply int_digits_total.
Qed.

(** *** Invariants the event handler keeps *)

Section HandlerInvariant.

(** An invariant [I] that does not read the selection, the candidates,
    the keys, the mouse or the layout, that [running = False] keeps, and
    that admits any typed input made of digits when the input before
    was and the digit keys are at most ten; that reads of the
    environment at most the number of steps taken, and not even that
    when [Steps] holds; that does not read the pause when [Pause]
    holds; and a set [E] of exceptions with those of [handler_exn], and
    [ValueError] unless [I] makes the typed input a digit string. *)
Variable I : Renderer -> Prop.
Variable E : exn -> Prop.
Variables Steps Pause : Prop.
Hypothesis I_env : forall r w,
  I r ->
  Steps \/ count_steps (calls w) = count_steps (calls (env r)) ->
  I (set_env w r).
Hypothesis I_active : forall r a, I r -> I (set_active_cell_idx a r).
Hypothesis I_candidates : forall r c, I r -> I (set_candidate_cell_ids c r).
Hypothesis I_mouse : forall r p, I r -> I (set_current_mouse_pos p r).
Hypothesis I_no_render : forall r l, I r -> I (set_no_render l r).
Hypothesis I_keys_down : forall r ks, I r -> I (set_current_keys_down ks r).
Hypothesis I_layout : forall r l, I r -> I (set_layout l r).
Hypothesis I_fullscreen : forall r b, I r -> I (set_fullscreen b r).
Hypothesis I_paused : forall r b, Pause -> I r -> I (set_paused b r).
Hypothesis I_quit : forall r, I r -> I (set_running false r).
Hypothesis I_input : forall r s,
  I r ->
  (K_9 keys <= K_0 keys + 9 ->
   digits_only (current_active_cell_input r) -> digits_only s) ->
  I (set_current_active_cell_input s r).
Hypothesis E_handler : forall x, handler_exn x -> E x.
Hypothesis E_value : forall r,
  I r -> ~ digits_only (current_active_cell_input r) -> E ValueError.

Ltac hmod :=
  apply hoare_modify; intros ? ?; split; [auto|exact Logic.I].

Lemma inv_ale_getRAM :
  hoare I (ale ale_getRAM) I E (fun ram _ => Forall is_byte ram).
Proof.
  apply hoare_ale_run; [intros r Hr; apply I_env; auto|].
  intros w. split; [discriminate|].
  intros ram [= <-]. apply getRAM_byte.
Qed.

Lemma inv_ale_getScreenRGB :
  hoare I (ale ale_getScreenRGB) I E (fun _ _ => True).
Proof.
  apply (hoare_ale_run I E (fun _ => True));
    [intros r Hr; apply I_env; auto|].
  intros w. split; [discriminate|done].
Qed.

Lemma inv_env_step a :
  Steps -> hoare I (ale (env_step a)) I E (fun _ _ => True).
Proof.
  intros HS. apply (hoare_ale_run I E (fun _ => True));
    [intros r Hr; apply I_env; auto|].
  intros w. split; [discriminate|done].
Qed.

Lemma inv_env_reset : hoare I (ale env_reset) I E (fun _ _ => True).
Proof.
  apply (hoare_ale_run I E (fun _ => True)).
  - intros r Hr. apply I_env; [exact Hr|]. right.
    change (count_steps (calls (env r) ++ [CReset])
            = count_steps (calls (env r))).
    rewrite count_steps_app. cbn. lia.
  - intros w. split; [discriminate|done].
Qed.

Lemma inv_ale_setRAM i v :
  is_byte v -> hoare I (ale (ale_setRAM i v)) I E (fun _ _ => True).
Proof.
  intros Hv. apply (hoare_ale_run I E (fun _ => True)).
  { intros r Hr. apply I_env; [exact Hr|]. right.
    unfold ale_setRAM, bind, log, modify, on_emu, zoom, ALE_setRAM.
    cbn -[count_steps].
    destruct (decide (is_byte v)); [|done].
    destruct (decide _); cbn -[count_steps]; rewrite count_steps_app;
      cbn; lia. }
  intros w. split; [|done]. intros x.
  unfold ale_setRAM, bind, log, modify, on_emu, zoom, ALE_setRAM. cbn.
  destruct (decide (is_byte v)); [|done].
  destruct (decide _); cbn; [discriminate|].
  intros [= <-]. apply E_handler. unfold handler_exn. auto.
Qed.

Lemma inv_getitem {A} (l : list A) i (P : A -> Prop) :
  Forall P l -> hoare I (getitem l i) I E (fun a _ => P a).
Proof.
  intros Hl. unfold getitem. destruct (l !! i) as [a|] eqn:Ha.
  - apply hoare_ret. intros r Hr. split; [exact Hr|].
    rewrite Forall_lookup in Hl. eauto.
  - apply hoare_raise; [auto|]. apply E_handler. unfold handler_exn. auto.
Qed.

Lemma inv_getpixel frame y x :
  hoare I (getpixel frame y x) I E (fun _ _ => True).
Proof.
  unfold getpixel. eapply (hoare_bind_val I E (fun _ => True)).
  - apply inv_getitem. now apply Forall_true.
  - intros row _. apply (inv_getitem row x (fun _ => True)).
    now apply Forall_true.
Qed.

Lemma inv__set_ram ram :
  Forall is_byte ram -> hoare I (_set_ram ram) I E (fun _ _ => True).
Proof.
  intros Hb. unfold _set_ram. apply hoare_for. intros [k v] Hin.
  apply inv_ale_setRAM. unfold enumerate in Hin.
  apply elem_of_zip_with in Hin as (k' & v' & Heq & _ & Hv).
  simplify_eq. rewrite Forall_forall in Hb. auto.
Qed.

Lemma inv__unselect_active_cell :
  hoare I _unselect_active_cell I E (fun _ _ => True).
Proof.
  unfold _unselect_active_cell.
  eapply (hoare_bind_val I E (fun _ => True)); [hmod|]. intros _ _.
  apply hoare_modify. intros r Hr. split; [|exact Logic.I].
  apply I_input; [exact Hr|]. intros _ _. constructor.
Qed.

Lemma inv__get_cell_under_mouse :
  hoare I _get_cell_under_mouse I E (fun _ _ => True).
Proof. apply hoare_gets. auto. Qed.

Lemma inv_probe_cell ram x y p0 i :
  Steps -> Forall is_byte ram ->
  hoare I (probe_cell ram x y p0 i) I E (fun _ _ => True).
Proof.
  intros HS Hb. unfold probe_cell.
  eapply (hoare_bind_val I E (fun _ => True)); [hmod|]. intros _ _.
  apply hoare_for_break. intros v Hv.
  apply list_elem_of_singleton in Hv as ->.
  eapply (hoare_bind_val I E (fun _ => True)).
  { apply hoare_modify. intros r Hr. split; [|exact Logic.I].
    apply I_input; [exact Hr|]. intros _ _. apply digits_only_str. lia. }
  intros _ _.
  eapply hoare_bind_val; [apply inv_ale_setRAM; unfold is_byte; lia|].
  intros _ _. eapply hoare_bind_val; [now apply inv_env_step|].
  intros _ _. eapply hoare_bind_val; [apply inv_ale_getScreenRGB|].
  intros frame _.
  eapply (hoare_bind_val I E (fun _ => True)); [apply hoare_ret; auto|].
  intros _ _. eapply hoare_bind_val; [apply inv_getpixel|].
  intros p _. eapply hoare_bind_val; [now apply inv__set_ram|].
  intros _ _. destruct (np_any_ne p p0); [|apply hoare_ret; auto].
  eapply (hoare_bind_val I E (fun _ => True)); [hmod|]. intros _ _.
  apply hoare_ret. auto.
Qed.

Lemma inv_find_causative_ram x y :
  Steps -> hoare I (find_causative_ram x y) I E (fun _ _ => True).
Proof.
  intros HS. unfold find_causative_ram.
  eapply hoare_bind_val; [apply inv_ale_getRAM|]. intros ram Hram.
  eapply hoare_bind_val; [now apply inv_env_step|]. intros _ _.
  eapply hoare_bind_val; [apply inv_ale_getScreenRGB|]. intros frame _.
  eapply hoare_bind_val; [apply inv_getpixel|]. intros p0 _.
  eapply hoare_bind_val; [now apply inv__set_ram|]. intros _ _.
  eapply (hoare_bind_val I E (fun _ => True)); [hmod|]. intros _ _.
  eapply (hoare_bind_val I E (fun _ => True)).
  { apply hoare_for. intros i _. now apply inv_probe_cell. }
  intros _ _.
  eapply hoare_bind_val; [apply inv__unselect_active_cell|]. intros _ _.
  apply hoare_ret. auto.
Qed.

Lemma inv__get_ram_value_at idx :
  hoare I (_get_ram_value_at idx) I E (fun v _ => is_byte v).
Proof.
  unfold _get_ram_value_at.
  eapply hoare_bind_val; [apply inv_ale_getRAM|]. intros ram Hram.
  now apply inv_getitem.
Qed.

Lemma inv_wheel idx :
  hoare I (_increment_ram_value_at idx) I E (fun _ _ => True) /\
  hoare I (_decrement_ram_value_at idx) I E (fun _ _ => True).
Proof.
  unfold _increment_ram_value_at, _decrement_ram_value_at, _set_ram_value_at.
  split; (eapply hoare_bind_val; [apply inv__get_ram_value_at|]);
    intros v Hv; apply inv_ale_setRAM; unfold is_byte in *; lia.
Qed.

Lemma inv_int a :
  I a -> current_active_cell_input a <> EmptyString ->
  hoare I (int (current_active_cell_input a)) I E (fun n _ => 0 <= n).
Proof.
  intros Ha Hne. unfold int.
  destruct (int_of_string (current_active_cell_input a)) as [n|] eqn:Hn.
  - apply hoare_ret. intros r Hr. split; [exact Hr|].
    eapply int_of_string_nonneg; eauto.
  - apply hoare_raise; [auto|]. apply (E_value a Ha). intros Hd.
    destruct (int_of_string_total _ Hd Hne) as [n Hn']. congruence.
Qed.

Lemma inv_key_chain key : hoare I (key_chain key) I E (fun _ _ => True).
Proof.
  unfold key_chain.
  eapply (hoare_bind_val I E I); [apply hoare_gets; auto|].
  intros a Ha.
  destruct (key =? K_r keys); [apply inv_env_reset|].
  destruct ((key =? K_ESCAPE keys) && _);
    [apply inv__unselect_active_cell|].
  destruct (is_action_key a key); [hmod|].
  destruct ((K_0 keys <=? key) && (key <=? K_9 keys)) eqn:Hdig.
  { apply hoare_when; [auto|]. apply hoare_modify. intros r Hr.
    split; [|exact Logic.I]. apply I_input; [exact Hr|]. intros Hk Hd.
    apply digits_only_app; [exact Hd|]. apply digits_only_str. lia. }
  destruct ((K_KP1 keys <=? key) && (key <=? K_KP0 keys)).
  { apply hoare_when; [auto|]. apply hoare_modify. intros r Hr.
    split; [|exact Logic.I]. apply I_input; [exact Hr|]. intros _ Hd.
    apply digits_only_app; [exact Hd|]. apply digits_only_str.
    pose proof (Z.mod_pos_bound (key - K_KP1 keys + 1) 10). lia. }
  destruct (key =? K_BACKSPACE keys).
  { apply hoare_when; [auto|]. apply hoare_modify. intros r Hr.
    split; [|exact Logic.I]. apply I_input; [exact Hr|]. intros _.
    apply digits_only_drop_last. }
  destruct ((key =? K_RETURN keys) || (key =? K_KP_ENTER keys));
    [|apply hoare_ret; auto].
  destruct (active_cell_idx a) as [idx|]; [|apply hoare_ret; auto].
  eapply (hoare_bind_val I E (fun _ => True));
    [|intros _ _; apply inv__unselect_active_cell].
  destruct (0 <? String.length (current_active_cell_input a))%nat eqn:Hlen;
    [|apply hoare_ret; auto].
  unfold when at 1.
  eapply hoare_bind_val.
  { apply inv_int; [exact Ha|]. intros Hs. rewrite Hs in Hlen. discriminate. }
  intros n Hn. unfold when. destruct (n <? 256) eqn:Hlt.
  - apply inv_ale_setRAM. unfold is_byte. lia.
  - apply hoare_ret. auto.
Qed.

Lemma inv_handle_event ev :
  (ev = MOUSEBUTTONDOWN 1 -> Steps) ->
  (ev = KEYDOWN (K_p keys) -> Pause) ->
  hoare I (handle_event ev) I E (fun _ _ => True).
Proof.
  intros HS HP.
  destruct ev as [|button|key|key|]; cbn [handle_event].
  - hmod.
  - destruct (button =? 1) eqn:Hb.
    { apply Z.eqb_eq in Hb as ->.
      eapply (hoare_bind_val I E (fun _ => True)); [apply hoare_gets; auto|].
      intros pos _.
      destruct (_ <? 160)%nat; [now apply inv_find_causative_ram; auto|].
      eapply hoare_bind_val; [apply inv__get_cell_under_mouse|]. intros c _.
      eapply (hoare_bind_val I E (fun _ => True)); [hmod|]. intros _ _.
      apply hoare_modify. intros r Hr. split; [|exact Logic.I].
      apply I_input; [exact Hr|]. intros _ _. constructor. }
    destruct (button =? 3).
    { eapply hoare_bind_val; [apply inv__get_cell_under_mouse|]. intros c _.
      apply hoare_modify. intros r Hr. split; [|exact Logic.I].
      case_bool_decide; auto. }
    destruct (button =? 4).
    { eapply hoare_bind_val; [apply inv__get_cell_under_mouse|].
      intros [idx|] _; [apply inv_wheel | apply hoare_ret; auto]. }
    destruct (button =? 5); [|apply hoare_ret; auto].
    eapply hoare_bind_val; [apply inv__get_cell_under_mouse|].
    intros [idx|] _; [apply inv_wheel | apply hoare_ret; auto].
  - eapply (hoare_bind_val I E (fun _ => True)).
    { apply hoare_when; [auto|]. unfold toggle_fullscreen, _init_pygame.
      eapply (hoare_bind_val I E (fun _ => True)); [hmod|]. intros _ _. hmod. }
    intros _ _. eapply (hoare_bind_val I E (fun _ => True)).
    { unfold when. destruct (key =? K_p keys) eqn:Hp; [|apply hoare_ret; auto].
      apply Z.eqb_eq in Hp as ->. apply hoare_modify. intros r Hr.
      split; [|exact Logic.I]. apply I_paused; auto. }
    intros _ _. eapply (hoare_bind_val I E (fun _ => True)).
    { apply hoare_when; [auto|]. apply hoare_ret. auto. }
    intros _ _. apply inv_key_chain.
  - eapply (hoare_bind_val I E (fun _ => True)); [apply hoare_gets; auto|].
    intros a _. apply hoare_when; [auto|]. case_bool_decide; [hmod|].
    apply hoare_raise; [auto|]. apply E_handler. unfold handler_exn. auto.
  - apply hoare_ret. auto.
Qed.

Lemma inv__handle_user_input mouse events :
  (MOUSEBUTTONDOWN 1 ∈ events -> Steps) ->
  (KEYDOWN (K_p keys) ∈ events -> Pause) ->
  hoare I (_handle_user_input mouse events) I E (fun _ _ => True).
Proof.
  intros HS HP. unfold _handle_user_input.
  eapply (hoare_bind_val I E (fun _ => True)); [hmod|]. intros _ _.
  apply hoare_for. intros ev Hev.
  apply inv_handle_event; intros ->; auto.
Qed.

End HandlerInvariant.




Lemma for_app {S A} (l1 l2 : list A) (body : A -> M S unit) s :
  for_ (l1 ++ l2) body s = (for_ l1 body ;; for_ l2 body) s.
Proof.
  revert s. induction l1 as [|a l1 IH]; intros s; cbn [for_ app].
  - reflexivity.
  - unfold bind. destruct (body a s) as [[x|[]] s1]; [reflexivity|].
    rewrite IH. reflexivity.
Qed.

Lemma hoare_trivial {A} (Pre : Renderer -> Prop) (m : M Renderer A) :
  hoare Pre m (fun _ => True) (fun _ => True) (fun _ _ => True).
Proof. intros r _. auto. Qed.

Lemma hoare_inv_post {A} (Pre I : Renderer -> Prop) E
  (P : A -> Renderer -> Prop) (m : M Renderer A) :
  hoare Pre m I E P ->
  hoare Pre m (fun _ => True) E (fun _ r => I r).
Proof. intros Hm r Hr. destruct (Hm r Hr) as (HI & HE & _). auto. Qed.

Lemma hoare_ext {A} (Pre I : Renderer -> Prop) E
  (P : A -> Renderer -> Prop) (m m' : M Renderer A) :
  (forall r, m r = m' r) -> hoare Pre m' I E P -> hoare Pre m I E P.
Proof. intros Heq Hm r Hr. rewrite Heq. now apply Hm. Qed.

(** Once [running] is [False] neither an event nor the rest of the
    round sets it again. *)
Lemma events_keep_stopped events :
  hoare (fun r => running r = false) (for_ events handle_event)
        (fun r => running r = false) (fun _ => True) (fun _ _ => True).
Proof.
  apply hoare_for. intros ev _.
  apply inv_handle_event with (Steps := True) (Pause := True); cbn; auto.
Qed.

Lemma stopped_after_quit mouse events :
  QUIT ∈ events ->
  hoare (fun _ => True) (run_frame (mouse, events))
        (fun _ => True) (fun _ => True) (fun _ r => running r = false).
Proof.
  intros Hq. apply list_elem_of_split in Hq as (pre & post & ->).
  unfold run_frame, _handle_user_input. cbn [fst snd].
  eapply hoare_bind with (P := fun _ r => running r = false).
  - eapply hoare_bind; [apply hoare_trivial|]. intros [].
    eapply hoare_ext; [intros r; apply for_app|].
    eapply hoare_bind; [apply hoare_trivial|]. intros [].
    cbn [for_ handle_event].
    eapply hoare_bind with (P := fun _ r => running r = false).
    + apply hoare_modify. auto.
    + intros []. eapply hoare_conseq.
      * eapply hoare_inv_post. apply events_keep_stopped.
      * cbn. tauto.
      * cbn. auto.
  - intros []. cbn beta.
    eapply hoare_conseq with (Pre := fun r => running r = false)
                             (P := fun _ r => running r = false);
      [|tauto|auto].
    apply hoare_inv_post with (P := fun _ _ => True).
    eapply (hoare_bind_val (fun r => running r = false) (fun _ => True)
              (fun _ => True)); [apply hoare_gets; auto|].
    intros p _.
    eapply (hoare_bind_val (fun r => running r = false) (fun _ => True)
              (fun _ => True)); [|intros _ _; apply hoare_ret; auto].
    apply hoare_when; [auto|].
    eapply (hoare_bind_val (fun r => running r = false) (fun _ => True)
              (fun _ => True)); [apply hoare_gets; auto|].
    intros a _. apply inv_env_step with (Steps := True); auto.
Qed.

(** A round whose events hold QUIT is the last one of the loop. *)
Lemma quit_ends_run_loop mouse events inputs r :
  running r = true ->
  QUIT ∈ events ->
  run_loop ((mouse, events) :: inputs) r = run_frame (mouse, events) r.
Proof.
  intros Hrun Hq. cbn [run_loop].
  erewrite bind_ok by reflexivity.
  case_match; [|congruence].
  destruct (stopped_after_quit mouse events Hq r Logic.I) as (_ & _ & Hstop).
  unfold bind at 1.
  destruct (run_frame (mouse, events) r) as [[x|[]] r1]; [reflexivity|].
  specialize (Hstop tt eq_refl). cbn in Hstop.
  destruct inputs as [|input inputs]; [reflexivity|].
  cbn [run_loop]. unfold bind, gets. case_match; [congruence|reflexivity].
Qed.

(** X11. A round whose events hold QUIT is the last one: [run]
    finishes that round, its environment step included, and takes no
    further round, whatever pygame would report next. *)
Theorem quit_ends_run mouse events inputs r :
  QUIT ∈ events ->
  run ((mouse, events) :: inputs) r = run [(mouse, events)] r.
Proof.
  intros Hq. unfold run.
  erewrite !bind_ok by (unfold modify; reflexivity).
  rewrite (quit_ends_run_loop mouse events inputs),
    (quit_ends_run_loop mouse events []);
    solve [reflexivity | exact Hq].
Qed.

(** *** Typing into a cell and the keys held down *)

Lemma keydown_prelude_fields key r :
  env (keydown_prelude key r) = env r /\
  active_cell_idx (keydown_prelude key r) = active_cell_idx r /\
  current_active_cell_input (keydown_prelude key r)
    = current_active_cell_input r /\
  keys2actions (keydown_prelude key r) = keys2actions r /\
  current_keys_down (keydown_prelude key r) = current_keys_down r.
Proof.
  unfold keydown_prelude.
  destruct (key =? K_F11 keys), (key =? K_p keys); repeat split.
Qed.

Lemma plain_key_ext r1 r2 key :
  keys2actions r1 = keys2actions r2 -> plain_key r1 key -> plain_key r2 key.
Proof.
  unfold plain_key, is_action_key. intros Hk (H1 & H2 & H3).
  repeat split; try assumption. now rewrite <- Hk.
Qed.

Lemma key_chain_digit key r idx :
  plain_key r key ->
  K_0 keys <= key <= K_9 keys ->
  active_cell_idx r = Some idx ->
  key_chain key r =
  (inr tt,
   set_current_active_cell_input
     (current_active_cell_input r +:+ str (key - K_0 keys)) r).
Proof.
  intros (Hr & Hesc & Hact) Hd Hidx. unfold key_chain.
  erewrite bind_ok by (unfold gets, id; reflexivity).
  assert ((key =? K_r keys) = false) as -> by lia.
  assert ((key =? K_ESCAPE keys) = false) as -> by lia.
  rewrite Hact.
  assert (((K_0 keys <=? key) && (key <=? K_9 keys)) = true) as -> by lia.
  cbn [andb]. rewrite Hidx. reflexivity.
Qed.

Lemma key_chain_backspace r idx :
  plain_key r (K_BACKSPACE keys) ->
  ~ (K_0 keys <= K_BACKSPACE keys <= K_9 keys) ->
  ~ (K_KP1 keys <= K_BACKSPACE keys <= K_KP0 keys) ->
  active_cell_idx r = Some idx ->
  key_chain (K_BACKSPACE keys) r =
  (inr tt,
   set_current_active_cell_input
     (drop_last (current_active_cell_input r)) r).
Proof.
  intros (Hr & Hesc & Hact) Hd Hkp Hidx. unfold key_chain.
  erewrite bind_ok by (unfold gets, id; reflexivity).
  assert ((K_BACKSPACE keys =? K_r keys) = false) as -> by lia.
  assert ((K_BACKSPACE keys =? K_ESCAPE keys) = false) as -> by lia.
  rewrite Hact.
  assert (((K_0 keys <=? K_BACKSPACE keys)
           && (K_BACKSPACE keys <=? K_9 keys)) = false) as -> by lia.
  assert (((K_KP1 keys <=? K_BACKSPACE keys)
           && (K_BACKSPACE keys <=? K_KP0 keys)) = false) as -> by lia.
  rewrite Z.eqb_refl. cbn [andb]. rewrite Hidx. reflexivity.
Qed.

Lemma drop_last_snoc s c : drop_last (s +:+ String c EmptyString) = s.
Proof.
  induction s as [|c' s IH]; [reflexivity|].
  change (String c' s +:+ String c EmptyString)
    with (String c' (s +:+ String c EmptyString)).
  destruct s as [|c'' s]; [reflexivity|].
  change (String c'' s +:+ String c EmptyString)
    with (String c'' (s +:+ String c EmptyString)) in *.
  cbn [drop_last] in *. now rewrite IH.
Qed.

(** X12. Typing a digit into the selected cell and pressing BACKSPACE
    gives back the typed input as it was, and leaves the selection and
    the emulator alone. *)
Theorem type_then_backspace mouse r idx key :
  K_9 keys <= K_0 keys + 9 ->
  active_cell_idx r = Some idx ->
  plain_key r key ->
  K_0 keys <= key <= K_9 keys ->
  plain_key r (K_BACKSPACE keys) ->
  ~ (K_0 keys <= K_BACKSPACE keys <= K_9 keys) ->
  ~ (K_KP1 keys <= K_BACKSPACE keys <= K_KP0 keys) ->
  exists r',
    _handle_user_input mouse [KEYDOWN key; KEYDOWN (K_BACKSPACE keys)] r
    = (inr tt, r') /\
    current_active_cell_input r' = current_active_cell_input r /\
    active_cell_idx r' = Some idx /\
    env r' = env r.
Proof.
  intros Hk Hidx Hplain Hdig Hbs Hbs1 Hbs2.
  destruct (str_digit (key - K_0 keys)) as (c & Hc & _); [lia|].
  unfold _handle_user_input. unfold bind at 1. cbn [modify for_].
  set (r0 := set_current_mouse_pos mouse r).
  destruct (keydown_prelude_fields key r0) as (He1 & Ha1 & Hi1 & Hk1 & _).
  erewrite bind_ok.
  2:{ rewrite handle_keydown. apply (key_chain_digit _ _ idx); try assumption.
      - apply (plain_key_ext r); [now rewrite Hk1|exact Hplain].
      - now rewrite Ha1. }
  set (r1 := set_current_active_cell_input _ _).
  destruct (keydown_prelude_fields (K_BACKSPACE keys) r1)
    as (He2 & Ha2 & Hi2 & Hk2 & _).
  erewrite bind_ok.
  2:{ rewrite handle_keydown. apply (key_chain_backspace _ idx);
        try assumption.
      - apply (plain_key_ext r); [|exact Hbs]. rewrite Hk2. subst r1. cbn.
        now rewrite Hk1.
      - rewrite Ha2. subst r1. cbn. now rewrite Ha1. }
  eexists. split; [reflexivity|].
  cbn. rewrite Hi2, He2, Ha2. subst r1. cbn. rewrite Hi1, He1, Ha1, Hc.
  rewrite drop_last_snoc. subst r0. auto.
Qed.












Lemma key_chain_action key r :
  key <> K_r keys ->
  ~ (key = K_ESCAPE keys /\ is_Some (active_cell_idx r)) ->
  is_action_key r key = true ->
  key_chain key r =
  (inr tt, set_current_keys_down ({[ key ]} ∪ current_keys_down r) r).
Proof.
  intros Hr Hesc Hact. unfold key_chain.
  erewrite bind_ok by (unfold gets, id; reflexivity).
  assert ((key =? K_r keys) = false) as -> by lia.
  assert ((key =? K_ESCAPE keys)
          && bool_decide (is_Some (active_cell_idx r)) = false) as ->.
  { apply andb_false_iff.
    destruct (Z.eqb_spec key (K_ESCAPE keys)); [|now left]. right.
    apply bool_decide_eq_false. tauto. }
  rewrite Hact. reflexivity.
Qed.

(** X15. Pressing an action key records it among the keys held down
    and releasing it takes it out again: after the press and the
    release, the keys held down are those from before without the key,
    and the emulator has not been called. *)
Theorem action_key_press_release mouse r key :
  key <> K_r keys ->
  ~ (key = K_ESCAPE keys /\ is_Some (active_cell_idx r)) ->
  is_action_key r key = true ->
  (exists r1,
     _handle_user_input mouse [KEYDOWN key] r = (inr tt, r1) /\
     current_keys_down r1 = {[ key ]} ∪ current_keys_down r) /\
  (exists r2,
     _handle_user_input mouse [KEYDOWN key; KEYUP key] r = (inr tt, r2) /\
     current_keys_down r2 = current_keys_down r ∖ {[ key ]} /\
     env r2 = env r).
Proof.
  intros Hr Hesc Hact.
  pose (r0 := set_current_mouse_pos mouse r).
  destruct (keydown_prelude_fields key r0) as (He1 & Ha1 & _ & Hk1 & Hd1).
  assert (Hchain : handle_event (KEYDOWN key) r0 =
    (inr tt, set_current_keys_down
               ({[ key ]} ∪ current_keys_down (keydown_prelude key r0))
               (keydown_prelude key r0))).
  { rewrite handle_keydown. apply key_chain_action; [exact Hr| |].
    - now rewrite Ha1.
    - unfold is_action_key in *. now rewrite Hk1. }
  split.
  - unfold _handle_user_input. unfold bind at 1. cbn [modify for_]. fold r0.
    erewrite bind_ok by exact Hchain. eexists. split; [reflexivity|].
    cbn. now rewrite Hd1.
  - unfold _handle_user_input. unfold bind at 1. cbn [modify for_]. fold r0.
    erewrite bind_ok by exact Hchain.
    set (r1 := set_current_keys_down _ _).
    assert (Hact1 : is_action_key r1 key = true).
    { unfold is_action_key in *. subst r1. cbn. now rewrite Hk1. }
    cbn [handle_event]. unfold bind, gets, id, when. rewrite Hact1.
    rewrite bool_decide_eq_true_2
      by (subst r1; cbn; apply elem_of_union_l, elem_of_singleton_2;
          reflexivity).
    eexists. split; [reflexivity|]. cbn. rewrite Hd1, He1. subst r0. cbn.
    split; [|reflexivity]. apply set_eq. intros x.
    rewrite !elem_of_difference, elem_of_union, elem_of_singleton. tauto.
Qed.

(** X16. Releasing an action key that is not recorded as held down
    raises [KeyError] and changes nothing.  This is what follows a press
    of 'R' when 'R' is also bound to an action: the press resets the
    environment without recording the key, and the release raises. *)
Theorem release_unrecorded_key_raises mouse r key :
  is_action_key r key = true ->
  key ∉ current_keys_down r ->
  _handle_user_input mouse [KEYUP key] r
  = (inl KeyError, set_current_mouse_pos mouse r) /\
  (key = K_r keys ->
   (_handle_user_input mouse [KEYDOWN key; KEYUP key] r).1 = inl KeyError).
Proof.
  intros Hact Hnot. split.
  - unfold _handle_user_input. unfold bind at 1. cbn [modify for_ handle_event].
    unfold bind, gets, id, when.
    change (is_action_key (set_current_mouse_pos mouse r) key)
      with (is_action_key r key). rewrite Hact.
    rewrite bool_decide_eq_false_2 by exact Hnot. reflexivity.
  - intros ->.
    unfold _handle_user_input. unfold bind at 1. cbn [modify for_].
    set (r0 := set_current_mouse_pos mouse r).
    destruct (keydown_prelude_fields (K_r keys) r0)
      as (He1 & Ha1 & _ & Hk1 & Hd1).
    assert (exists r1,
      handle_event (KEYDOWN (K_r keys)) r0 = (inr tt, r1) /\
      keys2actions r1 = keys2actions r /\
      current_keys_down r1 = current_keys_down r) as (r1 & Hreset & Hk2 & Hd2).
    { rewrite handle_keydown. unfold key_chain.
      erewrite bind_ok by (unfold gets, id; reflexivity).
      rewrite Z.eqb_refl. unfold ale, zoom, env_reset, bind, gets, modify.
      cbn. eexists. split; [reflexivity|]. cbn. now rewrite Hk1, Hd1. }
    erewrite bind_ok by exact Hreset.
    assert (Hact1 : is_action_key r1 (K_r keys) = true).
    { unfold is_action_key in *. now rewrite Hk2. }
    cbn [handle_event]. unfold bind, gets, id, when. rewrite Hact1.
    rewrite bool_decide_eq_false_2; [reflexivity|]. now rewrite Hd2.
Qed.

Lemma list_remove_first_NoDup {A} `{EqDecision A} (a : A) l :
  NoDup l ->
  NoDup (list_remove_first a l) /\
  forall b, b ∈ list_remove_first a l <-> b ∈ l /\ b <> a.
Proof.
  induction 1 as [|b l Hb Hl [IH1 IH2]]; cbn.
  - split; [constructor|]. intros c. rewrite elem_of_nil. tauto.
  - destruct (decide (b = a)) as [->|Hne].
    + split; [exact Hl|]. intros c. rewrite elem_of_cons.
      split; [intros Hc; split; [auto|intros ->; tauto]|].
      intros [[->|Hc] Hca]; tauto.
    + split.
      * constructor; [|exact IH1]. rewrite IH2. tauto.
      * intros c. rewrite !elem_of_cons, IH2.
        split; [intros [->|[? ?]]; auto|intros [[?|?] ?]; auto].
Qed.

(** X17. A right click toggles the cell under the mouse in the list of
    hidden cells: the cell is in the list afterwards exactly when it was
    not before, every other entry stays, the list stays free of
    duplicates, and the emulator is not called. *)
Theorem right_click_toggles mouse r :
  NoDup (no_render r) ->
  exists c r',
    _get_cell_under_mouse (set_current_mouse_pos mouse r)
    = (inr c, set_current_mouse_pos mouse r) /\
    _handle_user_input mouse [MOUSEBUTTONDOWN 3] r = (inr tt, r') /\
    NoDup (no_render r') /\
    (c ∈ no_render r' <-> c ∉ no_render r) /\
    (forall c', c' <> c -> c' ∈ no_render r' <-> c' ∈ no_render r) /\
    env r' = env r.
Proof.
  intros Hnd.
  set (r0 := set_current_mouse_pos mouse r).
  destruct (_get_cell_under_mouse r0) as [res r0'] eqn:Hcell.
  assert (exists c, res = inr c /\ r0' = r0) as (c & -> & ->).
  { unfold _get_cell_under_mouse, gets in Hcell.
    injection Hcell as <- <-. eauto. }
  exists c.
  unfold _handle_user_input. unfold bind at 1. cbn [modify for_ handle_event].
  fold r0. cbn [Z.eqb Pos.eqb].
  erewrite bind_ok.
  2:{ erewrite bind_ok by exact Hcell. reflexivity. }
  cbn [for_]. unfold ret.
  destruct (list_remove_first_NoDup c (no_render r) Hnd) as [Hnd' Hin].
  change (no_render r0) with (no_render r).
  destruct (bool_decide (c ∈ no_render r)) eqn:Hmem.
  - apply bool_decide_eq_true in Hmem.
    eexists. split; [reflexivity|]. split; [reflexivity|]. cbn.
    split; [exact Hnd'|]. split; [rewrite Hin; tauto|].
    split; [|reflexivity]. intros c' Hc'. rewrite Hin. tauto.
  - apply bool_decide_eq_false in Hmem.
    eexists. split; [reflexivity|]. split; [reflexivity|]. cbn.
    split; [|split; [|split; [|reflexivity]]].
    + apply NoDup_app. split; [exact Hnd|]. split; [|apply NoDup_singleton].
      intros x Hx ->%list_elem_of_singleton. tauto.
    + rewrite elem_of_app, list_elem_of_singleton. tauto.
    + intros c' Hc'. rewrite elem_of_app, list_elem_of_singleton. tauto.
Qed.

(** *** Rounds of the main loop *)

(** Events other than a left click take no step, and without the 'P'
    key among them the pause stays as it is. *)
Lemma events_take_no_step mouse events c p :
  MOUSEBUTTONDOWN 1 ∉ events ->
  hoare (fun r => count_steps (calls (env r)) = c /\
                  (KEYDOWN (K_p keys) ∉ events -> paused r = p))
        (_handle_user_input mouse events)
        (fun r => count_steps (calls (env r)) = c /\
                  (KEYDOWN (K_p keys) ∉ events -> paused r = p))
        (fun _ => True) (fun _ _ => True).
Proof.
  intros Hclick.
  apply inv__handle_user_input
    with (Steps := False) (Pause := KEYDOWN (K_p keys) ∈ events);
    cbn -[count_steps]; auto.
  - intros r w [Hc Hp] [[]|Hw]. split; [now rewrite Hw|exact Hp].
  - intros r b Hin [Hc Hp]. split; [exact Hc|]. intros Hn. contradiction.
Qed.

(** X18. A round without a left click steps the environment exactly
    once when the game is not paused at the end of its events, and not
    at all when it is paused or when an event raised; without the 'P'
    key among the events the pause stays as it was.  So while paused,
    wheel edits, typed values and resets never advance the game. *)
Theorem round_steps_once_unless_paused mouse events r :
  MOUSEBUTTONDOWN 1 ∉ events ->
  let out := run_frame (mouse, events) r in
  count_steps (calls (env out.2))
  = (count_steps (calls (env r))
     + match out.1 with
       | inr _ => if paused out.2 then 0 else 1
       | inl _ => 0
       end)%nat /\
  (KEYDOWN (K_p keys) ∉ events -> paused out.2 = paused r).
Proof.
  intros Hclick out.
  destruct (events_take_no_step mouse events (count_steps (calls (env r)))
              (paused r) Hclick r) as ([Hc Hp] & _ & _); [auto|].
  subst out. unfold run_frame, bind. cbn [fst snd].
  destruct (_handle_user_input mouse events r) as [[x|[]] r1];
    cbn [snd] in Hc, Hp.
  - cbn [fst snd]. split; [lia|exact Hp].
  - unfold gets, when, _get_action, _render, ret, bind.
    destruct (negb _) eqn:Hneg; cbn -[count_steps].
    + apply negb_true_iff in Hneg. rewrite count_steps_app.
      split; [|exact Hp].
      destruct (paused r1) eqn:Hz;
        [exfalso; exact (eq_true_false_abs _ Hz Hneg)|].
      cbn. lia.
    + apply negb_false_iff in Hneg.
      split; [|exact Hp].
      destruct (paused r1) eqn:Hz;
        [|exfalso; exact (eq_true_false_abs _ Hneg Hz)].
      lia.
Qed.

Lemma dict_get_elem (d : list (list Z * Z)) k a :
  NoDup d.*1 -> (k, a) ∈ d -> dict_get d k = Some a.
Proof.
  induction d as [|[k' a'] d IH]; intros Hnd Hin; [inversion Hin|].
  cbn in Hnd. apply NoDup_cons in Hnd as [Hk' Hnd]. cbn [dict_get].
  apply elem_of_cons in Hin as [[= -> ->]|Hin].
  - now rewrite decide_True.
  - rewrite decide_False; [now apply IH|]. intros ->. apply Hk'.
    apply list_elem_of_fmap. now exists (k, a).
Qed.

Lemma dict_get_Some (d : list (list Z * Z)) k a :
  dict_get d k = Some a -> (k, a) ∈ d.
Proof.
  induction d as [|[k' a'] d IH]; [discriminate|]. cbn [dict_get].
  destruct (decide (k' = k)) as [->|Hne].
  - intros [= ->]. apply elem_of_cons. now left.
  - intros H. apply elem_of_cons. right. now apply IH.
Qed.

Lemma sorted_keys_down (ks : list Z) (X : gset Z) :
  StronglySorted Z.lt ks -> X = list_to_set ks ->
  merge_sort Z.le (elements X) = ks.
Proof.
  intros Hs ->.
  assert (Hnd : NoDup ks).
  { induction Hs as [|k ks Hs IH Hk]; constructor; [|exact IH].
    intros Hin. rewrite Forall_forall in Hk. specialize (Hk _ Hin). lia. }
  apply (StronglySorted_unique Z.le).
  - apply StronglySorted_merge_sort; apply _.
  - clear Hnd. induction Hs as [|k ks Hs IH Hk]; constructor; [exact IH|].
    eapply Forall_impl; [exact Hk|]. intros; cbn in *; lia.
  - rewrite merge_sort_Permutation. now apply elements_list_to_set.
Qed.

(** X19. [_get_action] finds the action of a key combination: when the
    keys held down are exactly those of a tuple of [keys2actions] that
    is in increasing order, it returns the action bound to that tuple,
    in whatever order the keys were pressed. *)
Theorem get_action_bound r ks a :
  NoDup (keys2actions r).*1 ->
  (ks, a) ∈ keys2actions r ->
  StronglySorted Z.lt ks ->
  current_keys_down r = list_to_set ks ->
  _get_action r = (inr a, r).
Proof.
  intros Hnd Hin Hs Hdown. unfold _get_action, gets.
  rewrite (sorted_keys_down ks _ Hs Hdown).
  now rewrite (dict_get_elem _ _ _ Hnd Hin).
Qed.

(** X20. [_get_action] never takes a partial match: when no tuple of
    [keys2actions] has exactly the keys that are held down, the action
    is NOOP, also when some of the keys held are bound on their own. *)
Theorem get_action_noop r :
  (forall ks a, (ks, a) ∈ keys2actions r ->
                list_to_set ks <> current_keys_down r) ->
  _get_action r = (inr 0, r).
Proof.
  intros Hnone. unfold _get_action, gets.
  destruct (dict_get _ _) as [a|] eqn:Hget; [|reflexivity].
  apply dict_get_Some in Hget. apply Hnone in Hget. exfalso. apply Hget.
  apply set_eq. intros k.
  rewrite elem_of_list_to_set, merge_sort_Permutation. apply elem_of_elements.
Qed.

(** *** fishingderby.py: what the modes establish *)

(** X21. After [alter_fish] every fish cell 69..74 is on the side its
    mode names: at most 86 in mode 1 (the player's side), at least 70 in
    mode 2 (the enemy's side), within [70, 86] in mode 3; a cell that
    was on that side already keeps its value. *)
Theorem fish_modes_confine g e :
  (74 < length (getRAM e))%nat ->
  exists e', alter_fish g e = (inr tt, e') /\
    forall j v, (69 <= j <= 74)%nat -> getRAM e !! j = Some v ->
      exists v', getRAM e' !! j = Some v' /\
        (FISH_MODE g = 1 -> v' <= 86 /\ (v <= 86 -> v' = v)) /\
        (FISH_MODE g = 2 -> 70 <= v' /\ (70 <= v -> v' = v)) /\
        (FISH_MODE g = 3 -> 70 <= v' <= 86 /\ (70 <= v <= 86 -> v' = v)).
Proof.
  intros Hlen. destruct (alter_fish_run g e Hlen) as (e' & Hrun & Hram).
  exists e'. split; [exact Hrun|]. intros j v Hj Hv.
  exists (fish_next (FISH_MODE g) v). split.
  - rewrite Hram, fish_ram_lookup, bool_decide_eq_true_2 by exact Hj.
    now rewrite Hv.
  - unfold fish_next. repeat split; intros; repeat case_match; lia.
Qed.

(** X22. The two "no movement" modes pin the shark: whatever cell 75
    holds, [alter_shark] leaves it at 105 in mode 1 and at 25 in
    mode 2, so a second call changes nothing. *)
Theorem shark_pin_modes g e v :
  SHARK_MODE g = 1 \/ SHARK_MODE g = 2 ->
  getRAM e !! 75%nat = Some v ->
  exists e', alter_shark g e = (inr tt, e') /\
    getRAM e' !! 75%nat = Some (if SHARK_MODE g =? 1 then 105 else 25) /\
    (forall j, j <> 75%nat -> getRAM e' !! j = getRAM e !! j).
Proof.
  intros Hm Hv. destruct (alter_shark_run g e v Hv) as (e' & Hrun & Hram).
  exists e'. split; [exact Hrun|]. rewrite Hram. split.
  - rewrite list_lookup_insert_eq by (eapply lookup_lt_Some; eauto).
    unfold shark_next. destruct Hm as [-> | ->]; reflexivity.
  - intros j Hj. now apply list_lookup_insert_ne.
Qed.

(** X23. A mode number outside the modes of a patcher switches it off:
    with [SHARK_MODE] not in 1..4, [alter_shark] returns without
    touching the emulator, and so does [alter_fish] with [FISH_MODE]
    not in 1..3, on any RAM, even one too short to hold the cells.
    [modif_funcs] accepts such digits: "s7" registers [alter_shark]
    and every call of it does nothing. *)
Theorem modes_out_of_range_do_nothing g e :
  (~ (1 <= SHARK_MODE g <= 4) -> alter_shark g e = (inr tt, e)) /\
  (~ (1 <= FISH_MODE g <= 3) -> alter_fish g e = (inr tt, e)).
Proof.
  split; intros Hm.
  - unfold alter_shark, when.
    destruct (0 <? SHARK_MODE g) eqn:Hpos; [|reflexivity].
    assert ((SHARK_MODE g =? 1) = false) as -> by lia.
    assert ((SHARK_MODE g =? 2) = false) as -> by lia.
    assert ((SHARK_MODE g =? 3) = false) as -> by lia.
    assert ((SHARK_MODE g =? 4) = false) as -> by lia.
    reflexivity.
  - unfold alter_fish, when.
    destruct (0 <? FISH_MODE g) eqn:Hpos; [|reflexivity].
    assert ((FISH_MODE g =? 1) = false) as -> by lia.
    assert ((FISH_MODE g =? 2) = false) as -> by lia.
    assert ((FISH_MODE g =? 3) = false) as -> by lia.
    reflexivity.
Qed.

End ALE.

Arguments mkRenderer {Env}.
Arguments mkLogged {Env}.
Arguments env {Env}.
Arguments emu {Env}.
Arguments calls {Env}.
Arguments candidate_cell_ids {Env}.
Arguments active_cell_idx {Env}.
Arguments current_active_cell_input {Env}.

(** ** [modif_funcs] *)

Lemma int_of_one_char c : int_of_string (String c EmptyString) = digit_of_ascii c.
Proof.
  unfold int_of_string. cbn. destruct (digit_of_ascii c) as [d|]; [|done].
  first [reflexivity | f_equal; lia].
Qed.

Lemma modif_body_run mod_ n fr :
  mod_n_of mod_ = Some n ->
  modif_body mod_ fr =
  (inr tt, {| glob := modif_globals (glob fr) mod_;
              step_modifs := step_modifs fr ++ modif_entry mod_;
              reset_modifs := reset_modifs fr |}).
Proof.
  intros Hn. unfold modif_body, modif_globals, modif_entry. rewrite Hn.
  unfold mod_n_of in Hn. destruct (last_char mod_) as [c|]; [|done].
  unfold bind, ret, int. rewrite int_of_one_char, Hn.
  destruct (startswith mod_ "f"); [reflexivity|].
  destruct (startswith mod_ "s"); [reflexivity|].
  destruct fr. cbn. now rewrite app_nil_r.
Qed.

Lemma modif_body_raise mod_ fr :
  mod_n_of mod_ = None -> exists x, modif_body mod_ fr = (inl x, fr).
Proof.
  intros Hn. unfold modif_body, mod_n_of in *.
  destruct (last_char mod_) as [c|].
  - exists ValueError. unfold bind, ret, int.
    now rewrite int_of_one_char, Hn.
  - now exists IndexError.
Qed.

Lemma modif_loop_run modifs : forall fr,
  Forall (fun mod_ => is_Some (mod_n_of mod_)) modifs ->
  for_ modifs modif_body fr =
  (inr tt, {| glob := foldl modif_globals (glob fr) modifs;
              step_modifs := step_modifs fr ++ flat_map modif_entry modifs;
              reset_modifs := reset_modifs fr |}).
Proof.
  induction modifs as [|mod_ modifs IH]; intros fr Hall.
  - destruct fr. cbn. now rewrite app_nil_r.
  - apply Forall_cons in Hall as [[n Hn] Hall]. cbn [for_].
    unfold bind. rewrite (modif_body_run _ n) by exact Hn.
    rewrite IH by exact Hall. cbn. now rewrite <- app_assoc.
Qed.

Lemma modif_loop_raise modifs : forall fr,
  ~ Forall (fun mod_ => is_Some (mod_n_of mod_)) modifs ->
  exists x fr', for_ modifs modif_body fr = (inl x, fr').
Proof.
  induction modifs as [|mod_ modifs IH]; intros fr Hnot.
  - exfalso. apply Hnot. constructor.
  - cbn [for_]. unfold bind.
    destruct (mod_n_of mod_) as [n|] eqn:Hn.
    + rewrite (modif_body_run _ n) by exact Hn.
      apply IH. intros Hall. apply Hnot. constructor; [eauto|exact Hall].
    + destruct (modif_body_raise mod_ fr Hn) as [x ->]. eauto.
Qed.

(** C9, amended. For a list of modification strings each of which ends
    in a decimal digit, [modif_funcs] returns: [reset_modifs] is empty,
    [step_modifs] holds, in order, [alter_fish] for each string that
    starts with 'f' and [alter_shark] for each that starts with 's', a
    string that starts with neither adds nothing, and each such string
    has set its mode global to the digit.  A list with a string that is
    empty or does not end in a digit makes the call raise instead. *)
Theorem modif_funcs_on_digit_strings modifs g :
  Forall (fun mod_ => is_Some (mod_n_of mod_)) modifs ->
  modif_funcs modifs g =
  (inr (flat_map modif_entry modifs, []), foldl modif_globals g modifs) /\
  (forall mod_ n, mod_n_of mod_ = Some n ->
     (startswith mod_ "f" = true ->
      modif_entry mod_ = [alter_fish_fn] /\
      modif_globals g mod_ = set_FISH_MODE n g) /\
     (startswith mod_ "f" = false -> startswith mod_ "s" = true ->
      modif_entry mod_ = [alter_shark_fn] /\
      modif_globals g mod_ = set_SHARK_MODE n g) /\
     (startswith mod_ "f" = false -> startswith mod_ "s" = false ->
      modif_entry mod_ = [] /\ modif_globals g mod_ = g)).
Proof.
  intros Hall. split.
  - unfold modif_funcs. now rewrite modif_loop_run.
  - intros mod_ n Hn. unfold modif_entry, modif_globals. rewrite Hn.
    repeat split; intros; repeat case_match; simplify_eq; done.
Qed.

(** A string that does not end in a digit makes [modif_funcs] raise. *)
Lemma modif_funcs_raises modifs g :
  ~ Forall (fun mod_ => is_Some (mod_n_of mod_)) modifs ->
  exists x, (modif_funcs modifs g).1 = inl x.
Proof.
  intros Hnot. unfold modif_funcs.
  destruct (modif_loop_raise modifs
              {| glob := g; step_modifs := []; reset_modifs := [] |} Hnot)
    as (x & fr' & ->).
  now exists x.
Qed.

(** The strings ["f3"; "x9"; "s4"]: fish mode 3, nothing, shark mode 4. *)
Lemma modif_funcs_on_digit_strings_witness :
  Forall (fun mod_ => is_Some (mod_n_of mod_))
         ["f3"%string; "x9"%string; "s4"%string] /\
  modif_funcs ["f3"%string; "x9"%string; "s4"%string] globals0 =
  (inr ([alter_fish_fn; alter_shark_fn], []),
   {| FISH_MODE := 3; SHARK_MODE := 4 |}).
Proof.
  assert (H : Forall (fun mod_ => is_Some (mod_n_of mod_))
                     ["f3"%string; "x9"%string; "s4"%string])
    by (repeat constructor; eexists; reflexivity).
  split; [exact H|].
  exact (proj1 (modif_funcs_on_digit_strings _ globals0 H)).
Defined.

(** C9 as stated fails: on the list ["x"], a string that starts with
    neither letter, [modif_funcs] raises [ValueError] and returns no
    lists. *)
Lemma modif_funcs_raises_on_x :
  modif_funcs ["x"%string] globals0 = (inl ValueError, globals0) /\
  ~ (exists step_modifs g,
       modif_funcs ["x"%string] globals0 = (inr (step_modifs, []), g)).
Proof.
  split; [reflexivity|]. intros (sm & g & H). discriminate H.
Qed.

(** ** The reference emulator meets the contract *)

Lemma Toy_getRAM_byte : forall e, Forall is_byte (Toy.getRAM e).
Proof.
  intros e. unfold Toy.getRAM. apply Forall_forall. intros v Hv.
  apply list_elem_of_fmap in Hv as (w & -> & _).
  unfold is_byte. apply Z.mod_pos_bound. lia.
Qed.

Lemma Toy_getRAM_setRAM : forall e i v,
  (i < length (Toy.getRAM e))%nat -> is_byte v ->
  Toy.getRAM (Toy.setRAM i v e) = <[i := v]> (Toy.getRAM e).
Proof.
  intros e i v _ Hv. unfold Toy.getRAM, Toy.setRAM. cbn.
  change (map ?f ?l) with (f <$> l). rewrite list_fmap_insert.
  f_equal. apply Z.mod_small. exact Hv.
Qed.

Lemma Toy_step_length : forall a e,
  length (Toy.getRAM (Toy.step a e)) = length (Toy.getRAM e).
Proof.
  intros a e. unfold Toy.getRAM, Toy.step. cbn.
  now rewrite !length_map, length_alter.
Qed.

Lemma Toy_inside_frame x y :
  (x < 2)%nat -> (y < 2)%nat -> inside_frame Toy.Env Toy.getScreenRGB x y.
Proof.
  intros Hx Hy e. unfold pixel_at, Toy.getScreenRGB.
  destruct y as [|[|y]]; [| |lia];
    (destruct x as [|[|x]]; [| |lia]); cbn; eauto.
Qed.

(** A Renderer on the reference emulator: nothing selected, no
    candidates, no calls made yet. *)
Definition toy_renderer (e : Toy.Env) : Renderer Toy.Env :=
  mkRenderer {| emu := e; calls := [] |} true false false ∅ (0, 0)%nat []
             668 28 8 115 45 128 None [] EmptyString [].

(** ** The theorems at work on the reference emulator *)

(** Shark ramp mode from 115: the cell becomes 120. *)
Lemma shark_ramp_mode_witness :
  exists e',
    alter_shark Toy.Env Toy.getRAM Toy.setRAM
      {| FISH_MODE := 0; SHARK_MODE := 4 |} (Toy.setRAM 75 115 Toy.env0)
    = (inr tt, e') /\
    Toy.getRAM e' !! 75%nat = Some 120.
Proof.
  destruct (shark_ramp_mode Toy.Env Toy.getRAM Toy.setRAM
              Toy_getRAM_byte Toy_getRAM_setRAM
              {| FISH_MODE := 0; SHARK_MODE := 4 |}
              (Toy.setRAM 75 115 Toy.env0) 115 eq_refl eq_refl)
    as (e' & Hrun & _ & _ & H115 & _).
  exists e'. split; [exact Hrun | exact (H115 eq_refl)].
Defined.

(** Shark bounce mode from 100: the cell becomes 25. *)
Lemma shark_bounce_mode_witness :
  exists e',
    alter_shark Toy.Env Toy.getRAM Toy.setRAM
      {| FISH_MODE := 0; SHARK_MODE := 3 |} (Toy.setRAM 75 100 Toy.env0)
    = (inr tt, e') /\
    Toy.getRAM e' !! 75%nat = Some 25.
Proof.
  destruct (shark_bounce_mode Toy.Env Toy.getRAM Toy.setRAM
              Toy_getRAM_setRAM
              {| FISH_MODE := 0; SHARK_MODE := 3 |}
              (Toy.setRAM 75 100 Toy.env0) 100 eq_refl eq_refl)
    as (e' & Hrun & H100 & _).
  exists e'. split; [exact Hrun | exact (H100 eq_refl)].
Defined.

(** Fish mode 3 on cells holding 69 .. 74: cell 69 becomes 86, cell 70
    keeps 70. *)
Lemma fish_middle_mode_witness :
  exists e',
    alter_fish Toy.Env Toy.getRAM Toy.setRAM
      {| FISH_MODE := 3; SHARK_MODE := 0 |} Toy.env0 = (inr tt, e') /\
    Toy.getRAM e' !! 69%nat = Some 86 /\
    Toy.getRAM e' !! 70%nat = Some 70.
Proof.
  destruct (fish_middle_mode Toy.Env Toy.getRAM Toy.setRAM
              Toy_getRAM_byte Toy_getRAM_setRAM
              {| FISH_MODE := 3; SHARK_MODE := 0 |} Toy.env0 eq_refl)
    as (e' & Hrun & Hcells).
  { vm_compute. lia. }
  exists e'. split; [exact Hrun|]. split.
  - apply (Hcells 69%nat 69); [lia | reflexivity | lia].
  - apply (Hcells 70%nat 70); [lia | reflexivity | lia].
Defined.

(** Shark mode 1 and fish mode 3 in both orders give one RAM. *)
Lemma patchers_commute_witness :
  exists e_sf e_fs,
    (alter_shark Toy.Env Toy.getRAM Toy.setRAM
       {| FISH_MODE := 3; SHARK_MODE := 1 |} ;;
     alter_fish Toy.Env Toy.getRAM Toy.setRAM
       {| FISH_MODE := 3; SHARK_MODE := 1 |}) Toy.env0 = (inr tt, e_sf) /\
    (alter_fish Toy.Env Toy.getRAM Toy.setRAM
       {| FISH_MODE := 3; SHARK_MODE := 1 |} ;;
     alter_shark Toy.Env Toy.getRAM Toy.setRAM
       {| FISH_MODE := 3; SHARK_MODE := 1 |}) Toy.env0 = (inr tt, e_fs) /\
    Toy.getRAM e_sf = Toy.getRAM e_fs.
Proof.
  destruct (patchers_commute Toy.Env Toy.getRAM Toy.setRAM
              Toy_getRAM_byte Toy_getRAM_setRAM
              {| FISH_MODE := 3; SHARK_MODE := 1 |} Toy.env0)
    as (e_sf & e_fs & _ & _ & Hsf & Hfs & Heq & _).
  { vm_compute. lia. }
  exists e_sf, e_fs. auto.
Defined.

(** Shark mode 3 and fish mode 1 from cell [i] holding [i]: the second
    application changes nothing. *)
Lemma patchers_idempotent_but_ramp_witness :
  exists f1 f2 s1 s2,
    alter_fish Toy.Env Toy.getRAM Toy.setRAM
      {| FISH_MODE := 1; SHARK_MODE := 3 |} Toy.env0 = (inr tt, f1) /\
    alter_fish Toy.Env Toy.getRAM Toy.setRAM
      {| FISH_MODE := 1; SHARK_MODE := 3 |} f1 = (inr tt, f2) /\
    Toy.getRAM f2 = Toy.getRAM f1 /\
    alter_shark Toy.Env Toy.getRAM Toy.setRAM
      {| FISH_MODE := 1; SHARK_MODE := 3 |} Toy.env0 = (inr tt, s1) /\
    alter_shark Toy.Env Toy.getRAM Toy.setRAM
      {| FISH_MODE := 1; SHARK_MODE := 3 |} s1 = (inr tt, s2) /\
    Toy.getRAM s2 = Toy.getRAM s1.
Proof.
  destruct (patchers_idempotent_but_ramp Toy.Env Toy.getRAM Toy.setRAM
              Toy_getRAM_byte Toy_getRAM_setRAM
              {| FISH_MODE := 1; SHARK_MODE := 3 |} Toy.env0 75 eq_refl)
    as (f1 & f2 & s1 & s2 & Hf1 & Hf2 & Hf & Hs1 & Hs2 & Hs & _).
  exists f1, f2, s1, s2. repeat split; try assumption.
  apply Hs. cbn. lia.
Defined.

(** C3 as stated fails in the shark ramp mode: from cell 75 holding 0,
    one application of [alter_shark] leaves 5 there and two leave 10. *)
Lemma shark_ramp_not_idempotent :
  exists s1 s2,
    alter_shark Toy.Env Toy.getRAM Toy.setRAM
      {| FISH_MODE := 0; SHARK_MODE := 4 |} Toy.zeros = (inr tt, s1) /\
    alter_shark Toy.Env Toy.getRAM Toy.setRAM
      {| FISH_MODE := 0; SHARK_MODE := 4 |} s1 = (inr tt, s2) /\
    Toy.getRAM s1 !! 75%nat = Some 5 /\
    Toy.getRAM s2 !! 75%nat = Some 10 /\
    Toy.getRAM s2 <> Toy.getRAM s1.
Proof.
  eexists. eexists.
  split; [vm_compute; reflexivity|].
  split; [vm_compute; reflexivity|].
  split; [vm_compute; reflexivity|].
  split; [vm_compute; reflexivity|].
  vm_compute. discriminate.
Qed.

(** The scan of pixel [(1, 0)] from cell [i] holding [i]: the pixel
    shows cells 1 and 75, and they are the two candidates. *)
Example toy_scan :
  candidate_cell_ids
    (find_causative_ram Toy.Env Toy.getRAM Toy.setRAM Toy.step
       Toy.getScreenRGB 1 0 (toy_renderer Toy.env0)).2
  = [1; 75]%nat.
Proof. vm_compute. reflexivity. Qed.

Lemma find_causative_ram_candidates_witness :
  inside_frame Toy.Env Toy.getScreenRGB 1 0 /\
  exists r',
    find_causative_ram Toy.Env Toy.getRAM Toy.setRAM Toy.step
      Toy.getScreenRGB 1 0 (toy_renderer Toy.env0) = (inr tt, r') /\
    In 75%nat (candidate_cell_ids r') /\
    ~ In 2%nat (candidate_cell_ids r').
Proof.
  assert (Hin : inside_frame Toy.Env Toy.getScreenRGB 1 0)
    by (apply Toy_inside_frame; lia).
  split; [exact Hin|].
  destruct (find_causative_ram_candidates Toy.Env Toy.getRAM Toy.setRAM
              Toy.step Toy.getScreenRGB Toy_getRAM_byte Toy_getRAM_setRAM
              Toy_step_length 1 0 (toy_renderer Toy.env0) Hin)
    as (r' & Hrun & Hiff & _).
  exists r'. split; [exact Hrun|]. split.
  - apply Hiff. split; [vm_compute; lia|].
    eexists. exists (1, 0, 0), (1, 75, 0).
    split; [reflexivity|]. split; [vm_compute; reflexivity|].
    split; [vm_compute; reflexivity|]. split; [vm_compute; reflexivity|].
    discriminate.
  - intros H2. apply Hiff in H2 as (_ & e_i & p & p0 & -> & _ & Hp & Hp0 & Hne).
    vm_compute in Hp, Hp0. congruence.
Defined.

Lemma find_causative_ram_restores_witness :
  inside_frame Toy.Env Toy.getScreenRGB 1 0 /\
  exists r',
    find_causative_ram Toy.Env Toy.getRAM Toy.setRAM Toy.step
      Toy.getScreenRGB 1 0 (toy_renderer Toy.env0) = (inr tt, r') /\
    Toy.getRAM (emu (env r')) = Toy.getRAM Toy.env0.
Proof.
  assert (Hin : inside_frame Toy.Env Toy.getScreenRGB 1 0)
    by (apply Toy_inside_frame; lia).
  split; [exact Hin|].
  exact (find_causative_ram_restores Toy.Env Toy.getRAM Toy.setRAM
           Toy.step Toy.getScreenRGB Toy_getRAM_byte Toy_getRAM_setRAM
           Toy_step_length 1 0 (toy_renderer Toy.env0) Hin).
Defined.

(** A Renderer with cell 3 selected and "256" typed. *)
Definition toy_typing : Renderer Toy.Env :=
  set_current_active_cell_input Toy.Env "256"
    (set_active_cell_idx Toy.Env (Some 3%nat) (toy_renderer Toy.env0)).

(** The wheel on a cell holding 255 writes 255, and RETURN on the typed
    number 256 leaves the emulator without a call. *)
Lemma editing_writes_stay_in_byte_witness :
  (_increment_ram_value_at Toy.Env Toy.getRAM Toy.setRAM 7
     (toy_renderer (Toy.setRAM 7 255 Toy.env0))).1 = inr tt /\
  calls (env (_increment_ram_value_at Toy.Env Toy.getRAM Toy.setRAM 7
                (toy_renderer (Toy.setRAM 7 255 Toy.env0))).2)
  = [CSetRAM 7 255] /\
  env (handle_event Toy.Env Toy.getRAM Toy.setRAM Toy.step Toy.reset
         Toy.getScreenRGB pygame2_keys Toy.UPSCALE_FACTOR Toy.layout
         (KEYDOWN 13) toy_typing).2
  = env toy_typing.
Proof.
  destruct (editing_writes_stay_in_byte Toy.Env Toy.getRAM Toy.setRAM
              Toy.step Toy.reset Toy.getScreenRGB pygame2_keys
              Toy.UPSCALE_FACTOR Toy.layout Toy_getRAM_byte)
    as (_ & Hinc & _ & Hret).
  destruct (Hinc 7%nat (toy_renderer (Toy.setRAM 7 255 Toy.env0)) 255
              eq_refl) as (Hrun & _ & _).
  rewrite Hrun. split; [reflexivity|]. split; [reflexivity|].
  assert (Hc : commits_input Toy.Env pygame2_keys toy_typing 13).
  { unfold commits_input. cbn. repeat split; try lia; auto. }
  destruct (Hret 13 toy_typing 3%nat 256 Hc eq_refl eq_refl) as [Hge _].
  exact (proj1 (proj2 (Hge ltac:(lia)))).
Defined.

(** ** [modif_funcs]: repeated and malformed strings *)

Lemma foldl_modif_globals_fish post : forall g,
  Forall (fun m' => startswith m' "f" = false) post ->
  FISH_MODE (foldl modif_globals g post) = FISH_MODE g.
Proof.
  induction post as [|m' post IH]; intros g Hpost; [reflexivity|].
  apply Forall_cons in Hpost as [Hm' Hpost]. cbn [foldl].
  rewrite IH by exact Hpost. unfold modif_globals. rewrite Hm'.
  repeat case_match; reflexivity.
Qed.

Lemma foldl_modif_globals_shark post : forall g,
  Forall (fun m' => startswith m' "f" = true \/ startswith m' "s" = false)
         post ->
  SHARK_MODE (foldl modif_globals g post) = SHARK_MODE g.
Proof.
  induction post as [|m' post IH]; intros g Hpost; [reflexivity|].
  apply Forall_cons in Hpost as [Hm' Hpost]. cbn [foldl].
  rewrite IH by exact Hpost. unfold modif_globals.
  destruct Hm' as [-> | Hs]; [repeat case_match; reflexivity|].
  rewrite Hs. repeat case_match; reflexivity.
Qed.

(** X24. The modes are module globals, so the last string of a kind
    wins: after [modif_funcs], [FISH_MODE] is the digit of the last
    string that starts with 'f' and [SHARK_MODE] that of the last one
    taken as a shark string, while every string still adds its patcher
    to [step_modifs]; with "f1" and "f3" the list holds [alter_fish]
    twice and both run in mode 3. *)
Theorem modif_funcs_last_mode_wins pre m post n g :
  Forall (fun mod_ => is_Some (mod_n_of mod_)) (pre ++ m :: post) ->
  mod_n_of m = Some n ->
  (startswith m "f" = true ->
   Forall (fun m' => startswith m' "f" = false) post ->
   FISH_MODE (modif_funcs (pre ++ m :: post) g).2 = n) /\
  (startswith m "f" = false -> startswith m "s" = true ->
   Forall (fun m' => startswith m' "f" = true \/ startswith m' "s" = false)
          post ->
   SHARK_MODE (modif_funcs (pre ++ m :: post) g).2 = n) /\
  (modif_funcs (pre ++ m :: post) g).1 =
  inr (flat_map modif_entry pre ++ modif_entry m
       ++ flat_map modif_entry post, []).
Proof.
  intros Hall Hn. unfold modif_funcs. rewrite modif_loop_run by exact Hall.
  cbn [fst snd glob step_modifs reset_modifs app].
  rewrite foldl_app. cbn [foldl]. split; [|split].
  - intros Hf Hpost. rewrite foldl_modif_globals_fish by exact Hpost.
    unfold modif_globals. now rewrite Hn, Hf.
  - intros Hf Hs Hpost. rewrite foldl_modif_globals_shark by exact Hpost.
    unfold modif_globals. now rewrite Hn, Hf, Hs.
  - now rewrite flat_map_app.
Qed.

(** X25. A malformed string stops [modif_funcs] half way: the call
    raises [IndexError] on an empty string and [ValueError] on one
    whose last character is not a digit, the strings after it are not
    read, and the modes the strings before it set stay set. *)
Theorem modif_funcs_raise_keeps_modes pre bad post g :
  Forall (fun mod_ => is_Some (mod_n_of mod_)) pre ->
  mod_n_of bad = None ->
  modif_funcs (pre ++ bad :: post) g =
  (inl (match last_char bad with
        | Some _ => ValueError
        | None => IndexError
        end),
   foldl modif_globals g pre).
Proof.
  intros Hpre Hbad. unfold modif_funcs. rewrite for_app.
  unfold bind at 1. rewrite modif_loop_run by exact Hpre.
  cbn [for_]. unfold bind at 1.
  unfold modif_body, mod_n_of in *.
  destruct (last_char bad) as [c|]; [|reflexivity].
  unfold bind, ret, int. now rewrite int_of_one_char, Hbad.
Qed.

(** ** The added theorems at work on the reference emulator *)

Lemma Toy_step_getRAM a e :
  Toy.getRAM (Toy.step a e)
  = alter (fun v => (v + 1) mod 256) 0%nat (Toy.getRAM e).
Proof.
  unfold Toy.getRAM, Toy.step. cbn.
  destruct (Toy.ram e) as [|v l]; cbn; [reflexivity|].
  f_equal. now rewrite Zplus_mod_idemp_l.
Qed.

(** The frame of the reference emulator after a step shows the RAM
    before it and nothing else. *)
Lemma Toy_frame_of_ram e1 e2 :
  Toy.getRAM e1 = Toy.getRAM e2 ->
  Toy.getScreenRGB (Toy.step 0 e1) = Toy.getScreenRGB (Toy.step 0 e2).
Proof.
  intros H. unfold Toy.getScreenRGB, Toy.cell.
  now rewrite !Toy_step_getRAM, H.
Qed.

(** A Renderer with the keys SPACE (32), 'a' (97) and 'd' (100) bound,
    alone and SPACE with 'a', and with 'a' and SPACE held down. *)
Definition toy_player : Renderer Toy.Env :=
  mkRenderer {| emu := Toy.env0; calls := [] |} true false false
             (list_to_set [32; 97]) (0, 0)%nat
             [([32], 1); ([97], 4); ([100], 3); ([32; 97], 12)]
             668 28 8 115 45 128 None [] EmptyString [].


(** The handler on the reference emulator with the key codes of
    pygame 2. *)
Definition toy_handle_user_input :=
  _handle_user_input Toy.Env Toy.getRAM Toy.setRAM Toy.step Toy.reset
    Toy.getScreenRGB pygame2_keys Toy.UPSCALE_FACTOR Toy.layout.

(** The scan of pixel [(1, 0)]: cell 75 is a candidate, zeroing it
    changes the pixel. *)
Lemma find_causative_ram_counterfactual_witness :
  exists r',
    find_causative_ram Toy.Env Toy.getRAM Toy.setRAM Toy.step
      Toy.getScreenRGB 1 0 (toy_renderer Toy.env0) = (inr tt, r') /\
    In 75%nat (candidate_cell_ids r').
Proof.
  destruct (find_causative_ram_counterfactual Toy.Env Toy.getRAM Toy.setRAM
              Toy.step Toy.getScreenRGB Toy_getRAM_byte Toy_getRAM_setRAM
              Toy_step_length 1 0 (toy_renderer Toy.env0) Toy_frame_of_ram)
    as (r' & Hrun & Hiff).
  { apply Toy_inside_frame; lia. }
  exists r'. split; [exact Hrun|]. apply Hiff.
  split; [vm_compute; lia|]. vm_compute. discriminate.
Defined.

(** Pixel [(0, 0)] shows cell 0, which holds 0: the scan misses it. *)
Lemma find_causative_ram_misses_zero_cells_witness :
  (find_causative_ram Toy.Env Toy.getRAM Toy.setRAM Toy.step
     Toy.getScreenRGB 0 0 (toy_renderer Toy.env0)).1 = inr tt /\
  ~ In 0%nat
      (candidate_cell_ids
         (find_causative_ram Toy.Env Toy.getRAM Toy.setRAM Toy.step
            Toy.getScreenRGB 0 0 (toy_renderer Toy.env0)).2).
Proof.
  apply (find_causative_ram_misses_zero_cells Toy.Env Toy.getRAM Toy.setRAM
           Toy.step Toy.getScreenRGB Toy_getRAM_byte Toy_getRAM_setRAM
           Toy_step_length 0 0 (toy_renderer Toy.env0) 0%nat
           Toy_frame_of_ram).
  - apply Toy_inside_frame; lia.
  - reflexivity.
Defined.

(** Column 2 is outside the frame of two columns. *)
Lemma find_causative_ram_outside_frame_witness :
  (find_causative_ram Toy.Env Toy.getRAM Toy.setRAM Toy.step
     Toy.getScreenRGB 2 0 (toy_renderer Toy.env0)).1 = inl IndexError /\
  calls (env (find_causative_ram Toy.Env Toy.getRAM Toy.setRAM Toy.step
                Toy.getScreenRGB 2 0 (toy_renderer Toy.env0)).2)
  = [CStep 0].
Proof.
  rewrite (find_causative_ram_outside_frame Toy.Env Toy.getRAM Toy.setRAM
             Toy.step Toy.getScreenRGB 2 0 (toy_renderer Toy.env0) eq_refl).
  split; reflexivity.
Defined.

(** The scan of a RAM of 128 cells takes 129 steps. *)
Lemma find_causative_ram_steps_witness :
  exists r',
    find_causative_ram Toy.Env Toy.getRAM Toy.setRAM Toy.step
      Toy.getScreenRGB 1 0 (toy_renderer Toy.env0) = (inr tt, r') /\
    count_steps (calls (env r')) = 129%nat.
Proof.
  destruct (find_causative_ram_steps Toy.Env Toy.getRAM Toy.setRAM
              Toy.step Toy.getScreenRGB Toy_getRAM_byte Toy_getRAM_setRAM
              Toy_step_length 1 0 (toy_renderer Toy.env0))
    as (r' & Hrun & Hsteps).
  { apply Toy_inside_frame; lia. }
  exists r'. split; [exact Hrun|]. rewrite Hsteps. reflexivity.
Defined.

(** The scan drops the selection of cell 3 and the typed "256". *)
Lemma find_causative_ram_unselects_witness :
  exists w c,
    find_causative_ram Toy.Env Toy.getRAM Toy.setRAM Toy.step
      Toy.getScreenRGB 1 0 toy_typing
    = (inr tt,
       set_candidate_cell_ids Toy.Env c
         (set_current_active_cell_input Toy.Env EmptyString
            (set_active_cell_idx Toy.Env None
               (set_env Toy.Env w toy_typing)))).
Proof.
  apply (find_causative_ram_unselects Toy.Env Toy.getRAM Toy.setRAM
           Toy.step Toy.getScreenRGB Toy_getRAM_byte Toy_getRAM_setRAM
           Toy_step_length 1 0 toy_typing).
  apply Toy_inside_frame; lia.
Defined.

(** Wheel up then down on cell 7 holding 7 gives the RAM back. *)
Lemma wheel_round_trip_witness :
  exists r1,
    (_increment_ram_value_at Toy.Env Toy.getRAM Toy.setRAM 7 ;;
     _decrement_ram_value_at Toy.Env Toy.getRAM Toy.setRAM 7)
      (toy_renderer Toy.env0) = (inr tt, r1) /\
    Toy.getRAM (emu (env r1)) = Toy.getRAM Toy.env0.
Proof.
  destruct (wheel_round_trip Toy.Env Toy.getRAM Toy.setRAM Toy_getRAM_byte
              Toy_getRAM_setRAM 7 (toy_renderer Toy.env0) 7 eq_refl)
    as (r1 & r2 & Hrun & _ & Hsame & _).
  exists r1. split; [exact Hrun|]. apply Hsame. lia.
Defined.

(** The wheel on index 200 of a RAM of 128 cells raises. *)
Lemma wheel_outside_ram_witness :
  _increment_ram_value_at Toy.Env Toy.getRAM Toy.setRAM 200
    (toy_renderer Toy.env0)
  = (inl IndexError, toy_renderer Toy.env0).
Proof.
  apply (wheel_outside_ram Toy.Env Toy.getRAM Toy.setRAM 200
           (toy_renderer Toy.env0)).
  vm_compute. lia.
Defined.

(** The mouse at (920, 90) is in the slot of cell 10: row 1, column 2
    of the grid anchored at (668, 28). *)
Lemma get_cell_under_mouse_of_rect_witness :
  _get_cell_under_mouse Toy.Env
    (set_current_mouse_pos Toy.Env (920, 90)%nat (toy_renderer Toy.env0))
  = (inr (Some 10%nat),
     set_current_mouse_pos Toy.Env (920, 90)%nat (toy_renderer Toy.env0)).
Proof.
  apply (get_cell_under_mouse_of_rect Toy.Env (toy_renderer Toy.env0)
           10 920 90 918 83 115 45).
  - cbn. lia.
  - vm_compute. lia.
  - reflexivity.
  - lia.
  - lia.
Defined.

(** The slot of index 130, row 16 of the grid, lies past the 128 cells
    of the RAM: the wheel over it raises. *)
Lemma wheel_on_slot_outside_ram_witness :
  toy_handle_user_input (920, 910)%nat [MOUSEBUTTONDOWN 4]
    (toy_renderer Toy.env0)
  = (inl IndexError,
     set_current_mouse_pos Toy.Env (920, 910)%nat (toy_renderer Toy.env0)).
Proof.
  apply (wheel_on_slot_outside_ram Toy.Env Toy.getRAM Toy.setRAM Toy.step
           Toy.reset Toy.getScreenRGB pygame2_keys Toy.UPSCALE_FACTOR
           Toy.layout (toy_renderer Toy.env0) 130 920 910 918 908 115 45 4).
  - now left.
  - cbn. lia.
  - vm_compute. lia.
  - vm_compute. lia.
  - reflexivity.
  - lia.
  - lia.
Defined.


(** After a round with QUIT, a pending press of 'R' is not handled. *)
Lemma quit_ends_run_witness :
  run Toy.Env Toy.getRAM Toy.setRAM Toy.step Toy.reset Toy.getScreenRGB
    pygame2_keys Toy.UPSCALE_FACTOR Toy.layout
    [((0, 0)%nat, [QUIT]); ((0, 0)%nat, [KEYDOWN 114])]
    (toy_renderer Toy.env0)
  = run Toy.Env Toy.getRAM Toy.setRAM Toy.step Toy.reset Toy.getScreenRGB
      pygame2_keys Toy.UPSCALE_FACTOR Toy.layout
      [((0, 0)%nat, [QUIT])] (toy_renderer Toy.env0).
Proof.
  apply (quit_ends_run Toy.Env Toy.getRAM Toy.setRAM Toy.step Toy.reset
           Toy.getScreenRGB pygame2_keys Toy.UPSCALE_FACTOR Toy.layout
           Toy_getRAM_byte).
  apply elem_of_cons. now left.
Defined.

(** The key '1' and BACKSPACE on the typed "256". *)
Lemma type_then_backspace_witness :
  exists r',
    toy_handle_user_input (0, 0)%nat [KEYDOWN 49; KEYDOWN 8] toy_typing
    = (inr tt, r') /\
    current_active_cell_input r' = "256"%string.
Proof.
  destruct (type_then_backspace Toy.Env Toy.getRAM Toy.setRAM Toy.step
              Toy.reset Toy.getScreenRGB pygame2_keys Toy.UPSCALE_FACTOR
              Toy.layout (0, 0)%nat toy_typing 3 49)
    as (r' & Hrun & Hin & _).
  - cbn. lia.
  - reflexivity.
  - unfold plain_key. cbn. repeat split; lia.
  - cbn. lia.
  - unfold plain_key. cbn. repeat split; lia.
  - cbn. lia.
  - cbn. lia.
  - exists r'. split; [exact Hrun|exact Hin].
Defined.



(** 'd' pressed and released while SPACE and 'a' are held. *)
Lemma action_key_press_release_witness :
  exists r2,
    toy_handle_user_input (0, 0)%nat [KEYDOWN 100; KEYUP 100] toy_player
    = (inr tt, r2) /\
    current_keys_down _ r2 = current_keys_down _ toy_player ∖ {[ 100 ]}.
Proof.
  destruct (action_key_press_release Toy.Env Toy.getRAM Toy.setRAM Toy.step
              Toy.reset Toy.getScreenRGB pygame2_keys Toy.UPSCALE_FACTOR
              Toy.layout (0, 0)%nat toy_player 100)
    as (_ & r2 & Hrun & Hdown & _).
  - cbn. lia.
  - cbn. intros [H _]. lia.
  - reflexivity.
  - exists r2. split; [exact Hrun|exact Hdown].
Defined.

(** 'd' released without having been pressed. *)
Lemma release_unrecorded_key_raises_witness :
  toy_handle_user_input (0, 0)%nat [KEYUP 100] toy_player
  = (inl KeyError, set_current_mouse_pos Toy.Env (0, 0)%nat toy_player).
Proof.
  apply (release_unrecorded_key_raises Toy.Env Toy.getRAM Toy.setRAM Toy.step
           Toy.reset Toy.getScreenRGB pygame2_keys Toy.UPSCALE_FACTOR
           Toy.layout (0, 0)%nat toy_player 100).
  - reflexivity.
  - change (100 ∉ (list_to_set [32; 97] : gset Z)).
    rewrite elem_of_list_to_set, !elem_of_cons, elem_of_nil. lia.
Defined.

(** A right click outside the grid hides "no cell". *)
Lemma right_click_toggles_witness :
  exists c r',
    toy_handle_user_input (0, 0)%nat [MOUSEBUTTONDOWN 3]
      (toy_renderer Toy.env0) = (inr tt, r') /\
    c ∈ no_render _ r'.
Proof.
  destruct (right_click_toggles Toy.Env Toy.getRAM Toy.setRAM Toy.step
              Toy.reset Toy.getScreenRGB pygame2_keys Toy.UPSCALE_FACTOR
              Toy.layout (0, 0)%nat (toy_renderer Toy.env0))
    as (c & r' & _ & Hrun & _ & Hin & _).
  - constructor.
  - exists c, r'. split; [exact Hrun|]. apply Hin. cbn. apply not_elem_of_nil.
Defined.

(** A paused round with the wheel and 'R' takes no step. *)
Lemma round_steps_once_unless_paused_witness :
  count_steps
    (calls (env (run_frame Toy.Env Toy.getRAM Toy.setRAM Toy.step Toy.reset
                   Toy.getScreenRGB pygame2_keys Toy.UPSCALE_FACTOR
                   Toy.layout
                   ((920, 90)%nat, [MOUSEBUTTONDOWN 4; KEYDOWN 114])
                   (set_paused Toy.Env true (toy_renderer Toy.env0))).2))
  = 0%nat.
Proof.
  destruct (round_steps_once_unless_paused Toy.Env Toy.getRAM Toy.setRAM
              Toy.step Toy.reset Toy.getScreenRGB pygame2_keys
              Toy.UPSCALE_FACTOR Toy.layout Toy_getRAM_byte (920, 90)%nat
              [MOUSEBUTTONDOWN 4; KEYDOWN 114]
              (set_paused Toy.Env true (toy_renderer Toy.env0)))
    as [Hsteps _].
  - rewrite !elem_of_cons, elem_of_nil. intros [H|[H|[]]]; discriminate.
  - rewrite Hsteps. reflexivity.
Defined.

(** SPACE and 'a' held: the action bound to the tuple (32, 97). *)
Lemma get_action_bound_witness :
  _get_action Toy.Env toy_player = (inr 12, toy_player).
Proof.
  apply (get_action_bound Toy.Env toy_player [32; 97] 12).
  - cbn. repeat (constructor; [rewrite ?elem_of_cons, ?elem_of_nil;
      intros H; decompose [or] H; try discriminate; try contradiction|]).
    constructor.
  - cbn. rewrite !elem_of_cons. auto.
  - repeat constructor; lia.
  - reflexivity.
Defined.

(** 'a' and 'd' held: no tuple has exactly these keys, so NOOP. *)
Lemma get_action_noop_witness :
  _get_action Toy.Env
    (set_current_keys_down Toy.Env (list_to_set [97; 100]) toy_player)
  = (inr 0,
     set_current_keys_down Toy.Env (list_to_set [97; 100]) toy_player).
Proof.
  apply (get_action_noop Toy.Env).
  intros ks a Hin Heq.
  change ((ks, a) ∈ [([32], 1); ([97], 4); ([100], 3); ([32; 97], 12)])
    in Hin.
  change (list_to_set ks = (list_to_set [97; 100] : gset Z)) in Heq.
  assert (H100 : 100 ∈ (list_to_set ks : gset Z))
    by (rewrite Heq, elem_of_list_to_set, !elem_of_cons; auto).
  assert (H97 : 97 ∈ (list_to_set ks : gset Z))
    by (rewrite Heq, elem_of_list_to_set, !elem_of_cons; auto).
  rewrite elem_of_list_to_set in H100, H97.
  rewrite !elem_of_cons, elem_of_nil in Hin.
  decompose [or] Hin; try contradiction;
    match goal with H : (_, _) = (_, _) |- _ => injection H as -> -> end;
    rewrite ?elem_of_cons, ?elem_of_nil in H100, H97; lia.
Defined.

(** Fish mode 1 from cell [i] holding [i]: cell 70 keeps 70. *)
Lemma fish_modes_confine_witness :
  exists e',
    alter_fish Toy.Env Toy.getRAM Toy.setRAM
      {| FISH_MODE := 1; SHARK_MODE := 0 |} Toy.env0 = (inr tt, e') /\
    Toy.getRAM e' !! 70%nat = Some 70.
Proof.
  destruct (fish_modes_confine Toy.Env Toy.getRAM Toy.setRAM
              Toy_getRAM_byte Toy_getRAM_setRAM
              {| FISH_MODE := 1; SHARK_MODE := 0 |} Toy.env0)
    as (e' & Hrun & Hcells).
  { vm_compute. lia. }
  exists e'. split; [exact Hrun|].
  destruct (Hcells 70%nat 70) as (v' & Hv' & H1 & _);
    [lia|reflexivity|].
  rewrite Hv'. f_equal. apply (proj2 (H1 eq_refl)). lia.
Defined.

(** Shark mode 1 from cell 75 holding 75: the cell becomes 105. *)
Lemma shark_pin_modes_witness :
  exists e',
    alter_shark Toy.Env Toy.getRAM Toy.setRAM
      {| FISH_MODE := 0; SHARK_MODE := 1 |} Toy.env0 = (inr tt, e') /\
    Toy.getRAM e' !! 75%nat = Some 105.
Proof.
  destruct (shark_pin_modes Toy.Env Toy.getRAM Toy.setRAM
              Toy_getRAM_byte Toy_getRAM_setRAM
              {| FISH_MODE := 0; SHARK_MODE := 1 |} Toy.env0 75)
    as (e' & Hrun & Hcell & _).
  - now left.
  - reflexivity.
  - exists e'. split; [exact Hrun|exact Hcell].
Defined.

(** Shark mode 7 does nothing. *)
Lemma modes_out_of_range_do_nothing_witness :
  alter_shark Toy.Env Toy.getRAM Toy.setRAM
    {| FISH_MODE := 0; SHARK_MODE := 7 |} Toy.env0 = (inr tt, Toy.env0).
Proof.
  apply (proj1 (modes_out_of_range_do_nothing Toy.Env Toy.getRAM Toy.setRAM
                  {| FISH_MODE := 0; SHARK_MODE := 7 |} Toy.env0)).
  cbn. lia.
Defined.

(** The strings ["f1"; "s2"; "f3"]: fish mode 3, and two [alter_fish]. *)
Lemma modif_funcs_last_mode_wins_witness :
  FISH_MODE (modif_funcs ["f1"; "s2"; "f3"]%string globals0).2 = 3 /\
  (modif_funcs ["f1"; "s2"; "f3"]%string globals0).1
  = inr ([alter_fish_fn; alter_shark_fn; alter_fish_fn], []).
Proof.
  destruct (modif_funcs_last_mode_wins ["f1"; "s2"]%string "f3"%string []
              3 globals0) as (Hfish & _ & Hlist).
  - repeat constructor; eexists; reflexivity.
  - reflexivity.
  - split; [apply Hfish; [reflexivity|constructor]|exact Hlist].
Defined.

(** The strings ["f2"; "sx"; "f3"]: [ValueError], fish mode 2 stays. *)
Lemma modif_funcs_raise_keeps_modes_witness :
  modif_funcs ["f2"; "sx"; "f3"]%string globals0
  = (inl ValueError, {| FISH_MODE := 2; SHARK_MODE := 0 |}).
Proof.
  apply (modif_funcs_raise_keeps_modes ["f2"%string] "sx"%string
           ["f3"%string] globals0).
  - repeat constructor; eexists; reflexivity.
  - reflexivity.
Defined.
